(** * The inventory ledger engine of the Inventory-App web server

    A shallow embedding of [materials.go]: the four tables the engine
    writes ([incoming_materials], [materials], [prices],
    [transactions_log]), the [database/sql] calls the engine makes on a
    transaction ([tx]) or on the connection pool ([db]), and the
    functions [sendMaterial], [getMaterialPrices], [updatePriceQty],
    [upsertPrice], [addTranscation], [removePricesFIFO],
    [createMaterial], [deleteIncomingMaterial], [getMaterialById],
    [moveMaterial], [removeMaterial] and [updateMaterial]; the two
    listings [getIncomingMaterials] and [getMaterials], which join the
    tables that the engine does not write ([customers], [locations],
    [warehouses]); and the websocket clients of [addClient] and
    [broadcastMessage].

    What a run of the engine cannot decide by itself is an input of the
    run, gathered in [Env]: which store calls fail, in which order the Go
    runtime ranges over a map, and the reading of the clock.

    - Integers. A Go [int] has 64 bits: the arithmetic that the Go code
      does wraps around ([int_neg], [int_sub]) and a Scan into an [int]
      fails on a value out of range. The arithmetic of the SQL
      statements is the store's, on the integers.
    - Tables. The table declarations are not part of the sources. Keys
      are serial; the unique index on [(material_id, cost)] is the one
      that the ON CONFLICT clause of [upsertPrice] names. [SELECT *]
      yields every column of its table: for [prices] the four that
      [getMaterialPrices] scans, the only ones a statement names; for
      [materials] the fourteen that the statements name, one more than
      [getMaterialById] scans. The [updated_at] columns and the
      [updatedAt] field of a log entry hold no value here: nothing reads
      them.
    - Requests. The JSON structs carry numbers as strings; here they
      carry the numbers. *)

From Stdlib Require Import ZArith String DecimalString DecimalZ DecimalPos.
From stdpp Require Import gmap strings list fin_maps sorting.

#[local] Open Scope Z_scope.

(** ** Go's [int] (64 bits) *)

Definition int_min : Z := - 2 ^ 63.
Definition int_max : Z := 2 ^ 63 - 1.

Definition in_int (z : Z) : Prop := int_min ≤ z ∧ z ≤ int_max.

#[global] Instance in_int_dec z : Decision (in_int z).
Proof. unfold in_int. apply _. Defined.

(** Two's complement wrap-around of an arithmetic result. *)
Definition wrap (z : Z) : Z := (z - int_min) `mod` 2 ^ 64 + int_min.

Definition int_neg (x : Z) : Z := wrap (- x).
Definition int_sub (x y : Z) : Z := wrap (x - y).

(** [strconv.Itoa] *)
Definition Itoa (z : Z) : string := NilZero.string_of_int (Z.to_int z).

(** ** Errors and results *)

Inductive error : Type :=
| ErrNoRows                                  (* sql.ErrNoRows *)
| ErrTxDone                                  (* sql.ErrTxDone *)
| ErrScan                                    (* Scan cannot convert a column *)
| ErrStore                                   (* the store or the driver failed the call *)
| ErrNew (msg : string)                      (* errors.New(msg) *)
| ErrNewWrap (msg : string) (cause : error). (* errors.New(msg + cause.Error()) *)

(** What a piece of Go code does: it produces a value, it returns an
    error, or it never comes back from a store call ([Blocked]). *)
Inductive result (A : Type) : Type :=
| Ok (a : A)
| Err (e : error)
| Blocked.
Arguments Ok {A} a.
Arguments Err {A} e.
Arguments Blocked {A}.

(** Scan of an integer column into a Go [int]. *)
Definition scan_int (z : Z) : result Z :=
  if decide (in_int z) then Ok z else Err ErrScan.

(** [for rows.Next() { rows.Scan(&id) }] over a variable that starts at
    its zero value: the last row wins. *)
Definition scan_last (ids : list Z) : Z := default 0 (last ids).

(** ORDER BY key ASC, and the opposite order. *)
Definition key_le {A} (a b : Z * A) : Prop := a.1 ≤ b.1.
Definition key_ge {A} (a b : Z * A) : Prop := b.1 ≤ a.1.

#[global] Instance key_le_dec {A} (a b : Z * A) : Decision (key_le a b).
Proof. unfold key_le. apply _. Defined.
#[global] Instance key_ge_dec {A} (a b : Z * A) : Decision (key_ge a b).
Proof. unfold key_ge. apply _. Defined.

(** The rows of a table by ascending key. *)
Definition rows_of {A} (t : gmap Z A) : list (Z * A) :=
  merge_sort key_le (map_to_list t).

Section Engine.

(** Unit costs are [float64] in Go and a column of [prices]. The engine
    stores them, copies them and lets the unique index on
    [(material_id, cost)] compare them; it never computes with them.
    [inhabitant] stands for the zero value of the type. *)
Context {float64 : Type} `{!EqDecision float64, !Inhabited float64}.

(** ** Go structs *)

Record IncomingMaterialDB : Type := {
  im_CustomerID : Z;
  im_StockID : string;
  im_Cost : float64;
  im_Quantity : Z;
  im_MinQty : Z;
  im_MaxQty : Z;
  im_Description : string;
  im_IsActive : bool;
  im_MaterialType : string;
  im_Owner : string;
}.

(** The requests, as the transport layer hands them over once the
    numbers in them are parsed. *)
Record IncomingMaterialJSON : Type := {
  in_CustomerID : Z;
  in_StockID : string;
  in_MaterialType : string;
  in_Qty : Z;
  in_Cost : float64;
  in_MinQty : Z;
  in_MaxQty : Z;
  in_Description : string;
  in_Owner : string;
  in_IsActive : bool;
}.

Record MaterialJSON : Type := {
  MaterialID : Z;
  LocationID : Z;
  Qty : Z;
  Notes : string;
  IsPrimary : bool;
}.

Record MaterialToRemoveJSON : Type := {
  rm_MaterialID : Z;
  rm_Qty : Z;
  rm_JobTicket : string;
}.

Record MaterialDB : Type := {
  m_MaterialID : Z;
  m_StockID : string;
  m_CustomerID : Z;
  m_LocationID : Z;
  m_MaterialType : string;
  m_Description : string;
  m_Notes : string;
  m_Quantity : Z;
  m_IsActive : bool;
  m_MinQty : Z;
  m_MaxQty : Z;
  m_Owner : string;
}.

Record Price : Type := {
  priceId : Z;
  materialId : Z;
  qty : Z;
  cost : float64;
}.

Record PriceToRemove : Type := {
  ptr_materialId : Z;
  ptr_qty : Z;
  ptr_notes : string;
  ptr_jobTicket : string;
}.

Record TransactionInfo : Type := {
  trx_priceId : Z;
  trx_qty : Z;
  trx_notes : string;
  trx_jobTicket : string;
}.

(** ** The tables *)

(** A row of [materials], keyed by [material_id]. [location_id] is NULL
    for a retired record, [is_primary] is NULL until it is set. *)
Record materials_row : Type := {
  stock_id : string;
  location_id : option Z;
  customer_id : Z;
  material_type : string;
  description : string;
  notes : string;
  quantity : Z;
  min_required_quantity : Z;
  max_required_quantity : Z;
  is_active : bool;
  owner : string;
  is_primary : option bool;
}.

(** A row of [prices], keyed by [price_id]. [created_with] is not a
    column: it remembers the quantity of the INSERT that created the row,
    so that statements about a lot's initial quantity can be written. *)
Record prices_row : Type := {
  pr_material_id : Z;
  pr_quantity : Z;
  pr_cost : float64;
  created_with : Z;
}.

Record Store : Type := {
  incoming_materials : gmap Z IncomingMaterialDB;
  materials : gmap Z materials_row;
  prices : gmap Z prices_row;
  transactions_log : list TransactionInfo;
}.

(** The store before anything was submitted. *)
Definition empty_store : Store :=
  {| incoming_materials := ∅; materials := ∅; prices := ∅;
     transactions_log := [] |}.

Definition set_incoming (v : gmap Z IncomingMaterialDB) (s : Store) : Store :=
  {| incoming_materials := v; materials := materials s;
     prices := prices s; transactions_log := transactions_log s |}.
Definition set_materials (v : gmap Z materials_row) (s : Store) : Store :=
  {| incoming_materials := incoming_materials s; materials := v;
     prices := prices s; transactions_log := transactions_log s |}.
Definition set_prices (v : gmap Z prices_row) (s : Store) : Store :=
  {| incoming_materials := incoming_materials s; materials := materials s;
     prices := v; transactions_log := transactions_log s |}.
Definition set_log (v : list TransactionInfo) (s : Store) : Store :=
  {| incoming_materials := incoming_materials s; materials := materials s;
     prices := prices s; transactions_log := v |}.

(** Modelled from the spec: the table declarations are not part of the
    sources; identities are assigned at creation in ascending order
    (sections 3 and 9). The next key of a table is the one above every
    key it holds. *)
Definition next_id {A} (t : gmap Z A) : Z :=
  1 + foldr Z.max 0 (map_to_list t).*1.

(** UPDATE ... SET ... WHERE: every row that satisfies [P] is rewritten
    by [f]; RETURNING lists the keys of those rows. *)
Definition update_where {A} (P : A → Prop) `{!∀ a, Decision (P a)}
    (f : A → A) (t : gmap Z A) : gmap Z A :=
  (λ a, if decide (P a) then f a else a) <$> t.

Definition keys_where {A} (P : A → Prop) `{!∀ a, Decision (P a)}
    (t : gmap Z A) : list Z :=
  (map_to_list (filter (λ kv, P kv.2) t)).*1.

(** ** A connection to the store while one command runs *)

Record Conn : Type := {
  committed : Store;   (* what the store holds for every connection *)
  work : Store;        (* what the open transaction sees *)
  tx_open : bool;      (* false once Commit or Rollback has run *)
  locked : list Z;     (* keys of the materials rows the transaction wrote *)
  calls : nat;         (* store calls made so far *)
}.

Definition set_work (w : Store) (c : Conn) : Conn :=
  {| committed := committed c; work := w; tx_open := tx_open c;
     locked := locked c; calls := calls c |}.
Definition set_calls (n : nat) (c : Conn) : Conn :=
  {| committed := committed c; work := work c; tx_open := tx_open c;
     locked := locked c; calls := n |}.
Definition lock (k : Z) (c : Conn) : Conn :=
  {| committed := committed c; work := work c; tx_open := tx_open c;
     locked := k :: locked c; calls := calls c |}.

Record Env : Type := {
  fails : nat → bool;                             (* the n-th store call fails *)
  range_order : gmap Z Price → list (Z * Price);  (* for k, v := range m *)
  now : string;                                   (* time.Now().Local().String() *)
}.

(** The runtime visits every entry of a map once, in an order of its
    choice. *)
Definition valid_range (env : Env) : Prop :=
  ∀ m, range_order env m ≡ₚ map_to_list m.

(** The store answers every call. *)
Definition no_fault (env : Env) : Prop := ∀ n, fails env n = false.

(** A piece of the engine: from the inputs of the run and the
    connection, what it returns and the connection it leaves. *)
Definition M (A : Type) : Type := Env → Conn → result A * Conn.

#[global] Instance M_ret : MRet M := λ A a _ c, (Ok a, c).
#[global] Instance M_bind : MBind M := λ A B f m env c,
  match m env c with
  | (Ok a, c') => f a env c'
  | (Err e, c') => (Err e, c')
  | (Blocked, c') => (Blocked, c')
  end.

(** [return err] *)
Definition fail {A} (e : error) : M A := λ _ c, (Err e, c).

(** One round trip to the store. *)
Definition call : M () := λ env c,
  let c' := set_calls (S (calls c)) c in
  if fails env (calls c) then (Err ErrStore, c') else (Ok (), c').

(** db.BeginTx *)
Definition BeginTx : M () := λ env c,
  match call env c with
  | (Ok _, c') =>
      (Ok (), {| committed := committed c'; work := committed c';
                 tx_open := true; locked := []; calls := calls c' |})
  | r => r
  end.

(** tx.Rollback: what the transaction wrote is dropped. On a transaction
    that is done it does nothing. *)
Definition Rollback : M () := λ _ c,
  (Ok (), {| committed := committed c; work := committed c;
             tx_open := false; locked := []; calls := calls c |}).

(** tx.Commit: what the transaction wrote becomes the store's content,
    unless the transaction is done or the store fails the call. *)
Definition Commit : M () := λ env c,
  if tx_open c then
    match call env c with
    | (Ok _, c') =>
        (Ok (), {| committed := work c'; work := work c';
                   tx_open := false; locked := []; calls := calls c' |})
    | (r, c') => (r, snd (Rollback env c'))
    end
  else (Err ErrTxDone, c).

(** tx.Query, tx.QueryRow, tx.Exec with a statement that reads ([f]
    returns the store as it is) or writes. *)
Definition tx_stmt {A} (f : Store → result A * Store) : M A := λ env c,
  if tx_open c then
    match call env c with
    | (Ok _, c') => let '(r, w) := f (work c') in (r, set_work w c')
    | (Err e, c') => (Err e, c')
    | (Blocked, c') => (Blocked, c')
    end
  else (Err ErrTxDone, c).

(** [defer d] followed by [body]: when [body] returns, [d] runs and what
    it returns is dropped. *)
Definition with_defer {A B} (d : M B) (body : M A) : M A := λ env c,
  match body env c with
  | (Blocked, c') => (Blocked, c')
  | (r, c') => (r, snd (d env c'))
  end.

(** [if err != nil { tx.Rollback(); return err }] *)
Definition or_rollback {A} (m : M A) : M A := λ env c,
  match m env c with
  | (Err e, c') => (Err e, snd (Rollback env c'))
  | r => r
  end.

(** ** Lots *)

(** WHERE material_id = $1 AND quantity > 0 *)
Definition live_lot (materialId : Z) (kv : Z * prices_row) : Prop :=
  pr_material_id kv.2 = materialId ∧ 0 < pr_quantity kv.2.

#[global] Instance live_lot_dec materialId kv : Decision (live_lot materialId kv).
Proof. unfold live_lot. apply _. Defined.

(** [Price{qty: price.Qty, cost: price.Cost}] *)
Definition lot_entry (row : prices_row) : Price :=
  {| priceId := 0; materialId := 0; qty := pr_quantity row; cost := pr_cost row |}.

(** The integers of a row of [prices] fit the [int] fields of
    [PriceDB]. *)
Definition fits (kv : Z * prices_row) : Prop :=
  in_int kv.1 ∧ in_int (pr_material_id kv.2) ∧ in_int (pr_quantity kv.2).

#[global] Instance fits_dec kv : Decision (fits kv).
Proof. unfold fits. apply _. Defined.

(** The loop of [getMaterialPrices] over the rows of the query. *)
Fixpoint scan_prices (rows : list (Z * prices_row)) (prices : gmap Z Price)
    : result (gmap Z Price) :=
  match rows with
  | [] => Ok prices
  | row :: rows =>
      if decide (fits row)
      then scan_prices rows (<[row.1 := lot_entry row.2]> prices)
      else Err ErrScan
  end.

(** The rows that the query of [getMaterialPrices] returns: the lots of
    the material with a quantity above 0, by ascending [price_id]. *)
Definition live_rows (materialId : Z) (st : Store) : list (Z * prices_row) :=
  merge_sort key_le (map_to_list (filter (live_lot materialId) (prices st))).

(** The rows are put into a [map[int]Price] under their [price_id]. *)
Definition getMaterialPrices (materialId : Z) : M (gmap Z Price) :=
  tx_stmt (λ st, (scan_prices (live_rows materialId st) ∅, st)).

(** SET quantity = (quantity + d) *)
Definition add_quantity (d : Z) (r : prices_row) : prices_row :=
  {| pr_material_id := pr_material_id r; pr_quantity := pr_quantity r + d;
     pr_cost := pr_cost r; created_with := created_with r |}.

(** UPDATE prices ... WHERE price_id = $1 RETURNING cost, read by
    [QueryRow(...).Scan]: no row is an error. *)
Definition updatePriceQty (priceInfo : Price) : M float64 :=
  tx_stmt (λ st,
    match prices st !! priceId priceInfo with
    | Some r =>
        (Ok (pr_cost r),
         set_prices (<[priceId priceInfo := add_quantity (qty priceInfo) r]> (prices st)) st)
    | None => (Err ErrNoRows, st)
    end).

(** The rows that conflict with an INSERT of material [m] at cost [c]. *)
Definition same_lot (m : Z) (c : float64) (kv : Z * prices_row) : Prop :=
  pr_material_id kv.2 = m ∧ pr_cost kv.2 = c.

#[global] Instance same_lot_dec m c kv : Decision (same_lot m c kv).
Proof. unfold same_lot. apply _. Defined.

(** INSERT ... ON CONFLICT (material_id, cost) DO UPDATE ... RETURNING
    price_id: the quantity is added to the row of that material and
    cost when there is one (the unique index allows one at most),
    otherwise a row is created under the next key. *)
Definition upsertPrice (priceInfo : Price) : M Z :=
  tx_stmt (λ st,
    match map_to_list (filter (same_lot (materialId priceInfo) (cost priceInfo)) (prices st)) with
    | (id, r) :: _ =>
        (scan_int id,
         set_prices (<[id := add_quantity (qty priceInfo) r]> (prices st)) st)
    | [] =>
        let id := next_id (prices st) in
        (scan_int id,
         set_prices (<[id := {| pr_material_id := materialId priceInfo;
                                pr_quantity := qty priceInfo;
                                pr_cost := cost priceInfo;
                                created_with := qty priceInfo |}]> (prices st)) st)
    end).

(** INSERT INTO transactions_log *)
Definition addTranscation (trx : TransactionInfo) : M () :=
  tx_stmt (λ st, (Ok (), set_log (transactions_log st ++ [trx]) st)).

(** [for k, v := range m]: the loop gets the entries of the map in the
    order that the runtime picks for this run. *)
Definition range {A} (m : gmap Z Price) (body : list (Z * Price) → M A) : M A :=
  λ env c, body (range_order env m) env c.

(** The loop of [removePricesFIFO]; [entries] are the entries of the map
    still to be visited. *)
Fixpoint fifo_loop (notes jobTicket : string) (entries : list (Z * Price))
    (remainingQty : Z) (removedPrices : list Price) : M (list Price) :=
  match entries with
  | [] => mret removedPrices
  | (priceId, priceInfo) :: entries =>
      if decide (remainingQty ≤ qty priceInfo) then
        let qtyToRemove := remainingQty in
        cost ← updatePriceQty {| priceId := priceId; materialId := 0;
                                 qty := int_neg qtyToRemove; cost := inhabitant |};
        addTranscation {| trx_priceId := priceId; trx_qty := int_neg qtyToRemove;
                          trx_notes := notes; trx_jobTicket := jobTicket |};;
        mret (removedPrices ++
              [{| priceId := 0; materialId := 0; qty := qtyToRemove; cost := cost |}])
      else
        let qtyToRemove := qty priceInfo in
        cost ← updatePriceQty {| priceId := priceId; materialId := 0;
                                 qty := int_neg qtyToRemove; cost := inhabitant |};
        addTranscation {| trx_priceId := priceId; trx_qty := int_neg qtyToRemove;
                          trx_notes := notes; trx_jobTicket := jobTicket |};;
        fifo_loop notes jobTicket entries (int_sub remainingQty qtyToRemove)
          (removedPrices ++
           [{| priceId := 0; materialId := 0; qty := qtyToRemove; cost := cost |}])
  end.

(** [removePricesFIFO]: fetch the live lots of the material, range over
    them, return what was removed. *)
Definition removePricesFIFO (priceToRemove : PriceToRemove) : M (list Price) :=
  materialPrices ← getMaterialPrices (ptr_materialId priceToRemove);
  range materialPrices (λ entries,
    fifo_loop (ptr_notes priceToRemove) (ptr_jobTicket priceToRemove)
      entries (ptr_qty priceToRemove) []).

(** ** Materials *)

(** [time.Now().Local().String()] *)
Definition ask_now : M string := λ env c, (Ok (now env), c).

(** The columns of [materials]. The declaration of the table is not part
    of the sources; these are the columns that the statements of the
    source name: the twelve of the INSERT of [createMaterial] and of
    [moveMaterial], [material_id], and [is_primary], which
    [updateMaterial] sets and [getMaterials] selects. *)
Definition materials_columns : list string :=
  ["material_id"; "stock_id"; "location_id"; "customer_id"; "material_type";
   "description"; "notes"; "quantity"; "updated_at"; "min_required_quantity";
   "max_required_quantity"; "is_active"; "owner"; "is_primary"].

(** [Scan] of a row of [columns] into [destinations] arguments: unless
    there is one argument for each column it returns "sql: expected %d
    destination arguments in Scan, not %d" and scans nothing. *)
Definition scan_columns {A} (columns : list string) (destinations : nat)
    (scanned : result A) : result A :=
  if decide (length columns = destinations) then scanned else Err ErrScan.

(** Scan of the thirteen columns of a row of [materials] that the
    RETURNING clause of [moveMaterial] lists into a [MaterialDB]: a NULL
    [location_id] does not fit [LocationID int]. *)
Definition scan_material (id : Z) (r : materials_row) : result MaterialDB :=
  match location_id r with
  | None => Err ErrScan
  | Some loc =>
      if decide (in_int id ∧ in_int loc ∧ in_int (customer_id r) ∧
                 in_int (quantity r) ∧ in_int (min_required_quantity r) ∧
                 in_int (max_required_quantity r))
      then Ok {| m_MaterialID := id; m_StockID := stock_id r;
                 m_CustomerID := customer_id r; m_LocationID := loc;
                 m_MaterialType := material_type r;
                 m_Description := description r; m_Notes := notes r;
                 m_Quantity := quantity r; m_IsActive := is_active r;
                 m_MinQty := min_required_quantity r;
                 m_MaxQty := max_required_quantity r; m_Owner := owner r |}
      else Err ErrScan
  end.

(** Scan of the keys a statement returns, one row after the other. *)
Definition scan_ids (ids : list Z) : result Z :=
  if decide (Forall in_int ids) then Ok (scan_last ids) else Err ErrScan.

(** SELECT * FROM materials WHERE material_id = $1, read by
    [QueryRow(...).Scan]: no row is [sql.ErrNoRows]; a row comes with
    every column of the table and is scanned into thirteen arguments. *)
Definition getMaterialById (materialId : Z) : M MaterialDB :=
  tx_stmt (λ st,
    match materials st !! materialId with
    | Some r =>
        (scan_columns materials_columns 13 (scan_material materialId r), st)
    | None => (Err ErrNoRows, st)
    end).

(** WHERE stock_id = .. AND location_id = .. AND owner = .. *)
Definition at_location (stockId : string) (locationId : Z) (owner' : string)
    (r : materials_row) : Prop :=
  stock_id r = stockId ∧ location_id r = Some locationId ∧ owner r = owner'.

#[global] Instance at_location_dec s l o r : Decision (at_location s l o r).
Proof. unfold at_location. apply _. Defined.

(** WHERE location_id is NULL AND stock_id = .. AND owner = .. *)
Definition unplaced (stockId : string) (owner' : string) (r : materials_row) : Prop :=
  location_id r = None ∧ stock_id r = stockId ∧ owner r = owner'.

#[global] Instance unplaced_dec s o r : Decision (unplaced s o r).
Proof. unfold unplaced. apply _. Defined.

(** The SET clauses of the UPDATE statements on [materials]. *)
Definition set_row (loc : option Z) (q : Z) (n : string) (r : materials_row)
    : materials_row :=
  {| stock_id := stock_id r; location_id := loc; customer_id := customer_id r;
     material_type := material_type r; description := description r;
     notes := n; quantity := q;
     min_required_quantity := min_required_quantity r;
     max_required_quantity := max_required_quantity r;
     is_active := is_active r; owner := owner r; is_primary := is_primary r |}.

(** SET quantity = (quantity + d), notes = n *)
Definition add_qty_notes (d : Z) (n : string) (r : materials_row) : materials_row :=
  set_row (location_id r) (quantity r + d) n r.

(** SET quantity = (quantity + d) *)
Definition add_qty (d : Z) (r : materials_row) : materials_row :=
  set_row (location_id r) (quantity r + d) (notes r) r.

(** SET quantity = q, notes = n, location_id = loc *)
Definition place (q : Z) (n : string) (loc : Z) (r : materials_row) : materials_row :=
  set_row (Some loc) q n r.

(** SET location_id = NULL, quantity = 0 *)
Definition retire (r : materials_row) : materials_row :=
  set_row None 0 (notes r) r.

(** SET is_primary = b *)
Definition set_primary (b : bool) (r : materials_row) : materials_row :=
  {| stock_id := stock_id r; location_id := location_id r;
     customer_id := customer_id r; material_type := material_type r;
     description := description r; notes := notes r; quantity := quantity r;
     min_required_quantity := min_required_quantity r;
     max_required_quantity := max_required_quantity r;
     is_active := is_active r; owner := owner r; is_primary := Some b |}.

(** DELETE FROM incoming_materials WHERE shipping_id = $1 *)
Definition deleteIncomingMaterial (shippingId : Z) : M () :=
  tx_stmt (λ st, (Ok (), set_incoming (delete shippingId (incoming_materials st)) st)).

(** Scan of the row of [incoming_materials] that [createMaterial] reads;
    [quantity] is not among the columns it selects. *)
Definition scan_incoming (r : IncomingMaterialDB) : result IncomingMaterialDB :=
  if decide (in_int (im_CustomerID r) ∧ in_int (im_MinQty r) ∧ in_int (im_MaxQty r))
  then Ok {| im_CustomerID := im_CustomerID r; im_StockID := im_StockID r;
             im_Cost := im_Cost r; im_Quantity := 0;
             im_MinQty := im_MinQty r; im_MaxQty := im_MaxQty r;
             im_Description := im_Description r; im_IsActive := im_IsActive r;
             im_MaterialType := im_MaterialType r; im_Owner := im_Owner r |}
  else Err ErrScan.

(** The end of [createMaterial]: remove the Material from Incoming and
    add a Transaction. *)
Definition createMaterial_end (material : MaterialJSON) (materialId priceId : Z)
    : M Z :=
  or_rollback (deleteIncomingMaterial (MaterialID material));;
  or_rollback (addTranscation
    {| trx_priceId := priceId; trx_qty := Qty material;
       trx_notes := Notes material; trx_jobTicket := EmptyString |});;
  mret materialId.

(** [createMaterial]: Receive. *)
Definition createMaterial (material : MaterialJSON) : M Z :=
  BeginTx;;
  with_defer Commit (
    incomingMaterial ← or_rollback (tx_stmt (λ st,
      match incoming_materials st !! MaterialID material with
      | Some r => (scan_incoming r, st)
      | None => (Err ErrNoRows, st)
      end));
    (* Update material in the current location if location exists *)
    let here := at_location (im_StockID incomingMaterial) (LocationID material)
                  (im_Owner incomingMaterial) in
    materialId ← or_rollback (tx_stmt (λ st,
      (scan_ids (keys_where here (materials st)),
       set_materials
         (update_where here (add_qty_notes (Qty material) (Notes material))
            (materials st)) st)));
    if decide (materialId ≠ 0) then
      (* Upsert Prices *)
      priceId ← or_rollback (upsertPrice
        {| priceId := 0; materialId := materialId; qty := Qty material;
           cost := im_Cost incomingMaterial |});
      createMaterial_end material materialId priceId
    else
      (* 1. Check for a NULL location *)
      let limbo := unplaced (im_StockID incomingMaterial) (im_Owner incomingMaterial) in
      materialId ← or_rollback (tx_stmt (λ st,
        (scan_ids (keys_where limbo (materials st)), st)));
      materialId ←
        (if decide (materialId ≠ 0) then
           or_rollback (tx_stmt (λ st,
             (Ok (),
              set_materials
                (alter (place (Qty material) (Notes material) (LocationID material))
                   materialId (materials st)) st)));;
           mret materialId
         else
           (* 2. add the material to the new location *)
           or_rollback (tx_stmt (λ st,
             let id := next_id (materials st) in
             (scan_int id,
              set_materials
                (<[id := {| stock_id := im_StockID incomingMaterial;
                            location_id := Some (LocationID material);
                            customer_id := im_CustomerID incomingMaterial;
                            material_type := im_MaterialType incomingMaterial;
                            description := im_Description incomingMaterial;
                            notes := Notes material;
                            quantity := Qty material;
                            min_required_quantity := im_MinQty incomingMaterial;
                            max_required_quantity := im_MaxQty incomingMaterial;
                            is_active := im_IsActive incomingMaterial;
                            owner := im_Owner incomingMaterial;
                            is_primary := None |}]> (materials st)) st))));
      (* Upsert Prices *)
      priceId ← or_rollback (upsertPrice
        {| priceId := 0; materialId := materialId; qty := Qty material;
           cost := im_Cost incomingMaterial |});
      createMaterial_end material materialId priceId).

(** The UPDATE of [moveMaterial] on the source row; the transaction
    holds the row from then on. *)
Definition update_source (quantity' : Z) (currNotes : string)
    (currMaterialId currentLocationId : Z) : M MaterialDB := λ env c,
  let '(r, c') := tx_stmt (λ st,
    match materials st !! currMaterialId with
    | Some r =>
        if decide (location_id r = Some currentLocationId) then
          let r' := add_qty_notes (- quantity') currNotes r in
          (scan_material currMaterialId r',
           set_materials (<[currMaterialId := r']> (materials st)) st)
        else (Err ErrNoRows, st)
    | None => (Err ErrNoRows, st)
    end) env c in
  (r, lock currMaterialId c').

(** Modelled from the spec: the store itself is not part of the
    sources; it isolates transactions at read-committed with row-level
    locks and blocks on lock contention (section 5). A statement sent on
    [db] while the transaction is open runs on another connection of the
    pool: it reads and writes what is committed, what it writes is
    committed at once and is seen by the transaction, and it waits for
    the transaction to end when it has to write a row that the
    transaction wrote. *)
Definition db_write (ids : list Z) (f : gmap Z materials_row → gmap Z materials_row)
    (r : result Z) : M Z := λ env c,
  match call env c with
  | (Ok _, c') =>
      if decide (Exists (λ k, k ∈ locked c') ids) then (Blocked, c')
      else
        (r, {| committed := set_materials (f (materials (committed c'))) (committed c');
               work := set_materials (f (materials (work c'))) (work c');
               tx_open := tx_open c'; locked := locked c'; calls := calls c' |})
  | (Err e, c') => (Err e, c')
  | (Blocked, c') => (Blocked, c')
  end.

(** The rows of [materials] as [db] sees them. *)
Definition committed_materials : M (gmap Z materials_row) :=
  λ _ c, (Ok (materials (committed c)), c).

(** The UPDATE of [moveMaterial] on the destination, sent on [db]. *)
Definition update_destination (quantity' : Z) (stockId : string)
    (newLocationId : Z) (owner' : string) : M Z :=
  t ← committed_materials;
  let ids := keys_where (at_location stockId newLocationId owner') t in
  db_write ids (λ t, foldr (alter (add_qty quantity')) t ids) (scan_ids ids).

(** The INSERT of [moveMaterial] for the destination, sent on [db]. *)
Definition insert_destination (row : materials_row) : M Z :=
  t ← committed_materials;
  let id := next_id t in
  db_write [] (λ t, <[id := row]> t) (scan_int id).

(** The closure that [moveMaterial] defers when the whole quantity
    leaves the source. *)
Definition deferred_retire (currMaterialId : Z) : M () :=
  or_rollback (tx_stmt (λ st,
    (Ok (), set_materials (alter retire currMaterialId (materials st)) st))).

(** 2.2 of [moveMaterial]: the loop over [removedPrices]. *)
Fixpoint move_prices (newMaterialId : Z) (removedPrices : list Price) : M () :=
  match removedPrices with
  | [] => mret ()
  | removed :: removedPrices =>
      priceId ← or_rollback (upsertPrice
        {| priceId := 0; materialId := newMaterialId; qty := qty removed;
           cost := cost removed |});
      t ← ask_now;
      or_rollback (addTranscation
        {| trx_priceId := priceId; trx_qty := qty removed;
           trx_notes := "Moved FROM a Location";
           trx_jobTicket := "Auto-Ticket: " +:+ t |});;
      move_prices newMaterialId removedPrices
  end.

(** What [moveMaterial] does once the source row is dealt with: 1.1 to
    2.2. The identifiers, the notes and the owner are the copies taken
    when the source was first read; [currMaterial] is the struct as the
    UPDATE of the source may have rewritten it. *)
Definition moveMaterial_prices (newLocationId quantity' currMaterialId : Z)
    (stockId owner' currNotes : string) (currMaterial : MaterialDB) : M () :=
  (* 1.1. Update Prices for the current Location *)
  t ← ask_now;
  removedPrices ← or_rollback (removePricesFIFO
    {| ptr_materialId := currMaterialId; ptr_qty := quantity';
       ptr_notes := "Moved TO a Location";
       ptr_jobTicket := "Auto-Ticket: " +:+ t |});
  (* 2. Update a Material in the new Location *)
  newMaterialId ← update_destination quantity' stockId newLocationId owner';
  (* If there is no a Material in the new Location, then create it *)
  newMaterialId ←
    (if decide (newMaterialId = 0) then
       insert_destination
         {| stock_id := stockId; location_id := Some newLocationId;
            customer_id := m_CustomerID currMaterial;
            material_type := m_MaterialType currMaterial;
            description := m_Description currMaterial;
            notes := currNotes; quantity := quantity';
            min_required_quantity := m_MinQty currMaterial;
            max_required_quantity := m_MaxQty currMaterial;
            is_active := m_IsActive currMaterial;
            owner := m_Owner currMaterial; is_primary := None |}
     else mret newMaterialId);
  (* 2.2. Update Prices for the new Location and Material ID *)
  move_prices newMaterialId removedPrices.

(** [moveMaterial]: Move. The retire of the source is deferred, after
    the deferred Commit: it runs first when the function returns. *)
Definition moveMaterial (material : MaterialJSON) : M () :=
  BeginTx;;
  with_defer Commit (
    currMaterial ← getMaterialById (MaterialID material);
    let newLocationId := LocationID material in
    let quantity' := Qty material in
    let actualQuantity := m_Quantity currMaterial in
    let currMaterialId := m_MaterialID currMaterial in
    let currentLocationId := m_LocationID currMaterial in
    let stockId := m_StockID currMaterial in
    let owner' := m_Owner currMaterial in
    let currNotes := m_Notes currMaterial in
    (* 1. Update the Material in the current Location *)
    if decide (actualQuantity < quantity') then
      fail (ErrNew ("The moving quantity (" +:+ Itoa quantity' +:+
                    ") is more than the actual one (" +:+
                    Itoa actualQuantity +:+ ")"))
    else if decide (actualQuantity > quantity') then
      currMaterial ← or_rollback
        (update_source quantity' currNotes currMaterialId currentLocationId);
      moveMaterial_prices newLocationId quantity' currMaterialId
        stockId owner' currNotes currMaterial
    else if decide (actualQuantity = quantity') then
      with_defer (deferred_retire currMaterialId)
        (moveMaterial_prices newLocationId quantity' currMaterialId
           stockId owner' currNotes currMaterial)
    else
      moveMaterial_prices newLocationId quantity' currMaterialId
        stockId owner' currNotes currMaterial).

(** [tx.Rollback(); return errors.New(msg + err.Error())] *)
Definition or_rollback_wrap {A} (msg : string) (m : M A) : M A := λ env c,
  match m env c with
  | (Err e, c') => (Err (ErrNewWrap msg e), snd (Rollback env c'))
  | r => r
  end.

(** [removeMaterial]: Remove. *)
Definition removeMaterial (material : MaterialToRemoveJSON) : M () :=
  BeginTx;;
  with_defer Commit (
    let materialId := rm_MaterialID material in
    currMaterial ← or_rollback_wrap "Unable to get the current material info: "
                     (getMaterialById materialId);
    let quantity' := rm_Qty material in
    let actualQuantity := m_Quantity currMaterial in
    let jobTicket := rm_JobTicket material in
    if decide (actualQuantity < quantity') then
      fail (ErrNew ("The removing quantity (" +:+ Itoa quantity' +:+
                    ") is more than the actual one (" +:+
                    Itoa actualQuantity +:+ ")"))
    else
      (if decide (actualQuantity = quantity') then
         or_rollback (tx_stmt (λ st,
           (Ok (), set_materials (alter retire materialId (materials st)) st)))
       else
         (* Update the material quantity *)
         or_rollback (tx_stmt (λ st,
           (Ok (), set_materials (alter (add_qty (- quantity')) materialId
                                    (materials st)) st))));;
      or_rollback (removePricesFIFO
        {| ptr_materialId := materialId; ptr_qty := quantity';
           ptr_notes := "Removed FROM a Location"; ptr_jobTicket := jobTicket |});;
      mret ()).

(** [updateMaterial] sends its UPDATE on [db]; no transaction is open. *)
Definition updateMaterial (material : MaterialJSON) : M () := λ env c,
  match call env c with
  | (Ok _, c') =>
      let s := set_materials
                 (alter (set_primary (IsPrimary material)) (MaterialID material)
                    (materials (committed c'))) (committed c') in
      (Ok (), {| committed := s; work := s; tx_open := tx_open c';
                 locked := locked c'; calls := calls c' |})
  | (Err e, c') => (Err e, c')
  | (Blocked, c') => (Blocked, c')
  end.

(** [sendMaterial] puts a shipment into [incoming_materials], on [db]. *)
Definition sendMaterial (material : IncomingMaterialJSON) : M () := λ env c,
  match call env c with
  | (Ok _, c') =>
      let t := incoming_materials (committed c') in
      let s := set_incoming
                 (<[next_id t :=
                      {| im_CustomerID := in_CustomerID material;
                         im_StockID := in_StockID material;
                         im_Cost := in_Cost material;
                         im_Quantity := in_Qty material;
                         im_MinQty := in_MinQty material;
                         im_MaxQty := in_MaxQty material;
                         im_Description := in_Description material;
                         im_IsActive := in_IsActive material;
                         im_MaterialType := in_MaterialType material;
                         im_Owner := in_Owner material |}]> t) (committed c') in
      (Ok (), {| committed := s; work := s; tx_open := tx_open c';
                 locked := locked c'; calls := calls c' |})
  | (Err e, c') => (Err e, c')
  | (Blocked, c') => (Blocked, c')
  end.

(** ** Commands *)

(** The connection of a call that starts on store [s]. *)
Definition start (s : Store) : Conn :=
  {| committed := s; work := s; tx_open := false; locked := []; calls := 0 |}.

(** One call of the engine on a store: what the caller gets back and
    what the store holds afterwards. *)
Definition run {A} (m : M A) (env : Env) (s : Store) : result A * Store :=
  let '(r, c) := m env (start s) in
  (r, committed c).

Inductive command : Type :=
| Receive (material : MaterialJSON)
| Move (material : MaterialJSON)
| Remove (material : MaterialToRemoveJSON)
| Adjust (material : MaterialJSON).

(** A command, run on a store. *)
Definition exec (cmd : command) (env : Env) (s : Store) : result () * Store :=
  match cmd with
  | Receive material =>
      match run (createMaterial material) env s with
      | (Ok _, s') => (Ok (), s')
      | (Err e, s') => (Err e, s')
      | (Blocked, s') => (Blocked, s')
      end
  | Move material => run (moveMaterial material) env s
  | Remove material => run (removeMaterial material) env s
  | Adjust material => run (updateMaterial material) env s
  end.

(** The stores the engine can be in: it starts empty, shipments are
    submitted, and commands run one after the other, each with the
    faults, the map orders and the clock of its own run. *)
Inductive reachable : Store → Prop :=
| reachable_empty : reachable empty_store
| reachable_intake s material env r s' :
    reachable s →
    run (sendMaterial material) env s = (r, s') →
    reachable s'
| reachable_exec s cmd env r s' :
    reachable s → valid_range env →
    exec cmd env s = (r, s') →
    reachable s'.

(** ** What the claims speak about *)

(** The quantity of the live lots of a material. *)
Definition live_total (materialId : Z) (st : Store) : Z :=
  foldr Z.add 0
    ((λ kv, pr_quantity kv.2) <$> map_to_list (filter (live_lot materialId) (prices st))).

(** The deltas logged for a lot. *)
Definition ledger_sum (priceId : Z) (log : list TransactionInfo) : Z :=
  foldr Z.add 0
    (trx_qty <$> filter (λ t, trx_priceId t = priceId) log).

(** No lot holds a negative quantity. *)
Definition lots_nonneg (st : Store) : Prop :=
  map_Forall (λ _ row, 0 ≤ pr_quantity row) (prices st).

(** Every integer of [prices] fits the Go [int] it is scanned into. *)
Definition prices_fit (st : Store) : Prop :=
  map_Forall (λ id row, fits (id, row)) (prices st).

#[global] Instance prices_fit_dec st : Decision (prices_fit st).
Proof. unfold prices_fit. apply _. Defined.

(** The quantity of every material is the quantity of its live lots. *)
Definition quantities_match (st : Store) : Prop :=
  map_Forall (λ id row, quantity row = live_total id st) (materials st).

#[global] Instance quantities_match_dec st : Decision (quantities_match st).
Proof. unfold quantities_match. apply _. Defined.

(** A record is retired: it has no location and holds nothing. *)
Definition retired (id : Z) (st : Store) : Prop :=
  ∃ row, materials st !! id = Some row ∧ location_id row = None ∧ quantity row = 0.

(** The stock of one stock identity and owner, over all its records. *)
Definition stock_total (stockId owner' : string) (st : Store) : Z :=
  foldr Z.add 0
    ((λ kv, quantity kv.2) <$>
     map_to_list (filter (λ kv, stock_id kv.2 = stockId ∧ owner kv.2 = owner')
                    (materials st))).

(** The log reconciles with the lots: a lot holds the sum of the deltas
    logged for it, and nothing is logged for a lot that does not exist. *)
Definition reconciled (st : Store) : Prop :=
  (∀ id row, prices st !! id = Some row →
     pr_quantity row = ledger_sum id (transactions_log st)) ∧
  (∀ t, t ∈ transactions_log st → is_Some (prices st !! trx_priceId t)).

(** What FIFO consumption may do to a lot: nothing, or take from a live
    lot an amount that leaves it at zero or above. *)
Definition lot_kept_or_taken (row row' : prices_row) : Prop :=
  row' = row ∨
  (0 < pr_quantity row ∧ 0 ≤ pr_quantity row' ∧
   pr_material_id row' = pr_material_id row ∧ pr_cost row' = pr_cost row).

(** Every lot of [st] is still there in [st'], kept or taken from. *)
Definition lots_kept_or_taken (st st' : Store) : Prop :=
  ∀ id row, prices st !! id = Some row →
    ∃ row', prices st' !! id = Some row' ∧ lot_kept_or_taken row row'.

(** ** Reasoning about a run *)

(** [wp env m Φ c]: what [m] returns from [c], and the connection it
    leaves, satisfy [Φ]. *)
Definition wp {A} (env : Env) (m : M A) (Φ : result A → Conn → Prop)
    (c : Conn) : Prop :=
  Φ (m env c).1 (m env c).2.

(** The entries still to be visited are rows that the loop has not
    written yet. *)
Definition untouched (entries : list (Z * Price)) (st0 st : Store) : Prop :=
  ∀ id p, (id, p) ∈ entries →
    ∃ row, prices st0 !! id = Some row ∧ prices st !! id = Some row ∧
           qty p = pr_quantity row ∧ 0 < qty p ∧ in_int (qty p).

(** The entry that the FIFO loop logs for a lot it empties. *)
Definition ledger_entry (notes jobTicket : string) (e : Z * Price) : TransactionInfo :=
  {| trx_priceId := e.1; trx_qty := - qty e.2;
     trx_notes := notes; trx_jobTicket := jobTicket |}.

(** FIFO consumption in the words of the specification, over the lots
    in the order in which they are walked: from each lot remove
    [min(remainingToRemove, lot.quantity)] and record the removed
    (quantity, cost) pair; stop once [remainingToRemove] reaches 0. *)
Fixpoint consume_by_spec (lots : list (Z * Price)) (remainingToRemove : Z)
    : list (Z * Price) :=
  match lots with
  | [] => []
  | (id, lot) :: lots =>
      let removed := Z.min remainingToRemove (qty lot) in
      (id, {| priceId := 0; materialId := 0; qty := removed; cost := cost lot |}) ::
      (if decide (remainingToRemove - removed = 0) then []
       else consume_by_spec lots (remainingToRemove - removed))
  end.

(** The quantity held by the entries of a map of lots. *)
Definition entries_total (entries : list (Z * Price)) : Z :=
  foldr Z.add 0 ((λ e, qty e.2) <$> entries).

(** A condition on what a run returns that only speaks of success. *)
Definition on_ok {A} (Q : A → Conn → Prop) : result A → Conn → Prop :=
  λ r c, match r with Ok a => Q a c | _ => True end.

(** The lots and the log of two stores are the same. *)
Definition same_ledger (st st' : Store) : Prop :=
  prices st' = prices st ∧ transactions_log st' = transactions_log st.

(** The store is reconciled but for lot [id], which holds [q] more than
    what is logged for it. *)
Definition owes (id q : Z) (st : Store) : Prop :=
  (∀ id' row, prices st !! id' = Some row →
     pr_quantity row =
       ledger_sum id' (transactions_log st) + (if decide (id' = id) then q else 0)) ∧
  is_Some (prices st !! id) ∧
  (∀ t, t ∈ transactions_log st → is_Some (prices st !! trx_priceId t)).

(** From a transaction whose view satisfies [P], [m] leaves what is
    committed alone and, when it succeeds with [a], a view that
    satisfies [Q a]. *)
Definition spec {A} (P : Store → Prop) (m : M A) (Q : A → Store → Prop) : Prop :=
  ∀ env (c : Conn), P (work c) →
    wp env m (λ r c', committed c' = committed c ∧
                      match r with Ok a => Q a (work c') | _ => True end) c.

(** From a connection whose committed store is reconciled and whose
    transaction view satisfies [P]: the committed store stays
    reconciled; the view satisfies [Q a] when [m] succeeds with [a] and
    is reconciled when [m] returns an error. *)
Definition step {A} (P : Store → Prop) (m : M A) (Q : A → Store → Prop) : Prop :=
  ∀ env (c : Conn), reconciled (committed c) → P (work c) →
    wp env m (λ r c', reconciled (committed c') ∧
                      match r with
                      | Ok a => Q a (work c')
                      | Err _ => reconciled (work c')
                      | Blocked => True
                      end) c.

(** [m] writes neither lots nor log entries. *)
Definition frame {A} (m : M A) : Prop :=
  ∀ env (c : Conn),
    same_ledger (work c) (work (m env c).2) ∧
    same_ledger (committed c) (committed (m env c).2).

(** Two orders in which the runtime may range over the lots: by
    ascending and by descending key. *)
Definition oldest_first (m : gmap Z Price) : list (Z * Price) :=
  merge_sort key_le (map_to_list m).
Definition newest_first (m : gmap Z Price) : list (Z * Price) :=
  merge_sort key_ge (map_to_list m).

(** ** What a run may do to a store *)

(** The columns of a record of [materials] that no statement of the
    engine sets: the SET clauses name [quantity], [notes], [location_id]
    and [is_primary] only. *)
Definition same_record (r r' : materials_row) : Prop :=
  stock_id r' = stock_id r ∧ customer_id r' = customer_id r ∧
  material_type r' = material_type r ∧ description r' = description r ∧
  min_required_quantity r' = min_required_quantity r ∧
  max_required_quantity r' = max_required_quantity r ∧
  is_active r' = is_active r ∧ owner r' = owner r.

(** Every record of [t] is still in [t'], under its key and with the
    same columns but for those that the engine sets. *)
Definition records_kept (t t' : gmap Z materials_row) : Prop :=
  ∀ id r, t !! id = Some r → ∃ r', t' !! id = Some r' ∧ same_record r r'.

(** Every lot of [st] is still in [st'], under its key, for the same
    material and at the same cost. *)
Definition lots_kept (st st' : Store) : Prop :=
  ∀ id row, prices st !! id = Some row →
    ∃ row', prices st' !! id = Some row' ∧
            pr_material_id row' = pr_material_id row ∧ pr_cost row' = pr_cost row.

(** [st'] continues [st]: the log of [st] starts the log of [st'], and
    the lots and the records of [st] are kept. *)
Definition continues (st st' : Store) : Prop :=
  transactions_log st `prefix_of` transactions_log st' ∧
  lots_kept st st' ∧
  records_kept (materials st) (materials st').

(** No two lots are for the same material at the same cost. *)
Definition lots_unique (st : Store) : Prop :=
  ∀ i j ri rj, prices st !! i = Some ri → prices st !! j = Some rj →
    pr_material_id ri = pr_material_id rj → pr_cost ri = pr_cost rj → i = j.

(** What one statement of the engine does to the store it runs on: it
    reads, it adds to the quantity of a lot, it creates a lot for a
    material and a cost that have none, it appends to the log, it
    rewrites [materials] keeping its records, or it rewrites
    [incoming_materials]. *)
Inductive write : Store → Store → Prop :=
| write_nothing st : write st st
| write_lot_quantity st id row d :
    prices st !! id = Some row →
    write st (set_prices (<[id := add_quantity d row]> (prices st)) st)
| write_lot_new st id row :
    prices st !! id = None →
    (∀ j r, prices st !! j = Some r →
       ¬ same_lot (pr_material_id row) (pr_cost row) (j, r)) →
    write st (set_prices (<[id := row]> (prices st)) st)
| write_log st t : write st (set_log (transactions_log st ++ [t]) st)
| write_materials st t' :
    records_kept (materials st) t' → write st (set_materials t' st)
| write_incoming st t' : write st (set_incoming t' st).

(** A relation [K] between what is committed and what the open
    transaction sees that every step of a run keeps: the begin and the
    rollback of a transaction, its commit, a statement on the
    transaction, and the two statements that [moveMaterial] sends on
    [db] while its transaction is open. *)
Record closed (K : Store → Store → Prop) : Prop := {
  closed_sync a b : K a b → K a a;
  closed_commit a b : K a b → K b b;
  closed_write a b b' : K a b → write b b' → K a b';
  closed_db_alter a b g ids :
    K a b → (∀ r, same_record r (g r)) →
    K (set_materials (foldr (alter g) (materials a) ids) a)
      (set_materials (foldr (alter g) (materials b) ids) b);
  closed_db_insert a b id row :
    K a b → materials a !! id = None →
    K (set_materials (<[id := row]> (materials a)) a)
      (set_materials (<[id := row]> (materials b)) b);
}.

(** [K] holds of a connection. *)
Definition holds (K : Store → Store → Prop) (c : Conn) : Prop :=
  K (committed c) (work c).

(** [m] leaves a connection of which [J] holds in one of which [J]
    holds, whatever it returns. *)
Definition preserves (J : Conn → Prop) {A} (m : M A) : Prop :=
  ∀ env c, J c → J (m env c).2.

(** [s'] is reached from [s] by submissions and commands, each with the
    faults, the map orders and the clock of its own run. *)
Inductive follows : Store → Store → Prop :=
| follows_refl s : follows s s
| follows_intake s s1 material env r s' :
    follows s s1 →
    run (sendMaterial material) env s1 = (r, s') →
    follows s s'
| follows_exec s s1 cmd env r s' :
    follows s s1 →
    exec cmd env s1 = (r, s') →
    follows s s'.

(** [m] writes on the transaction only and comes back: it leaves what is
    committed and the row locks alone, and it does not block. *)
Definition tx_only {A} (m : M A) : Prop :=
  ∀ env (c : Conn),
    wp env m (λ r c',
      committed c' = committed c ∧ locked c' = locked c ∧ r ≠ Blocked) c.

(** [m] fails clean: it leaves what is committed alone, it comes back,
    and when it returns an error the transaction is rolled back. *)
Definition fails_clean {A} (m : M A) : Prop :=
  ∀ env (c : Conn),
    wp env m (λ r c',
      committed c' = committed c ∧
      match r with
      | Ok _ => True
      | Err _ => tx_open c' = false
      | Blocked => False
      end) c.

(** The sum of [f] over the rows of a table that satisfy [P]. The
    quantity of the live lots of a material and the stock of a stock
    identity and owner are such sums. *)
Definition sum_where {A} (P : Z * A → Prop) `{!∀ kv, Decision (P kv)}
    (f : A → Z) (t : gmap Z A) : Z :=
  foldr Z.add 0 ((λ kv, f kv.2) <$> map_to_list (filter P t)).

(** From a transaction whose view satisfies [P], [m] leaves the
    transaction as open as it was and a view that satisfies [Q a] when
    it succeeds with [a]. *)
Definition does {A} (P : Store → Prop) (m : M A) (Q : A → Store → Prop) : Prop :=
  ∀ env (c : Conn), P (work c) →
    wp env m (λ r c',
      match r with
      | Ok a => tx_open c' = tx_open c ∧ Q a (work c')
      | _ => True
      end) c.

(** The view of a Receive on [s] once its record stands: the intakes
    are those of [s], and the record [id] is at the location, with the
    stock id and the owner. *)
Definition placed (s : Store) (stockId : string) (locationId : Z) (owner' : string)
    (id : Z) (st : Store) : Prop :=
  incoming_materials st = incoming_materials s ∧
  ∃ r, materials st !! id = Some r ∧ at_location stockId locationId owner' r.

(** What a successful Receive of intake [im] leaves: the intake is gone
    and no other, the record [id] stands at the location of the request
    with the stock id and the owner of the intake, it has a lot at the
    cost of the intake, and the last entry of the log is for that lot,
    with the quantity and the notes of the request. *)
Definition received (s : Store) (material : MaterialJSON) (im : IncomingMaterialDB)
    (id : Z) (s' : Store) : Prop :=
  incoming_materials s !! MaterialID material = Some im ∧
  incoming_materials s' = delete (MaterialID material) (incoming_materials s) ∧
  (∃ r, materials s' !! id = Some r ∧
        at_location (im_StockID im) (LocationID material) (im_Owner im) r) ∧
  (∃ lot row, prices s' !! lot = Some row ∧
        pr_material_id row = id ∧ pr_cost row = im_Cost im ∧
        last (transactions_log s') =
          Some {| trx_priceId := lot; trx_qty := Qty material;
                  trx_notes := Notes material; trx_jobTicket := EmptyString |}).

(** ** Listings *)

(** The tables that the listings join and that the engine never writes:
    [customers] (name by [customer_id]), [locations] (name and
    [warehouse_id] by [location_id]) and [warehouses] (name by
    [warehouse_id]). *)
Record Directory : Type := {
  customers : gmap Z string;
  locations : gmap Z (string * option Z);
  warehouses : gmap Z string;
}.

(** What the store does with text in the query of [getMaterials]:
    [ILIKE text pattern] is [text ILIKE '%' || pattern || '%'], and
    [sorts_before s1 s2] says that ORDER BY ... ASC may put [s1] before
    [s2]. Both depend on the locale of the store. *)
Record TextOps : Type := {
  ILIKE : string → string → bool;
  sorts_before : string → string → bool;
}.

(** An [IncomingMaterialDB] as [getIncomingMaterials] fills it: the two
    fields that [createMaterial] does not read, and the others. *)
Record IncomingMaterialListed : Type := {
  ShippingID : string;
  CustomerName : string;
  shipment_data : IncomingMaterialDB;
}.

Record MaterialFilter : Type := {
  f_stockId : string;
  f_customerName : string;
  f_description : string;
  f_locationName : string;
}.

(** A [MaterialDB] as [getMaterials] fills it. *)
Record MaterialListed : Type := {
  lm_MaterialID : Z;
  lm_WarehouseName : string;
  lm_CustomerName : string;
  lm_CustomerID : Z;
  lm_LocationID : Z;
  lm_LocationName : string;
  lm_StockID : string;
  lm_Quantity : Z;
  lm_MinQty : Z;
  lm_MaxQty : Z;
  lm_Description : string;
  lm_Notes : string;
  lm_IsActive : bool;
  lm_MaterialType : string;
  lm_Owner : string;
  lm_IsPrimary : bool;
}.

(** [for rows.Next() { rows.Scan(...); append }]: the first row that
    does not scan ends the listing with
    [fmt.Errorf("Error scanning row: %w", err)]. *)
Fixpoint scan_rows {A B} (scan : A → result B) (rows : list A) (listed : list B)
    : result (list B) :=
  match rows with
  | [] => Ok listed
  | row :: rows =>
      match scan row with
      | Ok b => scan_rows scan rows (listed ++ [b])
      | Err e => Err (ErrNewWrap "Error scanning row: " e)
      | Blocked => Blocked
      end
  end.

(** [db.Query] of a SELECT, then the loop over its rows. Both listings
    wrap the error of the query in the same message. *)
Definition db_query {A B} (select : Store → list A) (scan : A → result B)
    : M (list B) := λ env c,
  match call env c with
  | (Ok _, c') => (scan_rows scan (select (committed c')) [], c')
  | (Err e, c') => (Err (ErrNewWrap "Error querying incoming materials: " e), c')
  | (Blocked, c') => (Blocked, c')
  end.

(** Scan of a row of [incoming_materials] LEFT JOIN [customers]: the
    name and the id of the customer are NULL, and do not scan, when the
    customer is not in [customers]; [shipping_id] is scanned into a
    string. *)
Definition scan_incoming_listed (dir : Directory) (kv : Z * IncomingMaterialDB)
    : result IncomingMaterialListed :=
  match customers dir !! im_CustomerID kv.2 with
  | None => Err ErrScan
  | Some name =>
      if decide (in_int (im_CustomerID kv.2) ∧ in_int (im_Quantity kv.2) ∧
                 in_int (im_MinQty kv.2) ∧ in_int (im_MaxQty kv.2))
      then Ok {| ShippingID := Itoa kv.1; CustomerName := name;
                 shipment_data := kv.2 |}
      else Err ErrScan
  end.

(** [getIncomingMaterials]; the query has no ORDER BY, the rows are
    taken by ascending [shipping_id]. *)
Definition getIncomingMaterials (dir : Directory) : M (list IncomingMaterialListed) :=
  db_query (λ st, rows_of (incoming_materials st)) (scan_incoming_listed dir).

(** [$n = '' OR column ILIKE '%' || $n || '%']; a NULL column passes
    the empty filter only. *)
Definition passes (ops : TextOps) (pattern : string) (column : option string) : bool :=
  if decide (pattern = EmptyString) then true
  else match column with
       | Some text => ILIKE ops text pattern
       | None => false
       end.

(** The row of [locations] joined to a record. *)
Definition location_of (dir : Directory) (r : materials_row)
    : option (Z * (string * option Z)) :=
  match location_id r with
  | Some l => (λ x, (l, x)) <$> locations dir !! l
  | None => None
  end.

(** The WHERE clause of [getMaterials]. *)
Definition selected (ops : TextOps) (dir : Directory) (opts : MaterialFilter)
    (kv : Z * materials_row) : Prop :=
  is_Some (location_id kv.2) ∧
  passes ops (f_stockId opts) (Some (stock_id kv.2)) = true ∧
  passes ops (f_customerName opts) (customers dir !! customer_id kv.2) = true ∧
  passes ops (f_description opts) (Some (description kv.2)) = true ∧
  passes ops (f_locationName opts) ((λ l, l.2.1) <$> location_of dir kv.2) = true.

#[global] Instance selected_dec ops dir opts kv : Decision (selected ops dir opts kv).
Proof. unfold selected. apply _. Defined.

(** ORDER BY m.stock_id ASC *)
Definition by_stock_id (ops : TextOps) (a b : Z * materials_row) : Prop :=
  sorts_before ops (stock_id a.2) (stock_id b.2) = true.

#[global] Instance by_stock_id_dec ops a b : Decision (by_stock_id ops a b).
Proof. unfold by_stock_id. apply _. Defined.

(** Scan of a row of the query of [getMaterials]: the columns of the
    customer are not under a COALESCE and do not scan when the customer
    is not in [customers]; those of the location and of the warehouse
    are. *)
Definition scan_material_listed (dir : Directory) (kv : Z * materials_row)
    : result MaterialListed :=
  match customers dir !! customer_id kv.2 with
  | None => Err ErrScan
  | Some name =>
      let l := location_of dir kv.2 in
      let locationId := default 0 (fst <$> l) in
      if decide (in_int kv.1 ∧ in_int (customer_id kv.2) ∧ in_int locationId ∧
                 in_int (quantity kv.2) ∧ in_int (min_required_quantity kv.2) ∧
                 in_int (max_required_quantity kv.2))
      then Ok {| lm_MaterialID := kv.1;
                 lm_WarehouseName :=
                   default "None" (w ← (l ≫= λ x, x.2.2); warehouses dir !! w);
                 lm_CustomerName := name;
                 lm_CustomerID := customer_id kv.2;
                 lm_LocationID := locationId;
                 lm_LocationName := default "None" ((λ x, x.2.1) <$> l);
                 lm_StockID := stock_id kv.2;
                 lm_Quantity := quantity kv.2;
                 lm_MinQty := min_required_quantity kv.2;
                 lm_MaxQty := max_required_quantity kv.2;
                 lm_Description := description kv.2;
                 lm_Notes := notes kv.2;
                 lm_IsActive := is_active kv.2;
                 lm_MaterialType := material_type kv.2;
                 lm_Owner := owner kv.2;
                 lm_IsPrimary := default false (is_primary kv.2) |}
      else Err ErrScan
  end.

(** [getMaterials] *)
Definition getMaterials (ops : TextOps) (dir : Directory) (opts : MaterialFilter)
    : M (list MaterialListed) :=
  db_query
    (λ st, merge_sort (by_stock_id ops)
             (map_to_list (filter (selected ops dir opts) (materials st))))
    (scan_material_listed dir).

(** The filter that selects every record that has a location. *)
Definition no_filter : MaterialFilter :=
  {| f_stockId := EmptyString; f_customerName := EmptyString;
     f_description := EmptyString; f_locationName := EmptyString |}.

(** [m] leaves what is committed alone. *)
Definition keeps_committed {A} (m : M A) : Prop :=
  ∀ env (c : Conn), committed (m env c).2 = committed c.

(** [m] consults the store on the calls that it counts and on no
    other: the count of calls does not go down, and a run that ranges
    over maps and reads the clock in the same way, and in which the
    store fails the same calls among those that [m] makes, goes the
    same way. *)
Definition local {A} (m : M A) : Prop :=
  ∀ env env' (c : Conn),
    (∀ t, range_order env' t = range_order env t) → now env' = now env →
    (calls c ≤ calls (m env c).2)%nat ∧
    ((∀ n, (calls c ≤ n < calls (m env c).2)%nat → fails env' n = fails env n) →
     m env' c = m env c).

(** The run of [env] but for the store failing the call number [k]. *)
Definition failing_at (k : nat) (env : Env) : Env :=
  {| fails := λ n, if decide (n = k) then true else fails env n;
     range_order := range_order env; now := now env |}.

(** ** The stores of commands that ask for no negative quantity *)

(** The quantity that a command asks for is not negative. *)
Definition asks_nonneg (cmd : command) : Prop :=
  match cmd with
  | Receive material => 0 ≤ Qty material
  | Move material => 0 ≤ Qty material
  | Remove material => 0 ≤ rm_Qty material
  | Adjust _ => True
  end.

(** The stores the engine can be in when no command asks for a negative
    quantity. *)
Inductive stocked : Store → Prop :=
| stocked_empty : stocked empty_store
| stocked_intake s material env r s' :
    stocked s →
    run (sendMaterial material) env s = (r, s') →
    stocked s'
| stocked_exec s cmd env r s' :
    stocked s → asks_nonneg cmd →
    exec cmd env s = (r, s') →
    stocked s'.

(** What such a store looks like: every record has a key above 0 and a
    location; no two records are of the same stock, at the same location
    and of the same owner; no lot holds a negative quantity; every lot
    is the lot of a record. *)
Definition well_kept (st : Store) : Prop :=
  (∀ id r, materials st !! id = Some r → 0 < id ∧ is_Some (location_id r)) ∧
  (∀ i j ri rj, materials st !! i = Some ri → materials st !! j = Some rj →
     stock_id ri = stock_id rj → location_id ri = location_id rj →
     owner ri = owner rj → i = j) ∧
  lots_nonneg st ∧
  (∀ lot row, prices st !! lot = Some row →
     is_Some (materials st !! pr_material_id row)).

(** The store is well kept and its quantities match its lots but for
    record [id], which holds [q] more than its live lots. *)
Definition ahead (id q : Z) (st : Store) : Prop :=
  well_kept st ∧ is_Some (materials st !! id) ∧
  ∀ k r, materials st !! k = Some r →
    quantity r = live_total k st + (if decide (k = id) then q else 0).

End Engine.

(** ** The websocket clients *)

(** [wsActiveClients], the package variable that [clientsMutex] guards,
    with what the connections were asked to do: a connection is known by
    its address, [attempts] are the calls of [WriteMessage] (latest
    last), [was_closed] the connections that were closed. *)
Record Sockets : Type := {
  wsActiveClients : gmap Z bool;
  attempts : list (Z * string);
  was_closed : list Z;
}.

(** What a broadcast cannot decide by itself: whether [json.Marshal]
    accepts the message (and the text it gives), which writes fail, and
    the order in which the runtime ranges over the map. *)
Record Net (Message : Type) : Type := {
  Marshal : Message → option string;
  WriteMessage : Z → string → bool;
  range_clients : gmap Z bool → list (Z * bool);
}.
Arguments Marshal {Message} _ _.
Arguments WriteMessage {Message} _ _ _.
Arguments range_clients {Message} _ _.

(** [addClient] *)
Definition addClient (conn : Z) (w : Sockets) : Sockets :=
  {| wsActiveClients := <[conn := true]> (wsActiveClients w);
     attempts := attempts w; was_closed := was_closed w |}.

(** The loop of [broadcastMessage] over the clients still to visit. *)
Fixpoint broadcast_loop {Message} (net : Net Message) (msg : string)
    (entries : list (Z * bool)) (w : Sockets) : Sockets :=
  match entries with
  | [] => w
  | (client, _) :: entries =>
      if WriteMessage net client msg then
        broadcast_loop net msg entries
          {| wsActiveClients := wsActiveClients w;
             attempts := attempts w ++ [(client, msg)]; was_closed := was_closed w |}
      else
        broadcast_loop net msg entries
          {| wsActiveClients := delete client (wsActiveClients w);
             attempts := attempts w ++ [(client, msg)];
             was_closed := was_closed w ++ [client] |}
  end.

(** [broadcastMessage]: nothing is sent when the message does not
    encode. *)
Definition broadcastMessage {Message} (net : Net Message) (message : Message)
    (w : Sockets) : Sockets :=
  match Marshal net message with
  | None => w
  | Some msg => broadcast_loop net msg (range_clients net (wsActiveClients w)) w
  end.

(** The clients of [entries] whose write fails. *)
Definition failing_clients {Message} (net : Net Message) (msg : string)
    (entries : list (Z * bool)) : list Z :=
  (filter (λ kv, WriteMessage net kv.1 msg = false) entries).*1.

(** ** A small warehouse *)

(** The examples take costs as integers. Three runs: one in which the
    store answers every call and the runtime ranges over the lots by
    ascending key, one in which it ranges by descending key, and one in
    which the store fails the call number [k]. *)
Definition calm : Env (float64 := Z) :=
  {| fails := λ _, false; range_order := oldest_first;
     now := "2024-05-06 09:00:00 +0000 UTC" |}.

Definition fickle : Env (float64 := Z) :=
  {| fails := λ _, false; range_order := newest_first;
     now := "2024-05-06 09:00:00 +0000 UTC" |}.

Definition failing (k : nat) : Env (float64 := Z) :=
  {| fails := λ n, bool_decide (n = k); range_order := oldest_first;
     now := "2024-05-06 09:00:00 +0000 UTC" |}.

Definition shipment (cost' qty' : Z) : IncomingMaterialJSON (float64 := Z) :=
  {| in_CustomerID := 1; in_StockID := "S1"; in_MaterialType := "Carrier";
     in_Qty := qty'; in_Cost := cost'; in_MinQty := 0; in_MaxQty := 100;
     in_Description := "envelopes"; in_Owner := "Tag"; in_IsActive := true |}.

Definition receive (intake loc qty' : Z) : command :=
  Receive {| MaterialID := intake; LocationID := loc; Qty := qty';
             Notes := "received"; IsPrimary := false |}.

Definition move (id loc qty' : Z) : command :=
  Move {| MaterialID := id; LocationID := loc; Qty := qty';
          Notes := "moved"; IsPrimary := false |}.

Definition remove (id qty' : Z) : command :=
  Remove {| rm_MaterialID := id; rm_Qty := qty'; rm_JobTicket := "JT-1" |}.

(** One shipment of 20 at cost 10, received at location 1. *)
Definition one_lot : Store (float64 := Z) :=
  let s := (run (sendMaterial (shipment 10 20)) calm empty_store).2 in
  (exec (receive 1 1 20) calm s).2.

(** Two shipments for the same stock, 5 at cost 10 and then 5 at cost
    12, received in that order at location 1. *)
Definition two_lots : Store (float64 := Z) :=
  let s := (run (sendMaterial (shipment 10 5)) calm empty_store).2 in
  let s := (run (sendMaterial (shipment 12 5)) calm s).2 in
  let s := (exec (receive 1 1 5) calm s).2 in
  (exec (receive 2 1 5) calm s).2.

(** What the examples show of a store: the intakes, and for each
    material its location and quantity, for each lot its material, its
    quantity and its cost, for each log entry its lot and its delta. *)
Definition summary (s : Store (float64 := Z))
    : list Z * list (Z * option Z * Z) * list (Z * Z * Z * Z) * list (Z * Z) :=
  ((rows_of (incoming_materials s)).*1,
   (λ kv, (kv.1, location_id kv.2, quantity kv.2)) <$> rows_of (materials s),
   (λ kv, (kv.1, pr_material_id kv.2, pr_quantity kv.2, pr_cost kv.2)) <$>
     rows_of (prices s),
   (λ t, (trx_priceId t, trx_qty t)) <$> transactions_log s).

(** One shipment of 20 at cost 10, submitted and not yet received. *)
Definition pending : Store (float64 := Z) :=
  (run (sendMaterial (shipment 10 20)) calm empty_store).2.

(** [one_lot] with its record retired, as the UPDATE of a Remove of all
    that the record holds writes it. *)
Definition emptied : Store (float64 := Z) :=
  set_materials (alter retire 1 (materials one_lot)) one_lot.

Definition adjust (id : Z) (primary : bool) : command :=
  Adjust {| MaterialID := id; LocationID := 0; Qty := 0;
            Notes := EmptyString; IsPrimary := primary |}.

(** The record of [one_lot]. *)
Definition the_record : materials_row :=
  {| stock_id := "S1"; location_id := Some 1; customer_id := 1;
     material_type := "Carrier"; description := "envelopes";
     notes := "received"; quantity := 20; min_required_quantity := 0;
     max_required_quantity := 100; is_active := true; owner := "Tag";
     is_primary := None |}.

(** Two shipments submitted, and the store after the first was
    received. *)
Definition two_pending : Store (float64 := Z) :=
  let s := (run (sendMaterial (shipment 10 5)) calm empty_store).2 in
  (run (sendMaterial (shipment 12 5)) calm s).2.

Definition first_received : Store (float64 := Z) :=
  (exec (receive 1 1 5) calm two_pending).2.

(** A store that no command leaves: [first_received], but its record
    has lost its location and holds its 5 still. *)
Definition in_limbo : Store (float64 := Z) :=
  set_materials
    (alter (λ r, set_row None (quantity r) (notes r) r) 1 (materials first_received))
    first_received.

(** The tables that the listings join: one customer, one location in
    one warehouse; and the same without the customer. *)
Definition office : Directory :=
  {| customers := {[1 := "Acme"]};
     locations := {[1 := ("A-1", Some 1)]};
     warehouses := {[1 := "Main"]} |}.

Definition no_customers : Directory :=
  {| customers := ∅;
     locations := {[1 := ("A-1", Some 1)]};
     warehouses := {[1 := "Main"]} |}.

(** A store that compares ASCII text: ILIKE of a pattern without
    wildcards, letters in either case; ORDER BY in the order of the
    codes. *)
Definition lower_ascii (a : Ascii.ascii) : Ascii.ascii :=
  let n := Ascii.nat_of_ascii a in
  if decide (65 ≤ n ≤ 90)%nat then Ascii.ascii_of_nat (n + 32) else a.

Fixpoint lower (s : string) : string :=
  match s with
  | EmptyString => EmptyString
  | String a s => String (lower_ascii a) (lower s)
  end.

Definition ascii_text : TextOps :=
  {| ILIKE := λ text pattern,
       match String.index 0 (lower pattern) (lower text) with
       | Some _ => true
       | None => false
       end;
     sorts_before := String.leb |}.

(** What the listings return in the small warehouse. *)
Definition shipment_listed (id : string) (cost' qty' : Z)
    : IncomingMaterialListed (float64 := Z) :=
  {| ShippingID := id; CustomerName := "Acme";
     shipment_data :=
       {| im_CustomerID := 1; im_StockID := "S1"; im_Cost := cost';
          im_Quantity := qty'; im_MinQty := 0; im_MaxQty := 100;
          im_Description := "envelopes"; im_IsActive := true;
          im_MaterialType := "Carrier"; im_Owner := "Tag" |} |}.

Definition the_record_listed : MaterialListed :=
  {| lm_MaterialID := 1; lm_WarehouseName := "Main"; lm_CustomerName := "Acme";
     lm_CustomerID := 1; lm_LocationID := 1; lm_LocationName := "A-1";
     lm_StockID := "S1"; lm_Quantity := 20; lm_MinQty := 0; lm_MaxQty := 100;
     lm_Description := "envelopes"; lm_Notes := "received"; lm_IsActive := true;
     lm_MaterialType := "Carrier"; lm_Owner := "Tag"; lm_IsPrimary := false |}.

(** Three clients; every write to the client 2 fails. *)
Definition wire : Net string :=
  {| Marshal := λ message, Some message;
     WriteMessage := λ client _, bool_decide (client ≠ 2);
     range_clients := map_to_list |}.

Definition three_clients : Sockets :=
  addClient 3 (addClient 2 (addClient 1
    {| wsActiveClients := ∅; attempts := []; was_closed := [] |})).

(** * Proofs *)

(** ** Go's int *)

Lemma wrap_in_int z : in_int z → wrap z = z.
Proof.
  unfold in_int, wrap, int_min, int_max. intros [H1 H2].
  rewrite Z.mod_small by lia. lia.
Qed.

Lemma int_neg_exact x : int_min < x → x ≤ int_max → int_neg x = - x.
Proof.
  intros H1 H2. unfold int_neg. apply wrap_in_int.
  unfold in_int, int_min, int_max in *. lia.
Qed.

Lemma int_sub_exact x y : 0 < y → y < x → x ≤ int_max → int_sub x y = x - y.
Proof.
  intros H1 H2 H3. unfold int_sub. apply wrap_in_int.
  unfold in_int, int_min, int_max in *. lia.
Qed.

Section Proofs.

Context {float64 : Type} `{!EqDecision float64, !Inhabited float64}.

#[local] Abbreviation Conn := (@Conn float64).
#[local] Abbreviation Store := (@Store float64).
#[local] Abbreviation Env := (@Env float64).
#[local] Abbreviation M := (@M float64).
#[local] Abbreviation Price := (@Price float64).
#[local] Abbreviation prices_row := (@prices_row float64).
#[local] Abbreviation IncomingMaterialDB := (@IncomingMaterialDB float64).
#[local] Abbreviation frame := (@frame float64).
#[local] Abbreviation spec := (@spec float64).
#[local] Abbreviation step := (@step float64).
#[local] Abbreviation on_ok := (@on_ok float64).

(** ** Weakest preconditions for the engine's monad *)

Lemma wp_run {A} env (m : M A) Φ c r c' :
  wp env m Φ c → m env c = (r, c') → Φ r c'.
Proof. unfold wp. intros H E. by rewrite E in H. Qed.

Lemma wp_mono {A} env (m : M A) (Φ Ψ : result A → Conn → Prop) c :
  wp env m Φ c → (∀ r c', Φ r c' → Ψ r c') → wp env m Ψ c.
Proof. unfold wp. auto. Qed.

Lemma wp_ret {A} env (a : A) (Φ : result A → Conn → Prop) c :
  Φ (Ok a) c → wp env (mret a) Φ c.
Proof. done. Qed.

Lemma wp_fail {A} env e (Φ : result A → Conn → Prop) c :
  Φ (Err e) c → wp env (fail e) Φ c.
Proof. done. Qed.

Lemma wp_bind {A B} env (m : M A) (f : A → M B) (Φ : result B → Conn → Prop) c :
  wp env m (λ r c', match r with
                    | Ok a => wp env (f a) Φ c'
                    | Err e => Φ (Err e) c'
                    | Blocked => Φ Blocked c'
                    end) c →
  wp env (m ≫= f) Φ c.
Proof.
  unfold wp, mbind, M_bind. destruct (m env c) as [[a|e|] c']; done.
Qed.

Lemma wp_or_rollback {A} env (m : M A) (Φ : result A → Conn → Prop) c :
  wp env m (λ r c', match r with
                    | Err e => Φ (Err e) (Rollback env c').2
                    | _ => Φ r c'
                    end) c →
  wp env (or_rollback m) Φ c.
Proof.
  unfold wp, or_rollback. destruct (m env c) as [[a|e|] c']; done.
Qed.

Lemma wp_or_rollback_wrap {A} env msg (m : M A) (Φ : result A → Conn → Prop) c :
  wp env m (λ r c', match r with
                    | Err e => Φ (Err (ErrNewWrap msg e)) (Rollback env c').2
                    | _ => Φ r c'
                    end) c →
  wp env (or_rollback_wrap msg m) Φ c.
Proof.
  unfold wp, or_rollback_wrap. destruct (m env c) as [[a|e|] c']; done.
Qed.

Lemma wp_with_defer {A B} env (d : M B) (m : M A) (Φ : result A → Conn → Prop) c :
  wp env m (λ r c', match r with
                    | Blocked => Φ Blocked c'
                    | _ => Φ r (d env c').2
                    end) c →
  wp env (with_defer d m) Φ c.
Proof.
  unfold wp, with_defer. destruct (m env c) as [[a|e|] c']; done.
Qed.

Lemma wp_tx_stmt {A} env (f : Store → result A * Store) (Φ : result A → Conn → Prop) c :
  (tx_open c = false → Φ (Err ErrTxDone) c) →
  (tx_open c = true → fails env (calls c) = true →
     Φ (Err ErrStore) (set_calls (S (calls c)) c)) →
  (tx_open c = true → fails env (calls c) = false →
     Φ (f (work c)).1 (set_work (f (work c)).2 (set_calls (S (calls c)) c))) →
  wp env (tx_stmt f) Φ c.
Proof.
  intros H1 H2 H3. unfold wp, tx_stmt, call.
  destruct (tx_open c); [|by apply H1].
  destruct (fails env (calls c)); [by apply H2|].
  specialize (H3 eq_refl eq_refl). simpl.
  by destruct (f (work c)).
Qed.

Lemma wp_range {A} env m (body : list (Z * Price) → M A) (Φ : result A → Conn → Prop) c :
  wp env (body (range_order env m)) Φ c → wp env (range m body) Φ c.
Proof. done. Qed.

(** ** Reading the live lots *)

Lemma scan_prices_lookup (rows : list (Z * prices_row)) acc m id p :
  scan_prices rows acc = Ok m → NoDup rows.*1 →
  (m !! id = Some p ↔
     (∃ row, (id, row) ∈ rows ∧ p = lot_entry row) ∨
     ((id ∉ rows.*1) ∧ acc !! id = Some p)).
Proof.
  revert acc. induction rows as [|[k row] rows IH]; intros acc Hs Hnd; simpl in *.
  - simplify_eq. split; [intros; right; split; [set_solver|done]|].
    intros [(? & ? & _)|[_ ?]]; [set_solver|done].
  - destruct (decide (fits (k, row))); [|done].
    apply NoDup_cons in Hnd as [Hk Hnd].
    rewrite (IH _ Hs Hnd). simpl. split.
    + intros [(row' & Hin & ->)|[Hni Hl]].
      * left. exists row'. split; [by right|done].
      * destruct (decide (k = id)) as [->|Hne].
        -- rewrite lookup_insert_eq in Hl. simplify_eq.
           left. exists row. split; [by left|done].
        -- rewrite lookup_insert_ne in Hl by done.
           right. split; [|done]. rewrite not_elem_of_cons. split; [congruence|done].
    + intros [(row' & Hin & ->)|[Hni Hl]].
      * apply elem_of_cons in Hin as [Heq|Hin].
        -- simplify_eq. right. split; [done|]. by rewrite lookup_insert_eq.
        -- left. by exists row'.
      * apply not_elem_of_cons in Hni as [Hne Hni].
        right. split; [done|]. by rewrite lookup_insert_ne.
Qed.

Lemma scan_prices_fits (rows : list (Z * prices_row)) acc m :
  scan_prices rows acc = Ok m → Forall fits rows.
Proof.
  revert acc. induction rows as [|row rows IH]; intros acc Hs; simpl in *; [done|].
  destruct (decide (fits row)); [|done]. constructor; eauto.
Qed.

Lemma scan_prices_total (rows : list (Z * prices_row)) acc :
  Forall fits rows → ∃ m, scan_prices rows acc = Ok m.
Proof.
  revert acc. induction rows as [|row rows IH]; intros acc Hf; simpl; [by eexists|].
  apply Forall_cons in Hf as [Hr Hf].
  destruct (decide (fits row)); [|done]. by apply IH.
Qed.

Lemma scan_prices_no_block (rows : list (Z * prices_row)) acc : scan_prices rows acc ≠ Blocked.
Proof.
  revert acc. induction rows as [|row rows IH]; intros acc; simpl; [done|].
  destruct (decide (fits row)); [apply IH|done].
Qed.

Lemma live_rows_perm materialId (st : Store) :
  live_rows materialId st ≡ₚ map_to_list (filter (live_lot materialId) (prices st)).
Proof. apply merge_sort_Permutation. Qed.

Lemma elem_of_live_rows materialId (st : Store) id row :
  (id, row) ∈ live_rows materialId st ↔
  prices st !! id = Some row ∧ live_lot materialId (id, row).
Proof.
  rewrite live_rows_perm, elem_of_map_to_list, map_lookup_filter_Some. done.
Qed.

Lemma NoDup_live_rows materialId (st : Store) : NoDup (live_rows materialId st).*1.
Proof. rewrite live_rows_perm. apply NoDup_fst_map_to_list. Qed.

(** What a successful [getMaterialPrices] holds: the live lots of the
    material, each under its key. *)
Lemma scan_live_rows materialId (st : Store) m :
  scan_prices (live_rows materialId st) ∅ = Ok m →
  m = lot_entry <$> filter (live_lot materialId) (prices st).
Proof.
  intros Hs. apply map_eq. intros id. apply option_eq. intros p.
  rewrite (scan_prices_lookup _ _ _ _ _ Hs (NoDup_live_rows _ _)).
  rewrite lookup_fmap, fmap_Some. setoid_rewrite map_lookup_filter_Some.
  setoid_rewrite elem_of_live_rows. rewrite lookup_empty. split.
  - intros [(row & [? ?] & ->)|[_ ?]]; [|done]. exists row. done.
  - intros (row & [? ?] & ->). left. exists row. done.
Qed.

(** ** The FIFO loop never takes more than a lot holds *)

Lemma lots_kept_or_taken_refl (st : Store) : lots_kept_or_taken st st.
Proof. intros id row H. exists row. split; [done|by left]. Qed.

Lemma lots_kept_or_taken_nonneg (st st' : Store) :
  lots_kept_or_taken st st' →
  (∀ id, is_Some (prices st' !! id) → is_Some (prices st !! id)) →
  lots_nonneg st → lots_nonneg st'.
Proof.
  intros Hk Hdom Hn id row' Hl.
  destruct (Hdom id) as [row Hrow]; [by eexists|].
  destruct (Hk id row Hrow) as (row'' & Hl' & [->|(? & ? & _)]); simplify_eq.
  - by eapply Hn.
  - done.
Qed.

Lemma take_from_lot (st0 st : Store) id row d :
  prices st0 !! id = Some row → prices st !! id = Some row →
  0 < pr_quantity row → d ≤ pr_quantity row →
  lots_kept_or_taken st0 st →
  lots_kept_or_taken st0
    (set_prices (<[id := add_quantity (- d) row]> (prices st)) st).
Proof.
  intros H0 H1 Hpos Hd Hk id' row' Hl. simpl.
  destruct (decide (id = id')) as [<-|Hne].
  - rewrite lookup_insert_eq. simplify_eq. eexists. split; [done|].
    right. simpl. repeat split; [done|lia].
  - rewrite lookup_insert_ne by done. by apply Hk.
Qed.

Lemma untouched_tail entries (st0 st : Store) id p row' :
  NoDup ((id, p) :: entries).*1 →
  untouched ((id, p) :: entries) st0 st →
  untouched entries st0 (set_prices (<[id := row']> (prices st)) st).
Proof.
  intros Hnd Hu id' p' Hin. simpl in Hnd. apply NoDup_cons in Hnd as [Hni _].
  destruct (Hu id' p') as (row & ? & ? & ?); [by right|].
  exists row. split; [done|]. split; [|done]. simpl.
  rewrite lookup_insert_ne; [done|]. intros ->. apply Hni.
  apply list_elem_of_fmap. by exists (id', p').
Qed.

Lemma fifo_loop_lots env notes jobTicket (st0 : Store) entries :
  ∀ remainingQty removedPrices (c : Conn),
    NoDup entries.*1 →
    untouched entries st0 (work c) →
    int_min < remainingQty → remainingQty ≤ int_max →
    lots_kept_or_taken st0 (work c) →
    (∀ id, is_Some (prices (work c) !! id) → is_Some (prices st0 !! id)) →
    wp env (fifo_loop notes jobTicket entries remainingQty removedPrices)
      (λ _ c', lots_kept_or_taken st0 (work c') ∧
               ∀ id, is_Some (prices (work c') !! id) → is_Some (prices st0 !! id)) c.
Proof.
  induction entries as [|[id p] entries IH];
    intros remainingQty removedPrices c Hnd Hu Hlo Hhi Hk Hdom; simpl.
  { by apply wp_ret. }
  destruct (Hu id p) as (row & Hrow0 & Hrow & Hq & Hpos & Hfit); [by left|].
  assert (∀ d, d ≤ pr_quantity row → int_neg d = - d → ∀ c1 : Conn,
    work c1 = work c →
    lots_kept_or_taken st0 (updatePriceQty
        {| priceId := id; materialId := 0; qty := int_neg d; cost := inhabitant |}
        env c1).2.(work) ∧
    (∀ id', is_Some (prices (updatePriceQty
        {| priceId := id; materialId := 0; qty := int_neg d; cost := inhabitant |}
        env c1).2.(work) !! id') → is_Some (prices st0 !! id'))) as Hupd.
  { intros d Hd Hneg c1 Hw. unfold updatePriceQty, tx_stmt, call. simpl.
    destruct (tx_open c1); simpl; [|by rewrite Hw].
    destruct (fails env (calls c1)); simpl; [by rewrite Hw|].
    rewrite Hw, Hrow. simpl. rewrite Hneg. split.
    - apply take_from_lot; try done. by rewrite <- Hq.
    - intros id'. destruct (decide (id = id')) as [<-|Hne].
      + by rewrite Hrow0.
      + rewrite lookup_insert_ne by done. apply Hdom. }
  destruct (decide (remainingQty ≤ qty p)) as [Hle|Hgt].
  - apply wp_bind. unfold wp at 1.
    assert (remainingQty ≤ pr_quantity row) as Hle' by lia.
    destruct (Hupd remainingQty Hle' (int_neg_exact _ Hlo Hhi) c eq_refl) as [Hk1 Hd1].
    destruct (updatePriceQty _ env c) as [[cost'|e|] c1] eqn:E1; simpl in *; try done.
    apply wp_bind. unfold wp at 1, addTranscation, tx_stmt, call.
    destruct (tx_open c1); simpl; [|done].
    destruct (fails env (calls c1)); simpl; [done|].
    by apply wp_ret.
  - apply wp_bind. unfold wp at 1.
    assert (qty p ≤ pr_quantity row) as Hle' by lia.
    assert (int_neg (qty p) = - qty p) as Hneg
      by (apply int_neg_exact; unfold in_int, int_min in *; lia).
    destruct (Hupd (qty p) Hle' Hneg c eq_refl) as [Hk1 Hd1].
    destruct (updatePriceQty _ env c) as [[cost'|e|] c1] eqn:E1; simpl in *; try done.
    apply wp_bind. unfold wp at 1, addTranscation, tx_stmt, call.
    destruct (tx_open c1) eqn:Ho; simpl; [|done].
    destruct (fails env (calls c1)); simpl; [done|].
    (* the rows still to visit are untouched in the new state *)
    assert (work c1 = set_prices (<[id := add_quantity (int_neg (qty p)) row]> (prices (work c))) (work c)) as Hw1.
    { revert E1. unfold updatePriceQty, tx_stmt, call. simpl.
      destruct (tx_open c); [|done]. destruct (fails env (calls c)); [done|].
      simpl. rewrite Hrow. simpl. by intros [= _ <-]. }
    apply IH.
    + simpl in Hnd. by apply NoDup_cons in Hnd as [_ ?].
    + simpl. rewrite Hw1. by eapply untouched_tail.
    + rewrite int_sub_exact by lia. unfold int_min. lia.
    + rewrite int_sub_exact by lia. lia.
    + done.
    + done.
Qed.

Lemma fetched_entries env materialId (st : Store) m id p :
  valid_range env →
  scan_prices (live_rows materialId st) ∅ = Ok m →
  (id, p) ∈ range_order env m →
  ∃ row, prices st !! id = Some row ∧ live_lot materialId (id, row) ∧
         p = lot_entry row ∧ fits (id, row).
Proof.
  intros Hv Hs Hin. rewrite (Hv m), elem_of_map_to_list in Hin.
  pose proof (scan_prices_fits _ _ _ Hs) as Hf.
  rewrite (scan_live_rows _ _ _ Hs), lookup_fmap, fmap_Some in Hin.
  destruct Hin as (row & Hl & ->). apply map_lookup_filter_Some in Hl as [Hl Hlive].
  exists row. repeat split; try done; try apply Hlive.
  all: rewrite Forall_forall in Hf; apply (Hf (id, row)), elem_of_live_rows; done.
Qed.

Lemma NoDup_range_order env (m : gmap Z Price) :
  valid_range env → NoDup (range_order env m).*1.
Proof. intros Hv. rewrite (Hv m). apply NoDup_fst_map_to_list. Qed.

(** C10, as amended. FIFO consumption of a quantity other than the
    least [int] never drives a lot negative: whatever the order in which
    the lots are visited and wherever the loop stops, a lot is either
    left as it was or it was live and an amount of at most its quantity
    was taken from it; so lots that were at zero or above stay at zero
    or above. *)
Theorem removePricesFIFO_never_overdraws env (c : Conn) priceToRemove r c' :
  valid_range env →
  int_min < ptr_qty priceToRemove → ptr_qty priceToRemove ≤ int_max →
  removePricesFIFO priceToRemove env c = (r, c') →
  lots_kept_or_taken (work c) (work c') ∧
  (lots_nonneg (work c) → lots_nonneg (work c')).
Proof.
  intros Hv Hlo Hhi Hrun.
  cut (lots_kept_or_taken (work c) (work c') ∧
       ∀ id, is_Some (prices (work c') !! id) → is_Some (prices (work c) !! id)).
  { intros [Hk Hd]. split; [done|]. by apply lots_kept_or_taken_nonneg. }
  revert Hrun. apply (wp_run env (removePricesFIFO priceToRemove) (λ _ c',
    lots_kept_or_taken (work c) (work c') ∧
    ∀ id, is_Some (prices (work c') !! id) → is_Some (prices (work c) !! id))).
  unfold removePricesFIFO. apply wp_bind. unfold getMaterialPrices.
  apply wp_tx_stmt; simpl.
  - intros _. split; [apply lots_kept_or_taken_refl|done].
  - intros _ _. split; [apply lots_kept_or_taken_refl|done].
  - intros _ _. fold (live_rows (ptr_materialId priceToRemove) (work c)).
    destruct (scan_prices _ ∅) as [m|e|] eqn:Hs;
      try (split; [apply lots_kept_or_taken_refl|done]).
    apply wp_range. apply fifo_loop_lots; simpl; try done.
    + by apply NoDup_range_order.
    + intros id p Hin.
      destruct (fetched_entries _ _ _ _ _ _ Hv Hs Hin) as (row & Hl & [_ Hpos] & -> & Hf).
      exists row. repeat split; try done. apply Hf. apply Hf.
    + apply lots_kept_or_taken_refl.
Qed.

(** ** When the live lots hold less than what is asked for *)

Lemma entries_total_cons id (p : Price) entries :
  entries_total ((id, p) :: entries) = qty p + entries_total entries.
Proof. done. Qed.

Lemma entries_total_nonneg (entries : list (Z * Price)) :
  (∀ id p, (id, p) ∈ entries → 0 < qty p) → 0 ≤ entries_total entries.
Proof.
  induction entries as [|[k q] l IH]; intros H; [done|].
  rewrite entries_total_cons.
  assert (0 < qty q) by (apply (H k); by left).
  assert (0 ≤ entries_total l); [|lia].
  apply IH. intros id p Hin. apply (H id). by right.
Qed.

Lemma sum_Permutation (l1 l2 : list Z) :
  l1 ≡ₚ l2 → foldr Z.add 0 l1 = foldr Z.add 0 l2.
Proof. induction 1; simpl; lia. Qed.

Lemma entries_total_fetched env materialId (st : Store) m :
  valid_range env →
  scan_prices (live_rows materialId st) ∅ = Ok m →
  entries_total (range_order env m) = live_total materialId st.
Proof.
  intros Hv Hs. unfold entries_total, live_total.
  apply sum_Permutation. rewrite (Hv m), (scan_live_rows _ _ _ Hs).
  rewrite map_to_list_fmap, <- list_fmap_compose. done.
Qed.

(** ** The FIFO loop against the words of the specification *)

Lemma consume_by_spec_keys (lots : list (Z * Price)) remainingToRemove id :
  id ∈ (consume_by_spec lots remainingToRemove).*1 → id ∈ lots.*1.
Proof.
  revert remainingToRemove. induction lots as [|[k p] lots IH]; intros r.
  { intros Hin. by apply elem_of_nil in Hin. }
  simpl.
  intros [->|Hin]%elem_of_cons; [by left|]. right.
  case_decide; [by apply elem_of_nil in Hin|]. by eapply IH.
Qed.

Lemma fifo_loop_refines env notes jobTicket entries :
  no_fault env →
  ∀ remainingQty removedPrices (c : Conn),
    tx_open c = true →
    NoDup entries.*1 →
    (∀ id p, (id, p) ∈ entries →
       ∃ row, prices (work c) !! id = Some row ∧ p = lot_entry row ∧
              0 < qty p ∧ in_int (qty p)) →
    int_min < remainingQty → remainingQty ≤ int_max →
    ∃ c', fifo_loop notes jobTicket entries remainingQty removedPrices env c
            = (Ok (removedPrices ++ (consume_by_spec entries remainingQty).*2), c') ∧
          tx_open c' = true ∧
          committed c' = committed c ∧
          materials (work c') = materials (work c) ∧
          incoming_materials (work c') = incoming_materials (work c) ∧
          transactions_log (work c') =
            transactions_log (work c) ++
            (ledger_entry notes jobTicket <$> consume_by_spec entries remainingQty) ∧
          (∀ id e, (id, e) ∈ consume_by_spec entries remainingQty →
             prices (work c') !! id
               = add_quantity (- qty e) <$> prices (work c) !! id) ∧
          (∀ id, id ∉ (consume_by_spec entries remainingQty).*1 →
             prices (work c') !! id = prices (work c) !! id).
Proof.
  intros Hnf. induction entries as [|[id p] entries IH];
    intros remainingQty removedPrices c Ho Hnd Hrows Hlo Hhi; simpl.
  { exists c. rewrite !app_nil_r. repeat split; try done.
    intros id e Hin. by apply elem_of_nil in Hin. }
  destruct (Hrows id p) as (row & Hrow & Hp & Hpos & Hfit); [by left|].
  rewrite fmap_cons, NoDup_cons in Hnd. simpl in Hnd. destruct Hnd as [Hni Hnd].
  destruct (decide (remainingQty ≤ qty p)) as [Hle|Hgt].
  - (* the lot covers what is left: take it and stop *)
    rewrite Z.min_l by done. rewrite decide_True by lia.
    assert (int_neg remainingQty = - remainingQty) as Hneg by by apply int_neg_exact.
    unfold mbind, M_bind. unfold updatePriceQty at 1, tx_stmt at 1, call.
    rewrite Ho, Hnf. simpl. rewrite Hrow. simpl.
    unfold addTranscation at 1, tx_stmt at 1, call. simpl. rewrite Ho, Hnf. simpl.
    unfold mret, M_ret. rewrite Hp. simpl.
    eexists. split; [reflexivity|]. repeat split; simpl.
    + done.
    + unfold ledger_entry. simpl. by rewrite Hneg.
    + intros id' e [Heq|Hin]%elem_of_cons; [|by apply elem_of_nil in Hin].
      simplify_eq. simpl. by rewrite lookup_insert_eq, Hrow, Hneg.
    + intros id' Hni'. rewrite lookup_insert_ne; [done|].
      intros ->. apply Hni'. by left.
  - (* the lot does not cover what is left: empty it and go on *)
    rewrite Z.min_r by lia. rewrite decide_False by lia.
    assert (int_neg (qty p) = - qty p) as Hneg
      by (apply int_neg_exact; unfold in_int, int_min in *; lia).
    unfold mbind, M_bind. unfold updatePriceQty at 1, tx_stmt at 1, call.
    rewrite Ho, Hnf. simpl. rewrite Hrow. simpl.
    unfold addTranscation at 1, tx_stmt at 1, call. simpl. rewrite Ho, Hnf. simpl.
    rewrite int_sub_exact by lia.
    match goal with |- context [fifo_loop _ _ _ _ _ env ?c1] => set (c1' := c1) end.
    destruct (IH (remainingQty - qty p)
                (removedPrices ++
                 [{| priceId := 0; materialId := 0; qty := qty p; cost := pr_cost row |}])
                c1') as (c' & Hrun & Ho' & Hc & Hm & Hi & Hlog & Hin' & Hout').
    + done.
    + done.
    + intros id' p' Hin. destruct (Hrows id' p') as (row' & ? & ?); [by right|].
      exists row'. split; [|done]. simpl. rewrite lookup_insert_ne; [done|].
      intros ->. apply Hni. apply list_elem_of_fmap. by exists (id', p').
    + unfold int_min in *. lia.
    + lia.
    + exists c'. rewrite Hrun. split; [|repeat split; try done].
      * rewrite <- (assoc_L (++)). simpl. by rewrite Hp.
      * rewrite Hlog. simpl. rewrite <- (assoc_L (++)). simpl.
        unfold ledger_entry at 2. simpl. by rewrite Hneg.
      * intros id' e [Heq|Hin]%elem_of_cons.
        -- simplify_eq. simpl in *. rewrite Hout'.
           ++ simpl. by rewrite lookup_insert_eq, Hrow, Hneg.
           ++ intros Hin. apply Hni. by eapply consume_by_spec_keys.
        -- rewrite (Hin' _ _ Hin). simpl. rewrite lookup_insert_ne; [done|].
           intros ->. apply Hni. eapply consume_by_spec_keys.
           apply list_elem_of_fmap. by exists (id', e).
      * intros id' Hni'. apply not_elem_of_cons in Hni'.
        destruct Hni' as [Hne Hni']. rewrite (Hout' _ Hni'). simpl.
        by rewrite lookup_insert_ne.
Qed.

(** In a run in which the store answers every call, FIFO consumption
    does what the specification says of it, on the lots in the order in
    which the runtime ranges over them: it returns the pairs of
    [consume_by_spec], logs one entry with the negated quantity for each
    of them and takes that quantity from the lot. What the code does not
    fix is the order. *)
Lemma removePricesFIFO_refines env (c : Conn) priceToRemove :
  valid_range env → no_fault env → tx_open c = true →
  prices_fit (work c) →
  int_min < ptr_qty priceToRemove → ptr_qty priceToRemove ≤ int_max →
  let walked :=
    consume_by_spec
      (range_order env
         (lot_entry <$> filter (live_lot (ptr_materialId priceToRemove))
                          (prices (work c))))
      (ptr_qty priceToRemove) in
  ∃ c',
    removePricesFIFO priceToRemove env c = (Ok walked.*2, c') ∧
    tx_open c' = true ∧
    transactions_log (work c') =
      transactions_log (work c) ++
      (ledger_entry (ptr_notes priceToRemove) (ptr_jobTicket priceToRemove) <$> walked) ∧
    (∀ id e, (id, e) ∈ walked →
       prices (work c') !! id = add_quantity (- qty e) <$> prices (work c) !! id) ∧
    (∀ id, id ∉ walked.*1 → prices (work c') !! id = prices (work c) !! id).
Proof.
  intros Hv Hnf Ho Hfit Hlo Hhi walked.
  destruct (scan_prices_total (live_rows (ptr_materialId priceToRemove) (work c)) ∅)
    as [m Hs].
  { apply Forall_forall. intros [id row] Hin. apply elem_of_live_rows in Hin as [Hl _].
    by apply (Hfit id). }
  pose proof (scan_live_rows _ _ _ Hs) as Hm. subst walked. rewrite <- Hm.
  destruct (fifo_loop_refines env (ptr_notes priceToRemove) (ptr_jobTicket priceToRemove)
              (range_order env m) Hnf (ptr_qty priceToRemove) []
              (set_calls (S (calls c)) c))
    as (c' & Hrun & Ho' & _ & _ & _ & Hlog & Hin & Hout); try done.
  { by apply NoDup_range_order. }
  { intros id p Hin.
    destruct (fetched_entries _ _ _ _ _ _ Hv Hs Hin) as (row & Hl & [_ Hpos] & -> & Hf).
    exists row. repeat split; try done; apply Hf. }
  exists c'. split; [|done].
  unfold removePricesFIFO, mbind, M_bind, getMaterialPrices, tx_stmt, call.
  rewrite Ho, Hnf. simpl. rewrite Hs. exact Hrun.
Qed.

Lemma consume_by_spec_all (entries : list (Z * Price)) remainingToRemove :
  (∀ id p, (id, p) ∈ entries →
     ∃ row : prices_row, p = lot_entry row ∧ 0 < qty p) →
  entries_total entries < remainingToRemove →
  consume_by_spec entries remainingToRemove = entries.
Proof.
  revert remainingToRemove. induction entries as [|[id p] entries IH];
    intros r Hrows Hlt; simpl; [done|].
  rewrite entries_total_cons in Hlt.
  assert (0 ≤ entries_total entries) as Hnn.
  { apply entries_total_nonneg. intros id' p' Hin.
    destruct (Hrows id' p') as (? & _ & ?); [by right|done]. }
  destruct (Hrows id p) as (row & -> & Hpos); [by left|]. simpl in *.
  rewrite Z.min_r by lia. rewrite decide_False by lia.
  rewrite IH; [done| |lia].
  intros id' p' Hin. apply (Hrows id' p'). by right.
Qed.

(** C3, as the code has it. When the live lots of the material hold less
    than the requested quantity, FIFO consumption reports no error: it
    empties every live lot of the material, returns one (quantity, cost)
    pair and logs one entry per live lot, and the pairs add up to what
    the lots held, not to what was asked for. The transaction stays
    open: nothing is rolled back. *)
Theorem removePricesFIFO_short_of_lots env (c : Conn) priceToRemove :
  valid_range env → no_fault env → tx_open c = true →
  prices_fit (work c) →
  live_total (ptr_materialId priceToRemove) (work c) < ptr_qty priceToRemove →
  ptr_qty priceToRemove ≤ int_max →
  ∃ removedPrices c',
    removePricesFIFO priceToRemove env c = (Ok removedPrices, c') ∧
    tx_open c' = true ∧
    foldr Z.add 0 (qty <$> removedPrices)
      = live_total (ptr_materialId priceToRemove) (work c) ∧
    length removedPrices
      = size (filter (live_lot (ptr_materialId priceToRemove)) (prices (work c))) ∧
    length (transactions_log (work c'))
      = (length (transactions_log (work c)) + length removedPrices)%nat ∧
    (∀ id row, prices (work c) !! id = Some row →
       live_lot (ptr_materialId priceToRemove) (id, row) →
       ∃ row', prices (work c') !! id = Some row' ∧ pr_quantity row' = 0 ∧
               pr_cost row' = pr_cost row).
Proof.
  intros Hv Hnf Ho Hfit Hlt Hhi.
  destruct (scan_prices_total (live_rows (ptr_materialId priceToRemove) (work c)) ∅)
    as [m Hs].
  { apply Forall_forall. intros [id row] Hin. apply elem_of_live_rows in Hin as [Hl _].
    by apply (Hfit id). }
  pose proof (scan_live_rows _ _ _ Hs) as Hm.
  pose proof (entries_total_fetched _ _ _ _ Hv Hs) as Htot.
  assert (∀ id p, (id, p) ∈ range_order env m →
            ∃ row, prices (work c) !! id = Some row ∧ p = lot_entry row ∧
                   0 < qty p ∧ in_int (qty p)) as Hrows.
  { intros id p Hin.
    destruct (fetched_entries _ _ _ _ _ _ Hv Hs Hin) as (row & Hl & [_ Hpos] & -> & Hf).
    exists row. repeat split; try done; apply Hf. }
  assert (0 ≤ entries_total (range_order env m)) as Hnn.
  { apply entries_total_nonneg. intros id p Hin.
    by destruct (Hrows id p Hin) as (? & _ & _ & ? & _). }
  destruct (removePricesFIFO_refines env c priceToRemove)
    as (c' & Hrun & Ho' & Hlog & Hin & _); try done.
  { unfold int_min. lia. }
  assert (consume_by_spec (range_order env m) (ptr_qty priceToRemove)
          = range_order env m) as Hall.
  { apply consume_by_spec_all; [|by rewrite Htot].
    intros id p Hp. destruct (Hrows id p Hp) as (row & _ & -> & ? & _).
    by exists row. }
  rewrite <- Hm, Hall in Hrun, Hlog, Hin.
  exists (range_order env m).*2, c'. split; [done|]. split; [done|].
  split; [|split; [|split]].
  - rewrite <- Htot. unfold entries_total. by rewrite <- list_fmap_compose.
  - rewrite length_fmap, (Hv m), Hm, map_to_list_fmap, length_fmap.
    apply length_map_to_list.
  - by rewrite Hlog, length_app, !length_fmap.
  - intros id row Hl Hlive.
    assert ((id, lot_entry row) ∈ range_order env m) as Hin'.
    { rewrite (Hv m), elem_of_map_to_list, Hm, lookup_fmap, fmap_Some.
      exists row. split; [|done]. by apply map_lookup_filter_Some. }
    rewrite (Hin _ _ Hin'), Hl. simpl. eexists. split; [done|]. simpl.
    split; [lia|done].
Qed.

(** *** Running the primitives *)

Lemma bind_run {A B} (m : M A) (f : A → M B) env c :
  (m ≫= f) env c =
  match m env c with
  | (Ok a, c') => f a env c'
  | (Err e, c') => (Err e, c')
  | (Blocked, c') => (Blocked, c')
  end.
Proof. done. Qed.

Lemma BeginTx_run env (c : Conn) :
  BeginTx env c =
  if fails env (calls c) then (Err ErrStore, set_calls (S (calls c)) c)
  else (Ok (), {| committed := committed c; work := committed c; tx_open := true;
                  locked := []; calls := S (calls c) |}).
Proof. unfold BeginTx, call. by destruct (fails env (calls c)). Qed.

Lemma tx_stmt_run {A} (f : Store → result A * Store) env (c : Conn) :
  tx_open c = true → fails env (calls c) = false →
  tx_stmt f env c = ((f (work c)).1, set_work (f (work c)).2 (set_calls (S (calls c)) c)).
Proof.
  intros Ho Hf. unfold tx_stmt, call. rewrite Ho, Hf. simpl. by destruct (f (work c)).
Qed.

(** [getMaterialById] loads nothing: a record that is there comes with
    one column more than the Scan has arguments. *)
Lemma getMaterialById_run env (c : Conn) id :
  tx_open c = true → fails env (calls c) = false →
  getMaterialById id env c =
    (Err (match materials (work c) !! id with
          | Some _ => ErrScan
          | None => ErrNoRows
          end),
     set_calls (S (calls c)) c).
Proof.
  intros Ho Hf. unfold getMaterialById. rewrite tx_stmt_run by done.
  simpl. by destruct (materials (work c) !! id).
Qed.

Lemma getMaterialById_fails id env (c : Conn) :
  ∃ e n, getMaterialById id env c = (Err e, set_calls n c).
Proof.
  unfold getMaterialById, tx_stmt, call. destruct (tx_open c).
  - destruct (fails env (calls c)); simpl.
    + by eexists _, _.
    + destruct (materials (work c) !! id); simpl; eexists _, _;
        unfold set_work, set_calls; simpl; by destruct c.
  - exists ErrTxDone, (calls c). unfold set_calls. by destruct c.
Qed.

(** Commit ends the transaction, and it keeps what is committed when
    nothing was written. *)
Lemma Commit_clean env (c : Conn) :
  work c = committed c → committed (Commit env c).2 = committed c.
Proof.
  intros Hw. unfold Commit, call. destruct (tx_open c); [|done].
  destruct (fails env (calls c)); simpl; done.
Qed.

(** ** A Move and a Remove stop at their first read *)

Lemma moveMaterial_run material env (s : Store) :
  ∃ e, run (moveMaterial material) env s = (Err e, s).
Proof.
  unfold run, moveMaterial. rewrite bind_run, BeginTx_run. simpl calls.
  destruct (fails env 0%nat); [by eexists|].
  unfold with_defer. rewrite bind_run.
  match goal with |- context [getMaterialById ?id env ?c1] =>
    destruct (getMaterialById_fails id env c1) as (e & n & ->)
  end.
  exists e. by rewrite Commit_clean.
Qed.

Lemma removeMaterial_run material env (s : Store) :
  ∃ e, run (removeMaterial material) env s = (Err e, s).
Proof.
  unfold run, removeMaterial. rewrite bind_run, BeginTx_run. simpl calls.
  destruct (fails env 0%nat); [by eexists|].
  unfold with_defer. rewrite bind_run. unfold or_rollback_wrap.
  match goal with |- context [getMaterialById ?id env ?c1] =>
    destruct (getMaterialById_fails id env c1) as (e & n & ->)
  end.
  by eexists.
Qed.

(** If it succeeds, a statement on a transaction has found it open. *)
Lemma tx_stmt_Ok {A} (f : Store → result A * Store) env (c : Conn) a c' :
  tx_stmt f env c = (Ok a, c') →
  tx_open c = true ∧ fails env (calls c) = false ∧
  f (work c) = (Ok a, work c') ∧ tx_open c' = true ∧ committed c' = committed c.
Proof.
  unfold tx_stmt, call. destruct (tx_open c) eqn:Ho; [|done].
  destruct (fails env (calls c)); [done|]. simpl.
  destruct (f (work c)) as [r w]. intros [= -> <-]. done.
Qed.

Lemma Commit_run env (c : Conn) :
  tx_open c = true → fails env (calls c) = false →
  committed (Commit env c).2 = work c.
Proof. intros Ho Hf. unfold Commit, call. by rewrite Ho, Hf. Qed.

(** ** An intake is consumed once *)

Lemma wp_bind_on_ok {A B} env (m : M A) (f : A → M B) (Q : B → Conn → Prop) c :
  (∀ a c', wp env (f a) (on_ok Q) c') → wp env (m ≫= f) (on_ok Q) c.
Proof.
  intros Hf. apply wp_bind. unfold wp at 1.
  destruct (m env c) as [[a|e|] c']; simpl; [apply Hf|done..].
Qed.

Lemma createMaterial_end_consumes env material materialId priceId (c : Conn) :
  wp env (createMaterial_end material materialId priceId)
    (on_ok (λ _ c', tx_open c' = true ∧
                    incoming_materials (work c') !! MaterialID material = None)) c.
Proof.
  unfold createMaterial_end. apply wp_bind, wp_or_rollback.
  unfold deleteIncomingMaterial. apply wp_tx_stmt; simpl; try done.
  intros Ho _. apply wp_bind, wp_or_rollback.
  unfold addTranscation. apply wp_tx_stmt; simpl; try done.
  intros _ _. apply wp_ret. simpl. split; [done|]. apply lookup_delete_eq.
Qed.

Lemma createMaterial_consumes env material s id (s1 : Store) :
  no_fault env →
  run (createMaterial material) env s = (Ok id, s1) →
  incoming_materials s1 !! MaterialID material = None.
Proof.
  intros Hnf. unfold run, createMaterial. rewrite bind_run, BeginTx_run, Hnf.
  unfold with_defer.
  match goal with |- context [(?m ≫= ?f) env ?c1] =>
    assert (wp env (m ≫= f)
      (on_ok (λ _ c', tx_open c' = true ∧
                      incoming_materials (work c') !! MaterialID material = None)) c1) as Hk;
    [|unfold wp in Hk; destruct ((m ≫= f) env c1) as [[a|e|] c2]; [|done..]]
  end.
  { apply wp_bind_on_ok. intros incomingMaterial c1. cbv zeta.
    apply wp_bind_on_ok. intros materialId c2. case_decide.
    - apply wp_bind_on_ok. intros priceId c3. apply createMaterial_end_consumes.
    - apply wp_bind_on_ok. intros materialId' c3.
      apply wp_bind_on_ok. intros materialId'' c4.
      apply wp_bind_on_ok. intros priceId c5. apply createMaterial_end_consumes. }
  simpl in Hk. destruct Hk as [Ho Hnone].
  intros [= _ <-]. by rewrite Commit_run.
Qed.

(** Once a Receive of an intake has succeeded in a run in which the
    store answered every call, its Commit too, a second Receive of the
    same intake fails and leaves the store as the first one left it,
    whatever the store does during the second call; when the store
    answers every call, the error is that no row was found. *)
Lemma second_receive_finds_nothing env (s : Store) material s1 :
  no_fault env →
  exec (Receive material) env s = (Ok (), s1) →
  ∀ material' env',
    MaterialID material' = MaterialID material →
    (∃ e, exec (Receive material') env' s1 = (Err e, s1)) ∧
    (no_fault env' → exec (Receive material') env' s1 = (Err ErrNoRows, s1)).
Proof.
  intros Hnf Hrun material' env' Hid.
  assert (incoming_materials s1 !! MaterialID material' = None) as Hnone.
  { rewrite Hid. unfold exec in Hrun.
    destruct (run (createMaterial material) env s) as [[id|e|] s1'] eqn:Hr;
      simplify_eq. by eapply createMaterial_consumes. }
  assert (∀ c : Conn, tx_open c = false → committed (Commit env' c).2 = committed c)
    as Hcommit.
  { intros c Ho. unfold Commit. by rewrite Ho. }
  cut (∃ e, exec (Receive material') env' s1 = (Err e, s1) ∧
            (no_fault env' → e = ErrNoRows)).
  { intros (e & He & Hnf'). split; [by exists e|]. intros H. by rewrite He, Hnf'. }
  unfold exec, run, createMaterial. rewrite bind_run, BeginTx_run. simpl calls.
  destruct (fails env' 0%nat) eqn:Hf0.
  { eexists. split; [done|]. intros Hnf'. by rewrite Hnf' in Hf0. }
  unfold with_defer. rewrite bind_run. unfold or_rollback at 1, tx_stmt at 1, call.
  simpl. destruct (fails env' 1%nat) eqn:Hf1; simpl.
  { eexists. split; [done|]. intros Hnf'. by rewrite Hnf' in Hf1. }
  rewrite Hnone. simpl. by eexists.
Qed.

(** ** The log reconciles with the lots *)

Lemma ledger_sum_snoc id log t :
  ledger_sum id (log ++ [t]) =
  ledger_sum id log + (if decide (trx_priceId t = id) then trx_qty t else 0).
Proof.
  unfold ledger_sum. rewrite filter_app, fmap_app, foldr_app. simpl.
  rewrite filter_cons, filter_nil.
  assert (∀ l a, foldr Z.add a l = foldr Z.add 0 l + a) as Hf.
  { induction l as [|x l IH]; intros a; simpl; [lia|]. rewrite IH. lia. }
  case_decide; simpl.
  - rewrite Hf. lia.
  - lia.
Qed.

Lemma ledger_sum_absent (st : Store) id :
  (∀ t, t ∈ transactions_log st → is_Some (prices st !! trx_priceId t)) →
  prices st !! id = None → ledger_sum id (transactions_log st) = 0.
Proof.
  intros Hd Hn. unfold ledger_sum.
  induction (transactions_log st) as [|t l IH]; [done|].
  rewrite filter_cons. case_decide as Ht.
  - destruct (Hd t) as [row Hrow]; [by left|]. rewrite Ht, Hn in Hrow. done.
  - apply IH. intros t' Hin. apply Hd. by right.
Qed.

Lemma same_ledger_reconciled (st st' : Store) :
  same_ledger st st' → reconciled st → reconciled st'.
Proof. intros [Hp Hl]. unfold reconciled. by rewrite Hp, Hl. Qed.

Lemma same_ledger_owes id q (st st' : Store) :
  same_ledger st st' → owes id q st → owes id q st'.
Proof. intros [Hp Hl]. unfold owes. by rewrite Hp, Hl. Qed.

Lemma reconciled_add (st : Store) id row q :
  reconciled st → prices st !! id = Some row →
  owes id q (set_prices (<[id := add_quantity q row]> (prices st)) st).
Proof.
  intros [Hr Hd] Hrow. split; [|split]; simpl.
  - intros id' row' Hl. destruct (decide (id = id')) as [<-|Hne].
    + rewrite lookup_insert_eq in Hl. simplify_eq. simpl.
      rewrite decide_True by done. by rewrite (Hr id row).
    + rewrite lookup_insert_ne in Hl by done. rewrite decide_False by done.
      rewrite (Hr id' row') by done. lia.
  - by rewrite lookup_insert_eq.
  - intros t Ht. rewrite lookup_insert. case_decide; [done|]. by apply Hd.
Qed.

Lemma reconciled_new (st : Store) id row :
  reconciled st → prices st !! id = None →
  owes id (pr_quantity row) (set_prices (<[id := row]> (prices st)) st).
Proof.
  intros [Hr Hd] Hn. split; [|split]; simpl.
  - intros id' row' Hl. destruct (decide (id = id')) as [<-|Hne].
    + rewrite lookup_insert_eq in Hl. simplify_eq.
      rewrite decide_True by done. by rewrite ledger_sum_absent.
    + rewrite lookup_insert_ne in Hl by done. rewrite decide_False by done.
      rewrite (Hr id' row') by done. lia.
  - by rewrite lookup_insert_eq.
  - intros t Ht. rewrite lookup_insert. case_decide; [done|]. by apply Hd.
Qed.

Lemma owes_logged (st : Store) t :
  owes (trx_priceId t) (trx_qty t) st →
  reconciled (set_log (transactions_log st ++ [t]) st).
Proof.
  intros (Ho & Hs & Hd). split; simpl.
  - intros id row Hl. rewrite ledger_sum_snoc, (Ho id row Hl).
    destruct (decide (id = trx_priceId t)) as [->|Hne].
    + by rewrite decide_True.
    + by rewrite decide_False.
  - intros t' [Hin|Hin]%elem_of_app; [by apply Hd|].
    apply list_elem_of_singleton in Hin as ->. done.
Qed.

Lemma next_id_fresh {A} (t : gmap Z A) : t !! next_id t = None.
Proof.
  destruct (t !! next_id t) as [a|] eqn:Hl; [|done]. exfalso.
  apply elem_of_map_to_list in Hl.
  assert (∀ l : list (Z * A), ∀ k a, (k, a) ∈ l → k ≤ foldr Z.max 0 l.*1) as Hmax.
  { induction l as [|[k' a'] l IH]; intros k b Hin; [by apply elem_of_nil in Hin|].
    simpl. apply elem_of_cons in Hin as [Heq|Hin].
    - simplify_eq. apply Z.le_max_l.
    - specialize (IH _ _ Hin). etrans; [exact IH|apply Z.le_max_r]. }
  specialize (Hmax _ _ _ Hl). unfold next_id in Hmax. lia.
Qed.

(** *** Code that runs on the transaction only *)

Lemma spec_ret {A} (a : A) (Q : A → Store → Prop) : spec (Q a) (mret a) Q.
Proof. intros env c HP. by apply wp_ret. Qed.

Lemma spec_bind {A B} P (m : M A) Q (f : A → M B) R :
  spec P m Q → (∀ a, spec (Q a) (f a) R) → spec P (m ≫= f) R.
Proof.
  intros Hm Hf env c HP. apply wp_bind. eapply wp_mono; [by apply Hm|].
  intros [a|e|] c1; simpl; [|done..]. intros [Hc HQ].
  eapply wp_mono; [by apply Hf|]. intros r c2 [Hc2 HR]. split; [congruence|done].
Qed.

Lemma spec_tx_stmt {A} P (f : Store → result A * Store) (Q : A → Store → Prop) :
  (∀ st, P st → match (f st).1 with Ok a => Q a (f st).2 | _ => True end) →
  spec P (tx_stmt f) Q.
Proof.
  intros Hf env c HP. apply wp_tx_stmt; try done. intros _ _. split; [done|].
  specialize (Hf _ HP). by destruct (f (work c)) as [[a|e|] w].
Qed.

Lemma spec_updatePriceQty (p : Price) :
  spec reconciled (updatePriceQty p) (λ _, owes (priceId p) (qty p)).
Proof.
  apply spec_tx_stmt. intros st Hr.
  destruct (prices st !! priceId p) as [row|] eqn:Hrow; simpl; [|done].
  by apply reconciled_add.
Qed.

Lemma spec_upsertPrice (p : Price) :
  spec reconciled (upsertPrice p) (λ id, owes id (qty p)).
Proof.
  apply spec_tx_stmt. intros st Hr.
  destruct (map_to_list _) as [|[id row] l] eqn:Hl; simpl.
  - unfold scan_int. case_decide; [|done].
    apply (reconciled_new st _
      {| pr_material_id := materialId p; pr_quantity := qty p;
         pr_cost := cost p; created_with := qty p |}); [done|].
    apply next_id_fresh.
  - unfold scan_int. case_decide; [|done]. apply reconciled_add; [done|].
    assert ((id, row) ∈ map_to_list
              (filter (same_lot (materialId p) (cost p)) (prices st))) as Hin
      by (rewrite Hl; by left).
    apply elem_of_map_to_list, map_lookup_filter_Some in Hin. apply Hin.
Qed.

Lemma spec_addTranscation t :
  spec (owes (trx_priceId t) (trx_qty t)) (addTranscation t) (λ _, reconciled).
Proof. apply spec_tx_stmt. intros st Ho. simpl. by apply owes_logged. Qed.

Lemma spec_getMaterialPrices materialId :
  spec reconciled (getMaterialPrices materialId) (λ _, reconciled).
Proof.
  apply spec_tx_stmt. intros st Hr. simpl. by destruct (scan_prices _ _).
Qed.

Lemma spec_fifo_loop notes jobTicket entries remainingQty removedPrices :
  spec reconciled (fifo_loop notes jobTicket entries remainingQty removedPrices)
    (λ _, reconciled).
Proof.
  revert remainingQty removedPrices.
  induction entries as [|[id p] entries IH]; intros remainingQty removedPrices; simpl.
  { apply (spec_ret _ (λ _, reconciled)). }
  case_decide.
  - eapply spec_bind; [apply spec_updatePriceQty|]. intros cost'. simpl.
    eapply spec_bind; [apply (spec_addTranscation
      {| trx_priceId := id; trx_qty := int_neg remainingQty;
         trx_notes := notes; trx_jobTicket := jobTicket |})|].
    intros []. apply (spec_ret _ (λ _, reconciled)).
  - eapply spec_bind; [apply spec_updatePriceQty|]. intros cost'. simpl.
    eapply spec_bind; [apply (spec_addTranscation
      {| trx_priceId := id; trx_qty := int_neg (qty p);
         trx_notes := notes; trx_jobTicket := jobTicket |})|].
    intros []. apply IH.
Qed.

Lemma spec_removePricesFIFO p :
  spec reconciled (removePricesFIFO p) (λ _, reconciled).
Proof.
  eapply spec_bind; [apply spec_getMaterialPrices|]. intros m env c Hr.
  apply wp_range. by apply spec_fifo_loop.
Qed.

(** *** Code that may roll back or write on [db] *)

Lemma step_ret {A} (a : A) (Q : A → Store → Prop) : step (Q a) (mret a) Q.
Proof. intros env c Hc HP. by apply wp_ret. Qed.

Lemma step_ret_reconciled {A} (a : A) : step reconciled (mret a) (λ _, reconciled).
Proof. apply (step_ret a (λ _, reconciled)). Qed.

Lemma step_fail {A} e (Q : A → Store → Prop) : step reconciled (fail e) Q.
Proof. intros env c Hc HP. by apply wp_fail. Qed.

Lemma step_bind {A B} P (m : M A) Q (f : A → M B) R :
  step P m Q → (∀ a, step (Q a) (f a) R) → step P (m ≫= f) R.
Proof.
  intros Hm Hf env c Hc HP. apply wp_bind. eapply wp_mono; [by apply Hm|].
  intros [a|e|] c1; simpl; [|done..]. intros [Hc1 HQ]. by apply Hf.
Qed.

Lemma step_spec {A} P (m : M A) Q : spec P m Q → step P (or_rollback m) Q.
Proof.
  intros Hm env c Hc HP. apply wp_or_rollback. eapply wp_mono; [by apply Hm|].
  intros [a|e|] c1 [Hc1 HQ]; simpl; rewrite ?Hc1; done.
Qed.

Lemma step_frame {A} (m : M A) : frame m → step reconciled m (λ _, reconciled).
Proof.
  intros Hm env c Hc HP. unfold wp. destruct (Hm env c) as [Hw Hcm].
  split; [by eapply same_ledger_reconciled|].
  destruct (m env c).1; [| |done]; by eapply same_ledger_reconciled.
Qed.

Lemma step_frame_rollback {A} (P : Store → Prop) (m : M A) :
  frame m → (∀ st st', same_ledger st st' → P st → P st') →
  step P (or_rollback m) (λ _, P).
Proof.
  intros Hm HPl env c Hc HP. apply wp_or_rollback. unfold wp.
  destruct (Hm env c) as [Hw Hcm].
  destruct (m env c) as [[a|e|] c1]; simpl in *.
  - split; [by eapply same_ledger_reconciled|by eapply HPl].
  - split; by eapply same_ledger_reconciled.
  - split; [by eapply same_ledger_reconciled|done].
Qed.

Lemma step_frame_rollback_wrap {A} msg (m : M A) :
  frame m → step reconciled (or_rollback_wrap msg m) (λ _, reconciled).
Proof.
  intros Hm env c Hc HP. apply wp_or_rollback_wrap. unfold wp.
  destruct (Hm env c) as [Hw Hcm].
  destruct (m env c) as [[a|e|] c1]; simpl in *.
  - split; by eapply same_ledger_reconciled.
  - split; by eapply same_ledger_reconciled.
  - split; [by eapply same_ledger_reconciled|done].
Qed.

Lemma step_ask_now (P : Store → Prop) : step P ask_now (λ _, P).
Proof. intros env c Hc HP. done. Qed.

Lemma step_with_defer {A B} P (d : M B) (m : M A) :
  step P m (λ _, reconciled) →
  (∀ env (c : Conn), reconciled (committed c) → reconciled (work c) →
     reconciled (committed (d env c).2) ∧ reconciled (work (d env c).2)) →
  step P (with_defer d m) (λ _, reconciled).
Proof.
  intros Hm Hd env c Hc HP. apply wp_with_defer. eapply wp_mono; [by apply Hm|].
  intros [a|e|] c1 [Hc1 HQ]; simpl; [by apply Hd..|done].
Qed.

Lemma frame_bind {A B} (m : M A) (f : A → M B) :
  frame m → (∀ a, frame (f a)) → frame (m ≫= f).
Proof.
  intros Hm Hf env c. rewrite bind_run. destruct (Hm env c) as [[H1 H2] [H3 H4]].
  destruct (m env c) as [[a|e|] c1]; simpl in *; try done.
  destruct (Hf a env c1) as [[H5 H6] [H7 H8]].
  split; split; congruence.
Qed.

Lemma frame_tx_stmt {A} (f : Store → result A * Store) :
  (∀ st, same_ledger st (f st).2) → frame (tx_stmt f).
Proof.
  intros Hf env c. unfold tx_stmt, call. destruct (tx_open c); [|done].
  destruct (fails env (calls c)); [done|]. simpl.
  specialize (Hf (work c)). by destruct (f (work c)).
Qed.

Lemma frame_db_write ids f r : frame (db_write ids f r).
Proof.
  intros env c. unfold db_write, call.
  destruct (fails env (calls c)); [done|]. simpl. by case_decide.
Qed.

Lemma frame_getMaterialById id : frame (getMaterialById id).
Proof. apply frame_tx_stmt. intros st. simpl. by destruct (materials st !! id). Qed.

Lemma frame_update_source q n id loc : frame (update_source q n id loc).
Proof.
  intros env c. unfold update_source.
  match goal with |- context [tx_stmt ?f env c] =>
    assert (frame (tx_stmt f)) as Hf
      by (apply frame_tx_stmt; intros st; simpl;
          destruct (materials st !! id); [case_decide|]; done);
    specialize (Hf env c); destruct (tx_stmt f env c) as [r c1]
  end.
  done.
Qed.

Lemma frame_update_destination q s l o : frame (update_destination q s l o).
Proof.
  apply frame_bind; [done|]. intros t. apply frame_db_write.
Qed.

Lemma frame_insert_destination row : frame (insert_destination row).
Proof.
  apply frame_bind; [done|]. intros t. apply frame_db_write.
Qed.

Lemma frame_deleteIncomingMaterial id : frame (deleteIncomingMaterial id).
Proof. by apply frame_tx_stmt. Qed.

(** *** The commands *)

Lemma step_createMaterial_end material materialId priceId :
  step (owes priceId (Qty material))
    (createMaterial_end material materialId priceId) (λ _, reconciled).
Proof.
  unfold createMaterial_end.
  eapply step_bind.
  { apply step_frame_rollback; [apply frame_deleteIncomingMaterial|].
    intros st st'. apply same_ledger_owes. }
  intros []. eapply step_bind.
  { apply step_spec. apply (spec_addTranscation
      {| trx_priceId := priceId; trx_qty := Qty material;
         trx_notes := Notes material; trx_jobTicket := EmptyString |}). }
  intros []. apply step_ret_reconciled.
Qed.

Lemma step_frame_rollback_reconciled {A} (m : M A) :
  frame m → step reconciled (or_rollback m) (λ _, reconciled).
Proof.
  intros Hm. apply step_frame_rollback; [done|]. apply same_ledger_reconciled.
Qed.

Lemma step_createMaterial_body material :
  step reconciled
    (incomingMaterial ← or_rollback (tx_stmt (λ st,
       match incoming_materials st !! MaterialID material with
       | Some r => (scan_incoming r, st)
       | None => (Err ErrNoRows, st)
       end));
     let here := at_location (im_StockID incomingMaterial) (LocationID material)
                   (im_Owner incomingMaterial) in
     materialId ← or_rollback (tx_stmt (λ st,
       (scan_ids (keys_where here (materials st)),
        set_materials
          (update_where here (add_qty_notes (Qty material) (Notes material))
             (materials st)) st)));
     if decide (materialId ≠ 0) then
       priceId ← or_rollback (upsertPrice
         {| priceId := 0; materialId := materialId; qty := Qty material;
            cost := im_Cost incomingMaterial |});
       createMaterial_end material materialId priceId
     else
       let limbo := unplaced (im_StockID incomingMaterial) (im_Owner incomingMaterial) in
       materialId ← or_rollback (tx_stmt (λ st,
         (scan_ids (keys_where limbo (materials st)), st)));
       materialId ←
         (if decide (materialId ≠ 0) then
            or_rollback (tx_stmt (λ st,
              (Ok (),
               set_materials
                 (alter (place (Qty material) (Notes material) (LocationID material))
                    materialId (materials st)) st)));;
            mret materialId
          else
            or_rollback (tx_stmt (λ st,
              let id := next_id (materials st) in
              (scan_int id,
               set_materials
                 (<[id := {| stock_id := im_StockID incomingMaterial;
                             location_id := Some (LocationID material);
                             customer_id := im_CustomerID incomingMaterial;
                             material_type := im_MaterialType incomingMaterial;
                             description := im_Description incomingMaterial;
                             notes := Notes material;
                             quantity := Qty material;
                             min_required_quantity := im_MinQty incomingMaterial;
                             max_required_quantity := im_MaxQty incomingMaterial;
                             is_active := im_IsActive incomingMaterial;
                             owner := im_Owner incomingMaterial;
                             is_primary := None |}]> (materials st)) st))));
       priceId ← or_rollback (upsertPrice
         {| priceId := 0; materialId := materialId; qty := Qty material;
            cost := im_Cost incomingMaterial |});
       createMaterial_end material materialId priceId)
    (λ _, reconciled).
Proof.
  eapply step_bind.
  { apply step_frame_rollback_reconciled, frame_tx_stmt.
    intros st. simpl. by destruct (incoming_materials st !! _). }
  intros incomingMaterial. cbv zeta. eapply step_bind.
  { by apply step_frame_rollback_reconciled, frame_tx_stmt. }
  intros materialId. case_decide.
  - eapply step_bind; [apply step_spec, spec_upsertPrice|]. intros priceId.
    apply step_createMaterial_end.
  - eapply step_bind.
    { by apply step_frame_rollback_reconciled, frame_tx_stmt. }
    intros materialId'. eapply step_bind.
    { case_decide.
      - eapply step_bind.
        { by apply step_frame_rollback_reconciled, frame_tx_stmt. }
        intros []. apply step_ret_reconciled.
      - by apply step_frame_rollback_reconciled, frame_tx_stmt. }
    intros materialId''.
    eapply step_bind; [apply step_spec, spec_upsertPrice|]. intros priceId.
    apply step_createMaterial_end.
Qed.

Lemma step_move_prices newMaterialId removedPrices :
  step reconciled (move_prices newMaterialId removedPrices) (λ _, reconciled).
Proof.
  induction removedPrices as [|p l IH]; simpl; [apply step_ret_reconciled|].
  eapply step_bind; [apply step_spec, spec_upsertPrice|]. intros priceId. simpl.
  eapply step_bind; [apply step_ask_now|]. intros t.
  eapply step_bind.
  { apply step_spec. apply (spec_addTranscation
      {| trx_priceId := priceId; trx_qty := qty p;
         trx_notes := "Moved FROM a Location";
         trx_jobTicket := "Auto-Ticket: " +:+ t |}). }
  intros []. apply IH.
Qed.

Lemma step_moveMaterial_prices newLocationId quantity' currMaterialId
    stockId owner' currNotes currMaterial :
  step reconciled
    (moveMaterial_prices newLocationId quantity' currMaterialId
       stockId owner' currNotes currMaterial) (λ _, reconciled).
Proof.
  unfold moveMaterial_prices.
  eapply step_bind; [apply step_ask_now|]. intros t.
  eapply step_bind; [apply step_spec, spec_removePricesFIFO|]. intros removedPrices.
  eapply step_bind; [apply step_frame, frame_update_destination|]. intros newMaterialId.
  eapply step_bind.
  { case_decide.
    - apply step_frame, frame_insert_destination.
    - apply step_ret_reconciled. }
  intros newMaterialId'. apply step_move_prices.
Qed.

Lemma deferred_retire_reconciled id env (c : Conn) :
  reconciled (committed c) → reconciled (work c) →
  reconciled (committed (deferred_retire id env c).2) ∧
  reconciled (work (deferred_retire id env c).2).
Proof.
  intros Hc Hw. unfold deferred_retire, or_rollback, tx_stmt, call.
  destruct (tx_open c); [|done]. destruct (fails env (calls c)); done.
Qed.

Lemma Commit_reconciled env (c : Conn) :
  reconciled (committed c) → reconciled (work c) →
  reconciled (committed (Commit env c).2).
Proof.
  intros Hc Hw. unfold Commit, call. destruct (tx_open c); [|done].
  destruct (fails env (calls c)); done.
Qed.

(** A command that begins a transaction, defers its Commit and runs a
    body that keeps the ledger reconciled leaves a reconciled store. *)
Lemma in_transaction_reconciled {A} (body : M A) env (s : Store) :
  step reconciled body (λ _, reconciled) →
  reconciled s →
  reconciled (run (BeginTx;; with_defer Commit body) env s).2.
Proof.
  intros Hb Hs. unfold run. rewrite bind_run, BeginTx_run. simpl calls.
  destruct (fails env 0%nat); [done|].
  unfold with_defer.
  match goal with |- context [body env ?c1] =>
    pose proof (Hb env c1 Hs Hs) as Hk; unfold wp in Hk;
    destruct (body env c1) as [[a|e|] c2]
  end; simpl in *; destruct Hk as [Hc Hw]; try done.
  - by apply Commit_reconciled.
  - by apply Commit_reconciled.
Qed.

Lemma createMaterial_reconciled material env (s : Store) :
  reconciled s → reconciled (run (createMaterial material) env s).2.
Proof. apply in_transaction_reconciled, step_createMaterial_body. Qed.

Lemma moveMaterial_reconciled material env (s : Store) :
  reconciled s → reconciled (run (moveMaterial material) env s).2.
Proof.
  apply in_transaction_reconciled.
  eapply step_bind; [apply step_frame, frame_getMaterialById|].
  intros currMaterial. cbv zeta. case_decide; [apply step_fail|].
  case_decide.
  - eapply step_bind.
    { apply step_frame_rollback_reconciled, frame_update_source. }
    intros currMaterial'. apply step_moveMaterial_prices.
  - case_decide.
    + apply step_with_defer; [apply step_moveMaterial_prices|].
      apply deferred_retire_reconciled.
    + apply step_moveMaterial_prices.
Qed.

Lemma removeMaterial_reconciled material env (s : Store) :
  reconciled s → reconciled (run (removeMaterial material) env s).2.
Proof.
  apply in_transaction_reconciled. cbv zeta.
  eapply step_bind.
  { apply step_frame_rollback_wrap, frame_getMaterialById. }
  intros currMaterial. case_decide; [apply step_fail|].
  eapply step_bind.
  { case_decide; by apply step_frame_rollback_reconciled, frame_tx_stmt. }
  intros []. eapply step_bind; [apply step_spec, spec_removePricesFIFO|].
  intros removedPrices. apply step_ret_reconciled.
Qed.

Lemma updateMaterial_reconciled material env (s : Store) :
  reconciled s → reconciled (run (updateMaterial material) env s).2.
Proof.
  intros Hs. unfold run, updateMaterial, call. simpl.
  destruct (fails env 0%nat); done.
Qed.

Lemma sendMaterial_reconciled material env (s : Store) :
  reconciled s → reconciled (run (sendMaterial material) env s).2.
Proof.
  intros Hs. unfold run, sendMaterial, call. simpl.
  destruct (fails env 0%nat); done.
Qed.

Lemma exec_reconciled cmd env (s : Store) :
  reconciled s → reconciled (exec cmd env s).2.
Proof.
  intros Hs. destruct cmd as [material|material|material|material]; simpl.
  - pose proof (createMaterial_reconciled material env s Hs) as H.
    by destruct (run (createMaterial material) env s) as [[a|e|] s'].
  - by apply moveMaterial_reconciled.
  - by apply removeMaterial_reconciled.
  - by apply updateMaterial_reconciled.
Qed.

Lemma reachable_reconciled (s : Store) : reachable s → reconciled s.
Proof.
  induction 1 as [|s material env r s' _ IH Hrun|s cmd env r s' _ IH _ Hrun].
  - split; [intros id row Hl; simpl in Hl; by rewrite lookup_empty in Hl|].
    intros t Ht. simpl in Ht. by apply elem_of_nil in Ht.
  - pose proof (sendMaterial_reconciled material env s IH) as H.
    by rewrite Hrun in H.
  - pose proof (exec_reconciled cmd env s IH) as H. by rewrite Hrun in H.
Qed.

(** C9, as the code has it. In every store that the engine can reach,
    the quantity of a lot is the sum of the deltas logged for it: the
    quantity a lot is created with is itself logged, as its first
    entry, and is not counted a second time. *)
Theorem ledger_reconciles (s : Store) id row :
  reachable s →
  prices s !! id = Some row →
  pr_quantity row = ledger_sum id (transactions_log s).
Proof. intros Hr. by apply (reachable_reconciled s Hr). Qed.

(** ** What every run keeps *)

Lemma same_record_refl r : same_record r r.
Proof. by repeat split. Qed.

Lemma same_record_sym r r' : same_record r r' → same_record r' r.
Proof. unfold same_record. intros (-> & -> & -> & -> & -> & -> & -> & ->). done. Qed.

Lemma same_record_trans r1 r2 r3 :
  same_record r1 r2 → same_record r2 r3 → same_record r1 r3.
Proof.
  unfold same_record. intros (<- & <- & <- & <- & <- & <- & <- & <-). done.
Qed.

Lemma same_record_set_row loc q n r : same_record r (set_row loc q n r).
Proof. by repeat split. Qed.

Lemma same_record_set_primary b r : same_record r (set_primary b r).
Proof. by repeat split. Qed.

Lemma records_kept_refl t : records_kept t t.
Proof. intros id r H. exists r. split; [done|apply same_record_refl]. Qed.

Lemma records_kept_trans t1 t2 t3 :
  records_kept t1 t2 → records_kept t2 t3 → records_kept t1 t3.
Proof.
  intros H1 H2 id r Hl. destruct (H1 id r Hl) as (r' & Hl' & Hs).
  destruct (H2 id r' Hl') as (r'' & Hl'' & Hs').
  exists r''. split; [done|by eapply same_record_trans].
Qed.

Lemma records_kept_alter g id t :
  (∀ r, same_record r (g r)) → records_kept t (alter g id t).
Proof.
  intros Hg k r Hl. rewrite lookup_alter. case_decide.
  - subst. rewrite Hl. simpl. by eexists.
  - exists r. split; [done|apply same_record_refl].
Qed.

Lemma records_kept_update_where P `{!∀ a, Decision (P a)} f t :
  (∀ r, same_record r (f r)) → records_kept t (update_where P f t).
Proof.
  intros Hf k r Hl. unfold update_where. rewrite lookup_fmap, Hl. simpl.
  eexists. split; [done|]. case_decide; [apply Hf|apply same_record_refl].
Qed.

Lemma records_kept_insert_new id r t :
  t !! id = None → records_kept t (<[id := r]> t).
Proof.
  intros Hn k r' Hl. exists r'. split; [|apply same_record_refl].
  rewrite lookup_insert_ne; [done|]. intros ->. by rewrite Hn in Hl.
Qed.

Lemma records_kept_insert id r r' t :
  t !! id = Some r → same_record r r' → records_kept t (<[id := r']> t).
Proof.
  intros Hr Hs k r0 Hl. destruct (decide (id = k)) as [<-|Hne].
  - rewrite lookup_insert_eq. simplify_eq. by eexists.
  - rewrite lookup_insert_ne by done. exists r0. split; [done|apply same_record_refl].
Qed.

Lemma records_kept_alter_all g ids ta tb :
  (∀ r, same_record r (g r)) → records_kept ta tb →
  records_kept (foldr (alter g) ta ids) (foldr (alter g) tb ids).
Proof.
  intros Hg Hk. induction ids as [|k ids IH]; simpl; [done|].
  intros id r. rewrite !lookup_alter. case_decide.
  - subst. intros (r0 & Hl & ->)%fmap_Some.
    destruct (IH _ _ Hl) as (r0' & -> & Hs). simpl. eexists. split; [done|].
    eapply same_record_trans; [apply same_record_sym, Hg|].
    eapply same_record_trans; [exact Hs|apply Hg].
  - apply IH.
Qed.

Lemma lots_kept_refl (st : Store) : lots_kept st st.
Proof. intros id row H. by exists row. Qed.

Lemma lots_kept_trans (s1 s2 s3 : Store) :
  lots_kept s1 s2 → lots_kept s2 s3 → lots_kept s1 s3.
Proof.
  intros H1 H2 id row Hl. destruct (H1 id row Hl) as (row' & Hl' & Hm & Hc).
  destruct (H2 id row' Hl') as (row'' & Hl'' & Hm' & Hc').
  exists row''. split; [done|]. split; congruence.
Qed.

Lemma continues_refl (st : Store) : continues st st.
Proof. split; [done|]. split; [apply lots_kept_refl|apply records_kept_refl]. Qed.

Lemma continues_trans (s1 s2 s3 : Store) :
  continues s1 s2 → continues s2 s3 → continues s1 s3.
Proof.
  intros (Hl & Hp & Hm) (Hl' & Hp' & Hm'). split; [by etrans|].
  split; [by eapply lots_kept_trans|by eapply records_kept_trans].
Qed.

Lemma write_continues (st st' : Store) : write st st' → continues st st'.
Proof.
  destruct 1 as [st|st id row d Hrow|st id row Hnew _|st t|st t' Hk|st t'].
  - apply continues_refl.
  - split; [done|]. split; [|apply records_kept_refl].
    intros k row' Hl. simpl. destruct (decide (id = k)) as [<-|Hne].
    + rewrite lookup_insert_eq. simplify_eq. by eexists.
    + rewrite lookup_insert_ne by done. by exists row'.
  - split; [done|]. split; [|apply records_kept_refl].
    intros k row' Hl. simpl. exists row'. split; [|done].
    rewrite lookup_insert_ne; [done|]. intros ->. by rewrite Hnew in Hl.
  - split; [by apply prefix_app_r|].
    split; [by intros k row Hl; exists row|apply records_kept_refl].
  - split; [done|]. split; [by intros k row Hl; exists row|done].
  - split; [done|].
    split; [by intros k row Hl; exists row|apply records_kept_refl].
Qed.

(** From where a run started, what is committed continues it, and what
    the transaction sees continues what is committed. *)
Lemma closed_continues (s0 : Store) :
  closed (λ a b, continues s0 a ∧ continues a b).
Proof.
  split.
  - intros a b [H0 _]. split; [done|apply continues_refl].
  - intros a b [H0 H1]. split; [by eapply continues_trans|apply continues_refl].
  - intros a b b' [H0 H1] Hw. split; [done|].
    eapply continues_trans; [done|by apply write_continues].
  - intros a b g ids [H0 (Hl & Hp & Hm)] Hg. split.
    + eapply continues_trans; [done|]. apply write_continues, write_materials.
      clear Hm. induction ids as [|k ids IH]; simpl; [apply records_kept_refl|].
      eapply records_kept_trans; [exact IH|by apply records_kept_alter].
    + split; [done|]. split; [done|]. by apply records_kept_alter_all.
  - intros a b id row [H0 (Hl & Hp & Hm)] Hnew. split.
    + eapply continues_trans; [done|].
      by apply write_continues, write_materials, records_kept_insert_new.
    + split; [done|]. split; [done|]. simpl. intros k r.
      destruct (decide (id = k)) as [<-|Hne].
      * rewrite !lookup_insert_eq. intros [= <-]. eexists. split; [done|].
        apply same_record_refl.
      * rewrite !lookup_insert_ne by done. apply Hm.
Qed.

Lemma write_lots_unique (st st' : Store) :
  write st st' → lots_unique st → lots_unique st'.
Proof.
  destruct 1 as [st|st id row d Hrow|st id row Hnew Hfree|st t|st t' Hk|st t'];
    try done.
  - intros Hu i j ri rj Hi Hj Hm Hc. simpl in Hi, Hj.
    assert (∀ k rk, <[id := add_quantity d row]> (prices st) !! k = Some rk →
              ∃ rk', prices st !! k = Some rk' ∧
                     pr_material_id rk' = pr_material_id rk ∧
                     pr_cost rk' = pr_cost rk) as Hold.
    { intros k rk. destruct (decide (id = k)) as [<-|Hne].
      - rewrite lookup_insert_eq. intros [= <-]. by exists row.
      - rewrite lookup_insert_ne by done. intros Hk. by exists rk. }
    destruct (Hold i ri Hi) as (ri' & Hi' & ? & ?).
    destruct (Hold j rj Hj) as (rj' & Hj' & ? & ?).
    apply (Hu i j ri' rj'); congruence.
  - intros Hu i j ri rj Hi Hj Hm Hc. simpl in Hi, Hj.
    destruct (decide (id = i)) as [Ei|Ni], (decide (id = j)) as [Ej|Nj].
    + congruence.
    + subst i. rewrite lookup_insert_eq in Hi. rewrite lookup_insert_ne in Hj by done.
      simplify_eq. destruct (Hfree j rj Hj). by split.
    + subst j. rewrite lookup_insert_eq in Hj. rewrite lookup_insert_ne in Hi by done.
      simplify_eq. destruct (Hfree i ri Hi). by split.
    + rewrite lookup_insert_ne in Hi by done. rewrite lookup_insert_ne in Hj by done.
      by apply (Hu i j ri rj).
Qed.

Lemma closed_lots_unique : closed (λ a b : Store, lots_unique a ∧ lots_unique b).
Proof.
  split.
  - by intros a b [H0 _].
  - by intros a b [_ H1].
  - intros a b b' [H0 H1] Hw. split; [done|by eapply write_lots_unique].
  - by intros a b g ids [H0 H1] _.
  - by intros a b id row [H0 H1] _.
Qed.

Section Closed.

Context (K : Store → Store → Prop) (HK : closed K).

Lemma preserves_ret {A} (a : A) : preserves (holds K) (mret a : M A).
Proof. by intros env c H. Qed.

Lemma preserves_fail {A} e : preserves (holds K) (fail e : M A).
Proof. by intros env c H. Qed.

Lemma preserves_ask_now : preserves (holds K) ask_now.
Proof. by intros env c H. Qed.

Lemma preserves_bind {A B} (m : M A) (f : A → M B) :
  preserves (holds K) m → (∀ a, preserves (holds K) (f a)) →
  preserves (holds K) (m ≫= f).
Proof.
  intros Hm Hf env c H. rewrite bind_run. specialize (Hm env c H).
  destruct (m env c) as [[a|e|] c1]; simpl in *; [by apply Hf|done..].
Qed.

Lemma preserves_Rollback : preserves (holds K) Rollback.
Proof. intros env c H. unfold holds in *. simpl. by eapply (closed_sync K HK). Qed.

Lemma preserves_or_rollback {A} (m : M A) :
  preserves (holds K) m → preserves (holds K) (or_rollback m).
Proof.
  intros Hm env c H. unfold or_rollback. specialize (Hm env c H).
  destruct (m env c) as [[a|e|] c1]; simpl in *; try done.
  by apply (preserves_Rollback env c1).
Qed.

Lemma preserves_or_rollback_wrap {A} msg (m : M A) :
  preserves (holds K) m → preserves (holds K) (or_rollback_wrap msg m).
Proof.
  intros Hm env c H. unfold or_rollback_wrap. specialize (Hm env c H).
  destruct (m env c) as [[a|e|] c1]; simpl in *; try done.
  by apply (preserves_Rollback env c1).
Qed.

Lemma preserves_with_defer {A B} (d : M B) (m : M A) :
  preserves (holds K) d → preserves (holds K) m →
  preserves (holds K) (with_defer d m).
Proof.
  intros Hd Hm env c H. unfold with_defer. specialize (Hm env c H).
  destruct (m env c) as [[a|e|] c1]; simpl in *; try done; by apply Hd.
Qed.

Lemma preserves_range {A} m (body : list (Z * Price) → M A) :
  (∀ entries, preserves (holds K) (body entries)) →
  preserves (holds K) (range m body).
Proof. intros Hb env c H. by apply Hb. Qed.

Lemma preserves_BeginTx : preserves (holds K) BeginTx.
Proof.
  intros env c H. rewrite BeginTx_run. destruct (fails env (calls c)); [done|].
  unfold holds in *. simpl. by eapply (closed_sync K HK).
Qed.

Lemma preserves_Commit : preserves (holds K) Commit.
Proof.
  intros env c H. unfold Commit, call. destruct (tx_open c); [|done].
  unfold holds in *. destruct (fails env (calls c)); simpl.
  - by eapply (closed_sync K HK).
  - by eapply (closed_commit K HK).
Qed.

Lemma preserves_tx_stmt {A} (f : Store → result A * Store) :
  (∀ st, write st (f st).2) → preserves (holds K) (tx_stmt f).
Proof.
  intros Hf env c H. unfold tx_stmt, call. destruct (tx_open c); [|done].
  destruct (fails env (calls c)); [done|]. simpl. specialize (Hf (work c)).
  destruct (f (work c)) as [r w]. unfold holds in *. simpl in *.
  by eapply (closed_write K HK).
Qed.

Lemma preserves_updatePriceQty p : preserves (holds K) (updatePriceQty p).
Proof.
  apply preserves_tx_stmt. intros st.
  destruct (prices st !! priceId p) as [row|] eqn:Hrow; simpl.
  - by apply write_lot_quantity.
  - apply write_nothing.
Qed.

Lemma preserves_upsertPrice p : preserves (holds K) (upsertPrice p).
Proof.
  apply preserves_tx_stmt. intros st.
  destruct (map_to_list _) as [|[id row] l] eqn:Hl; simpl.
  - apply (write_lot_new st _
      {| pr_material_id := materialId p; pr_quantity := qty p;
         pr_cost := cost p; created_with := qty p |}); [apply next_id_fresh|].
    simpl. intros j r Hj Hsame. apply map_to_list_empty_iff in Hl.
    assert (filter (same_lot (materialId p) (cost p)) (prices st) !! j = Some r) as Hin
      by by apply map_lookup_filter_Some.
    by rewrite Hl, lookup_empty in Hin.
  - apply write_lot_quantity.
    assert ((id, row) ∈ map_to_list
              (filter (same_lot (materialId p) (cost p)) (prices st))) as Hin
      by (rewrite Hl; by left).
    apply elem_of_map_to_list, map_lookup_filter_Some in Hin. apply Hin.
Qed.

Lemma preserves_addTranscation t : preserves (holds K) (addTranscation t).
Proof. apply preserves_tx_stmt. intros st. apply write_log. Qed.

Lemma preserves_getMaterialPrices materialId :
  preserves (holds K) (getMaterialPrices materialId).
Proof. apply preserves_tx_stmt. intros st. apply write_nothing. Qed.

Lemma preserves_getMaterialById materialId :
  preserves (holds K) (getMaterialById materialId).
Proof.
  apply preserves_tx_stmt. intros st.
  destruct (materials st !! materialId); apply write_nothing.
Qed.

Lemma preserves_fifo_loop notes jobTicket entries remainingQty removedPrices :
  preserves (holds K) (fifo_loop notes jobTicket entries remainingQty removedPrices).
Proof.
  revert remainingQty removedPrices.
  induction entries as [|[id p] entries IH]; intros remainingQty removedPrices; simpl.
  { apply preserves_ret. }
  case_decide.
  - apply preserves_bind; [apply preserves_updatePriceQty|]. intros cost'.
    apply preserves_bind; [apply preserves_addTranscation|]. intros ?.
    apply preserves_ret.
  - apply preserves_bind; [apply preserves_updatePriceQty|]. intros cost'.
    apply preserves_bind; [apply preserves_addTranscation|]. intros ?. apply IH.
Qed.

Lemma preserves_removePricesFIFO p : preserves (holds K) (removePricesFIFO p).
Proof.
  apply preserves_bind; [apply preserves_getMaterialPrices|]. intros m.
  apply preserves_range. intros entries. apply preserves_fifo_loop.
Qed.

Lemma preserves_move_prices newMaterialId removedPrices :
  preserves (holds K) (move_prices newMaterialId removedPrices).
Proof.
  induction removedPrices as [|p l IH]; simpl; [apply preserves_ret|].
  apply preserves_bind; [apply preserves_or_rollback, preserves_upsertPrice|].
  intros priceId.
  apply preserves_bind; [apply preserves_ask_now|]. intros t.
  apply preserves_bind; [apply preserves_or_rollback, preserves_addTranscation|].
  intros ?. apply IH.
Qed.

Lemma preserves_update_source q n id loc :
  preserves (holds K) (update_source q n id loc).
Proof.
  intros env c H. unfold update_source.
  match goal with |- context [tx_stmt ?f env c] =>
    assert (preserves (holds K) (tx_stmt f)) as Hf;
    [|specialize (Hf env c H); by destruct (tx_stmt f env c) as [r c1]]
  end.
  apply preserves_tx_stmt. intros st.
  destruct (materials st !! id) as [r|] eqn:Hr; [|apply write_nothing].
  case_decide; [|apply write_nothing]. simpl.
  apply write_materials. eapply records_kept_insert; [done|].
  apply same_record_set_row.
Qed.

Lemma preserves_update_destination q s l o :
  preserves (holds K) (update_destination q s l o).
Proof.
  intros env c H. unfold update_destination. rewrite bind_run. simpl.
  unfold db_write, call. destruct (fails env (calls c)); [done|]. simpl.
  case_decide; [done|]. unfold holds in *. simpl.
  apply (closed_db_alter K HK); [done|]. intros r. apply same_record_set_row.
Qed.

Lemma preserves_insert_destination row :
  preserves (holds K) (insert_destination row).
Proof.
  intros env c H. unfold insert_destination. rewrite bind_run. simpl.
  unfold db_write, call. destruct (fails env (calls c)); [done|]. simpl.
  unfold holds in *. simpl.
  apply (closed_db_insert K HK); [done|]. apply next_id_fresh.
Qed.

Lemma preserves_deferred_retire id : preserves (holds K) (deferred_retire id).
Proof.
  apply preserves_or_rollback, preserves_tx_stmt. intros st. simpl.
  apply write_materials, records_kept_alter. intros r. apply same_record_set_row.
Qed.

Lemma preserves_moveMaterial_prices newLocationId quantity' currMaterialId
    stockId owner' currNotes currMaterial :
  preserves (holds K)
    (moveMaterial_prices newLocationId quantity' currMaterialId
       stockId owner' currNotes currMaterial).
Proof.
  unfold moveMaterial_prices.
  apply preserves_bind; [apply preserves_ask_now|]. intros t.
  apply preserves_bind; [apply preserves_or_rollback, preserves_removePricesFIFO|].
  intros removedPrices.
  apply preserves_bind; [apply preserves_update_destination|]. intros newMaterialId.
  apply preserves_bind.
  { case_decide; [apply preserves_insert_destination|apply preserves_ret]. }
  intros newMaterialId'. apply preserves_move_prices.
Qed.

Lemma preserves_createMaterial_end material materialId priceId :
  preserves (holds K) (createMaterial_end material materialId priceId).
Proof.
  unfold createMaterial_end.
  apply preserves_bind.
  { apply preserves_or_rollback, preserves_tx_stmt. intros st. apply write_incoming. }
  intros ?.
  apply preserves_bind; [apply preserves_or_rollback, preserves_addTranscation|].
  intros ?. apply preserves_ret.
Qed.

Lemma preserves_createMaterial material :
  preserves (holds K) (createMaterial material).
Proof.
  unfold createMaterial.
  apply preserves_bind; [apply preserves_BeginTx|]. intros ?.
  apply preserves_with_defer; [apply preserves_Commit|].
  apply preserves_bind.
  { apply preserves_or_rollback, preserves_tx_stmt. intros st. simpl.
    destruct (incoming_materials st !! _); apply write_nothing. }
  intros incomingMaterial. cbv zeta.
  apply preserves_bind.
  { apply preserves_or_rollback, preserves_tx_stmt. intros st. simpl.
    apply write_materials, records_kept_update_where.
    intros r. apply same_record_set_row. }
  intros materialId. case_decide.
  - apply preserves_bind; [apply preserves_or_rollback, preserves_upsertPrice|].
    intros priceId. apply preserves_createMaterial_end.
  - apply preserves_bind.
    { apply preserves_or_rollback, preserves_tx_stmt. intros st. apply write_nothing. }
    intros materialId'. apply preserves_bind.
    { case_decide.
      - apply preserves_bind; [|intros ?; apply preserves_ret].
        apply preserves_or_rollback, preserves_tx_stmt. intros st. simpl.
        apply write_materials, records_kept_alter. intros r. apply same_record_set_row.
      - apply preserves_or_rollback, preserves_tx_stmt. intros st. simpl.
        apply write_materials, records_kept_insert_new, next_id_fresh. }
    intros materialId''.
    apply preserves_bind; [apply preserves_or_rollback, preserves_upsertPrice|].
    intros priceId. apply preserves_createMaterial_end.
Qed.

Lemma preserves_moveMaterial material :
  preserves (holds K) (moveMaterial material).
Proof.
  unfold moveMaterial.
  apply preserves_bind; [apply preserves_BeginTx|]. intros ?.
  apply preserves_with_defer; [apply preserves_Commit|].
  apply preserves_bind; [apply preserves_getMaterialById|].
  intros currMaterial. cbv zeta. case_decide; [apply preserves_fail|].
  case_decide.
  - apply preserves_bind; [apply preserves_or_rollback, preserves_update_source|].
    intros currMaterial'. apply preserves_moveMaterial_prices.
  - case_decide.
    + apply preserves_with_defer; [apply preserves_deferred_retire|].
      apply preserves_moveMaterial_prices.
    + apply preserves_moveMaterial_prices.
Qed.

Lemma preserves_removeMaterial material :
  preserves (holds K) (removeMaterial material).
Proof.
  unfold removeMaterial.
  apply preserves_bind; [apply preserves_BeginTx|]. intros ?.
  apply preserves_with_defer; [apply preserves_Commit|]. cbv zeta.
  apply preserves_bind.
  { apply preserves_or_rollback_wrap, preserves_getMaterialById. }
  intros currMaterial. case_decide; [apply preserves_fail|].
  apply preserves_bind.
  { case_decide; apply preserves_or_rollback, preserves_tx_stmt; intros st; simpl;
      apply write_materials, records_kept_alter; intros r; apply same_record_set_row. }
  intros ?.
  apply preserves_bind; [apply preserves_or_rollback, preserves_removePricesFIFO|].
  intros removedPrices. apply preserves_ret.
Qed.

Lemma preserves_updateMaterial material :
  preserves (holds K) (updateMaterial material).
Proof.
  intros env c H. unfold updateMaterial, call.
  destruct (fails env (calls c)); [done|]. unfold holds in *. simpl.
  apply (closed_commit K HK (committed c) _).
  apply (closed_write K HK (committed c) (committed c));
    [by eapply (closed_sync K HK)|].
  apply write_materials, records_kept_alter. intros r. apply same_record_set_primary.
Qed.

Lemma preserves_sendMaterial material :
  preserves (holds K) (sendMaterial material).
Proof.
  intros env c H. unfold sendMaterial, call.
  destruct (fails env (calls c)); [done|]. unfold holds in *. simpl.
  apply (closed_commit K HK (committed c) _).
  apply (closed_write K HK (committed c) (committed c));
    [by eapply (closed_sync K HK)|].
  apply write_incoming.
Qed.

Lemma run_holds {A} (m : M A) env (s : Store) :
  preserves (holds K) m → K s s → K (run m env s).2 (run m env s).2.
Proof.
  intros Hm Hs. unfold run. specialize (Hm env (start s) Hs).
  destruct (m env (start s)) as [r c]. simpl in *. by eapply (closed_sync K HK).
Qed.

Lemma exec_holds cmd env (s : Store) : K s s → K (exec cmd env s).2 (exec cmd env s).2.
Proof.
  intros Hs. destruct cmd as [material|material|material|material]; simpl.
  - pose proof (run_holds _ env s (preserves_createMaterial material) Hs) as H.
    by destruct (run (createMaterial material) env s) as [[a|e|] s'].
  - apply run_holds; [apply preserves_moveMaterial|done].
  - apply run_holds; [apply preserves_removeMaterial|done].
  - apply run_holds; [apply preserves_updateMaterial|done].
Qed.

Lemma follows_holds (s s' : Store) : follows s s' → K s s → K s' s'.
Proof.
  induction 1 as [s|s s1 material env r s' _ IH Hrun|s s1 cmd env r s' _ IH Hrun];
    intros Hs; [done| |].
  - pose proof (run_holds _ env s1 (preserves_sendMaterial material) (IH Hs)) as H.
    by rewrite Hrun in H.
  - pose proof (exec_holds cmd env s1 (IH Hs)) as H. by rewrite Hrun in H.
Qed.

End Closed.

Lemma follows_continues (s s' : Store) : follows s s' → continues s s'.
Proof.
  intros H.
  apply (follows_holds _ (closed_continues s) s s' H).
  split; apply continues_refl.
Qed.

Lemma reachable_follows (s : Store) : reachable s → follows empty_store s.
Proof.
  induction 1 as [|s material env r s' _ IH Hrun|s cmd env r s' _ IH _ Hrun].
  - apply follows_refl.
  - by eapply follows_intake.
  - by eapply follows_exec.
Qed.

(** X1. The log is append-only: whatever submissions and commands run,
    with whatever faults, the log before them is the beginning of the
    log after them. No entry is ever removed or rewritten. *)
Theorem log_is_append_only (s s' : Store) :
  follows s s' → transactions_log s `prefix_of` transactions_log s'.
Proof. intros H. apply (follows_continues s s' H). Qed.

(** X2. A lot is never deleted, never given to another material and
    never re-costed: after any submissions and commands, every lot is
    still there under its key, with the material and the cost it had. *)
Theorem lots_are_kept (s s' : Store) id row :
  follows s s' → prices s !! id = Some row →
  ∃ row', prices s' !! id = Some row' ∧
          pr_material_id row' = pr_material_id row ∧ pr_cost row' = pr_cost row.
Proof. intros H. apply (follows_continues s s' H). Qed.

(** X3. A record of [materials] is never deleted, and the engine writes
    only its quantity, notes, location and primary flag: after any
    submissions and commands, every record is still there under its
    key, with its stock id, owner, customer, type, description, bounds
    and active flag. *)
Theorem records_are_kept (s s' : Store) id r :
  follows s s' → materials s !! id = Some r →
  ∃ r', materials s' !! id = Some r' ∧
        stock_id r' = stock_id r ∧ owner r' = owner r ∧
        customer_id r' = customer_id r ∧ material_type r' = material_type r ∧
        description r' = description r ∧
        min_required_quantity r' = min_required_quantity r ∧
        max_required_quantity r' = max_required_quantity r ∧
        is_active r' = is_active r.
Proof.
  intros H Hr. destruct (follows_continues s s' H) as (_ & _ & Hk).
  destruct (Hk id r Hr) as (r' & Hr' & Hs). exists r'. split; [done|].
  unfold same_record in Hs. tauto.
Qed.

(** X4. In every store that the engine can reach there is one lot at
    most for a material and a cost: [upsertPrice] never creates a second
    one, so the row that its ON CONFLICT clause updates is determined. *)
Theorem one_lot_per_material_and_cost (s : Store) :
  reachable s → lots_unique s.
Proof.
  intros H. apply reachable_follows in H.
  assert (lots_unique s ∧ lots_unique s) as [Hu _]; [|done].
  apply (follows_holds _ closed_lots_unique _ _ H).
  split; intros ???? Hl; simpl in Hl; by rewrite lookup_empty in Hl.
Qed.

(** X5. In every store that the engine can reach, every entry of the
    log names a lot that exists. *)
Theorem log_entries_name_lots (s : Store) t :
  reachable s → t ∈ transactions_log s → is_Some (prices s !! trx_priceId t).
Proof. intros Hr. by apply (reachable_reconciled s Hr). Qed.

(** ** Commands that fail clean *)

#[local] Abbreviation tx_only := (@tx_only float64).
#[local] Abbreviation fails_clean := (@fails_clean float64).

Lemma tx_only_ret {A} (a : A) : tx_only (mret a : M A).
Proof. intros env c. by apply wp_ret. Qed.

Lemma tx_only_bind {A B} (m : M A) (f : A → M B) :
  tx_only m → (∀ a, tx_only (f a)) → tx_only (m ≫= f).
Proof.
  intros Hm Hf env c. apply wp_bind. eapply wp_mono; [apply Hm|].
  intros [a|e|] c1 (Hc & Hl & Hb); simpl; [|done..].
  eapply wp_mono; [apply Hf|]. intros r c2 (-> & -> & ?). done.
Qed.

Lemma tx_only_tx_stmt {A} (f : Store → result A * Store) :
  (∀ st, (f st).1 ≠ Blocked) → tx_only (tx_stmt f).
Proof.
  intros Hf env c. apply wp_tx_stmt; [done|done|]. intros _ _. simpl.
  split; [done|]. split; [done|apply Hf].
Qed.

Lemma scan_int_no_block z : scan_int z ≠ Blocked.
Proof. unfold scan_int. by case_decide. Qed.

Lemma scan_ids_no_block ids : scan_ids ids ≠ Blocked.
Proof. unfold scan_ids. by case_decide. Qed.

Lemma scan_material_no_block id (r : materials_row) : scan_material id r ≠ Blocked.
Proof. unfold scan_material. destruct (location_id r); [by case_decide|done]. Qed.

Lemma scan_incoming_no_block (r : IncomingMaterialDB) : scan_incoming r ≠ Blocked.
Proof. unfold scan_incoming. by case_decide. Qed.

Lemma tx_only_updatePriceQty p : tx_only (updatePriceQty p).
Proof. apply tx_only_tx_stmt. intros st. by destruct (prices st !! _). Qed.

Lemma tx_only_upsertPrice p : tx_only (upsertPrice p).
Proof.
  apply tx_only_tx_stmt. intros st.
  destruct (map_to_list _) as [|[??]?]; apply scan_int_no_block.
Qed.

Lemma tx_only_addTranscation t : tx_only (addTranscation t).
Proof. by apply tx_only_tx_stmt. Qed.

Lemma tx_only_getMaterialPrices materialId : tx_only (getMaterialPrices materialId).
Proof. apply tx_only_tx_stmt. intros st. apply scan_prices_no_block. Qed.

Lemma tx_only_getMaterialById materialId : tx_only (getMaterialById materialId).
Proof.
  apply tx_only_tx_stmt. intros st.
  destruct (materials st !! _); [|done]. simpl. unfold scan_columns.
  case_decide; [apply scan_material_no_block|done].
Qed.

Lemma tx_only_fifo_loop notes jobTicket entries remainingQty removedPrices :
  tx_only (fifo_loop notes jobTicket entries remainingQty removedPrices).
Proof.
  revert remainingQty removedPrices.
  induction entries as [|[id p] entries IH]; intros remainingQty removedPrices; simpl.
  { apply tx_only_ret. }
  case_decide.
  - apply tx_only_bind; [apply tx_only_updatePriceQty|]. intros cost'.
    apply tx_only_bind; [apply tx_only_addTranscation|]. intros ?. apply tx_only_ret.
  - apply tx_only_bind; [apply tx_only_updatePriceQty|]. intros cost'.
    apply tx_only_bind; [apply tx_only_addTranscation|]. intros ?. apply IH.
Qed.

Lemma tx_only_removePricesFIFO p : tx_only (removePricesFIFO p).
Proof.
  apply tx_only_bind; [apply tx_only_getMaterialPrices|]. intros m env c.
  apply wp_range. apply tx_only_fifo_loop.
Qed.

Lemma fails_clean_ret {A} (a : A) : fails_clean (mret a : M A).
Proof. intros env c. by apply wp_ret. Qed.

Lemma fails_clean_bind {A B} (m : M A) (f : A → M B) :
  fails_clean m → (∀ a, fails_clean (f a)) → fails_clean (m ≫= f).
Proof.
  intros Hm Hf env c. apply wp_bind. eapply wp_mono; [apply Hm|].
  intros [a|e|] c1 (Hc & Hr); simpl; [|done..].
  eapply wp_mono; [apply Hf|]. intros r c2 (-> & ?). done.
Qed.

Lemma fails_clean_or_rollback {A} (m : M A) : tx_only m → fails_clean (or_rollback m).
Proof.
  intros Hm env c. apply wp_or_rollback. eapply wp_mono; [apply Hm|].
  intros [a|e|] c1 (Hc & Hl & Hb); simpl; done.
Qed.

Lemma fails_clean_createMaterial_end material materialId priceId :
  fails_clean (createMaterial_end material materialId priceId).
Proof.
  unfold createMaterial_end. apply fails_clean_bind.
  { apply fails_clean_or_rollback. by apply tx_only_tx_stmt. }
  intros ?. apply fails_clean_bind.
  { apply fails_clean_or_rollback, tx_only_addTranscation. }
  intros ?. apply fails_clean_ret.
Qed.

(** A command that begins a transaction, defers its Commit and runs a
    body that fails clean leaves the store as it was when it returns an
    error, and it comes back. *)
Lemma in_transaction_all_or_nothing {A} (body : M A) env (s : Store) :
  fails_clean body →
  (run (BeginTx;; with_defer Commit body) env s).1 ≠ Blocked ∧
  ∀ e s', run (BeginTx;; with_defer Commit body) env s = (Err e, s') → s' = s.
Proof.
  intros Hb. unfold run. rewrite bind_run, BeginTx_run. simpl calls.
  destruct (fails env 0%nat).
  { split; [done|]. by intros e s' [= _ <-]. }
  unfold with_defer.
  match goal with |- context [body env ?c1] =>
    pose proof (Hb env c1) as Hk; unfold wp in Hk;
    destruct (body env c1) as [[a|e|] c2]
  end; simpl in *; destruct Hk as [Hc Hr]; try done.
  split; [done|]. intros e' s' [= _ <-]. unfold Commit. by rewrite Hr.
Qed.

Lemma getMaterialById_reads id env (c : Conn) cur c' :
  getMaterialById id env c = (Ok cur, c') → work c' = work c ∧ tx_open c' = true.
Proof.
  intros H. apply tx_stmt_Ok in H as (_ & _ & Hf & Ho & _). split; [|done].
  destruct (materials (work c) !! id); by simplify_eq.
Qed.

(** The body of [createMaterial] fails clean: every error is followed by
    a rollback. *)
Ltac createMaterial_fails_clean :=
  apply fails_clean_bind;
  [ apply fails_clean_or_rollback, tx_only_tx_stmt; intros st; simpl;
    destruct (incoming_materials st !! _); [apply scan_incoming_no_block|done]
  | intros incomingMaterial; cbv zeta; apply fails_clean_bind;
    [ apply fails_clean_or_rollback, tx_only_tx_stmt; intros st;
      apply scan_ids_no_block
    | intros materialId; case_decide;
      [ apply fails_clean_bind;
        [ apply fails_clean_or_rollback, tx_only_upsertPrice
        | intros priceId; apply fails_clean_createMaterial_end ]
      | apply fails_clean_bind;
        [ apply fails_clean_or_rollback, tx_only_tx_stmt; intros st;
          apply scan_ids_no_block
        | intros materialId'; apply fails_clean_bind;
          [ case_decide;
            [ apply fails_clean_bind; [|intros ?; apply fails_clean_ret];
              by apply fails_clean_or_rollback, tx_only_tx_stmt
            | apply fails_clean_or_rollback, tx_only_tx_stmt; intros st;
              apply scan_int_no_block ]
          | intros materialId''; apply fails_clean_bind;
            [ apply fails_clean_or_rollback, tx_only_upsertPrice
            | intros priceId; apply fails_clean_createMaterial_end ] ] ] ] ] ].

(** X6. [createMaterial] is all or nothing: it always comes back, and
    whenever it returns an error, whichever store call failed, the store
    is as it was before the call. *)
Theorem createMaterial_is_all_or_nothing material env (s : Store) :
  (run (createMaterial material) env s).1 ≠ Blocked ∧
  ∀ e s', run (createMaterial material) env s = (Err e, s') → s' = s.
Proof. apply in_transaction_all_or_nothing. createMaterial_fails_clean. Qed.

(** X7. [removeMaterial] is all or nothing: it always comes back, and
    whenever it returns an error the store is as it was before the call.
    The one error that it returns without a rollback, for a quantity
    above the actual one, comes before anything is written. *)
Theorem removeMaterial_is_all_or_nothing material env (s : Store) :
  (run (removeMaterial material) env s).1 ≠ Blocked ∧
  ∀ e s', run (removeMaterial material) env s = (Err e, s') → s' = s.
Proof.
  cut (match run (removeMaterial material) env s with
       | (Ok _, _) => True
       | (Err _, s') => s' = s
       | (Blocked, _) => False
       end).
  { destruct (run (removeMaterial material) env s) as [[a|e|] s1]; intros H;
      (split; [done|]); intros e' s' [= ]; congruence. }
  unfold run, removeMaterial. rewrite bind_run, BeginTx_run. simpl calls.
  destruct (fails env 0%nat); [done|].
  unfold with_defer. cbv zeta. rewrite bind_run.
  unfold or_rollback_wrap.
  match goal with |- context [getMaterialById ?id env ?c1] =>
    pose proof (getMaterialById_reads id env c1) as Hget;
    pose proof (tx_only_getMaterialById id env c1) as Hk; unfold wp in Hk;
    destruct (getMaterialById id env c1) as [[cur|e|] c2]
  end; simpl in Hk; destruct Hk as (Hc & _ & Hb); [| |done].
  - destruct (Hget cur c2 eq_refl) as [Hw Ho]. simpl in Hw.
    case_decide.
    + unfold fail. rewrite Commit_clean; [done|congruence].
    + match goal with |- context [(?m ≫= ?f) env c2] =>
        assert (fails_clean (m ≫= f)) as Hrest
      end.
      { apply fails_clean_bind.
        { case_decide; by apply fails_clean_or_rollback, tx_only_tx_stmt. }
        intros ?. apply fails_clean_bind.
        { apply fails_clean_or_rollback, tx_only_removePricesFIFO. }
        intros ?. apply fails_clean_ret. }
      match goal with |- context [(?m ≫= ?f) env c2] =>
        specialize (Hrest env c2); unfold wp in Hrest;
        destruct ((m ≫= f) env c2) as [[a|e|] c3]
      end; simpl in *; destruct Hrest as [Hc3 Hr3]; try done.
      unfold Commit. rewrite Hr3. simpl. congruence.
  - done.
Qed.

Lemma getMaterialById_unplaced env (c : Conn) id :
  tx_open c = true →
  (∀ row, materials (work c) !! id = Some row → location_id row = None) →
  ∃ e, getMaterialById id env c = (Err e, set_calls (S (calls c)) c) ∧
       (fails env (calls c) = false →
        e = match materials (work c) !! id with
            | Some _ => ErrScan
            | None => ErrNoRows
            end).
Proof.
  intros Ho Hrow. unfold getMaterialById, tx_stmt, call. rewrite Ho.
  destruct (fails env (calls c)); simpl; [by eexists|].
  destruct (materials (work c) !! id) as [row|] eqn:Hl; by eexists.
Qed.

(** X8. A record that has no location, or an identifier that names no
    record, can be neither moved nor removed: [getMaterialById] finds no
    row, or cannot scan the row that it finds, and the store is left as
    it was. When the store answers the first two calls the
    error is [sql.ErrNoRows] for a missing record and a scan error for
    a retired one; [removeMaterial] wraps it in its own message. *)
Theorem unplaced_source_is_refused env (s : Store) id :
  (∀ row, materials s !! id = Some row → location_id row = None) →
  let cause := match materials s !! id with
               | Some _ => ErrScan
               | None => ErrNoRows
               end in
  (∀ material, MaterialID material = id →
     ∃ e, exec (Move material) env s = (Err e, s) ∧
          (fails env 0%nat = false → fails env 1%nat = false → e = cause)) ∧
  (∀ material, rm_MaterialID material = id →
     ∃ e, exec (Remove material) env s = (Err e, s) ∧
          (fails env 0%nat = false → fails env 1%nat = false →
           e = ErrNewWrap "Unable to get the current material info: " cause)).
Proof.
  intros Hrow cause. split; intros material <-.
  - unfold exec, run, moveMaterial. rewrite bind_run, BeginTx_run. simpl calls.
    destruct (fails env 0%nat) eqn:H0; [by eexists|].
    unfold with_defer at 1. rewrite bind_run.
    match goal with |- context [getMaterialById ?id env ?c1] =>
      destruct (getMaterialById_unplaced env c1 id eq_refl Hrow) as (e & -> & He)
    end.
    exists e. rewrite Commit_clean by done. split; [done|]. intros _. apply He.
  - unfold exec, run, removeMaterial. rewrite bind_run, BeginTx_run. simpl calls.
    destruct (fails env 0%nat) eqn:H0; [by eexists|].
    unfold with_defer at 1. cbv zeta. rewrite bind_run. unfold or_rollback_wrap.
    match goal with |- context [getMaterialById ?id env ?c1] =>
      destruct (getMaterialById_unplaced env c1 id eq_refl Hrow) as (e & -> & He)
    end.
    eexists. split; [done|]. intros _ H1. by rewrite (He H1).
Qed.

Lemma set_materials_same (s : Store) : set_materials (materials s) s = s.
Proof. by destruct s. Qed.

(** X9. [updateMaterial] does not report a record that does not exist:
    for an identifier that names no record its UPDATE touches no row,
    and it returns no error and leaves the store as it was. *)
Theorem updateMaterial_of_no_record env (s : Store) material :
  fails env 0%nat = false →
  materials s !! MaterialID material = None →
  exec (Adjust material) env s = (Ok (), s).
Proof.
  intros H0 Hnone. unfold exec, run, updateMaterial, call. simpl. rewrite H0. simpl.
  assert (alter (set_primary (IsPrimary material)) (MaterialID material) (materials s)
          = materials s) as ->.
  { apply map_eq. intros k. rewrite lookup_alter. case_decide; [|done].
    subst. by rewrite Hnone. }
  by rewrite set_materials_same.
Qed.

(** X10. [updateMaterial] is idempotent: a second call with the same
    request leaves the store as the first call left it. *)
Theorem updateMaterial_is_idempotent env env' (s : Store) material :
  fails env 0%nat = false → fails env' 0%nat = false →
  exec (Adjust material) env' (exec (Adjust material) env s).2
    = exec (Adjust material) env s.
Proof.
  intros H0 H0'. unfold exec, run, updateMaterial, call. simpl.
  rewrite H0. simpl. rewrite H0'. simpl. f_equal. unfold set_materials. simpl.
  f_equal. apply map_eq. intros k. rewrite !lookup_alter.
  destruct (decide (MaterialID material = k)) as [->|Hne]; [|done].
  rewrite decide_True by done. by destruct (materials s !! k).
Qed.

(** ** The load of a record *)

(** X11. [getMaterialById] loads no record. It never returns a record:
    when the store answers the call on an open transaction, the error is
    [sql.ErrNoRows] for an identifier that names no record and the error
    of a Scan for one that does, whose row has fourteen columns for the
    thirteen arguments; what the transaction sees is left as it was. *)
Theorem getMaterialById_loads_no_record id env (c : Conn) :
  (∀ cur c', getMaterialById id env c ≠ (Ok cur, c')) ∧
  (tx_open c = true → fails env (calls c) = false →
   getMaterialById id env c =
     (Err (match materials (work c) !! id with
           | Some _ => ErrScan
           | None => ErrNoRows
           end),
      set_calls (S (calls c)) c)).
Proof.
  split.
  - intros cur c'. by destruct (getMaterialById_fails id env c) as (e & n & ->).
  - apply getMaterialById_run.
Qed.



(** ** Reading and writing lots *)

(** X12. What [getMaterialPrices] returns when it succeeds: a map that
    holds, under its key, every lot of the material with a quantity
    above 0 and no other lot, each with the quantity and the cost of its
    row; the store is left as it was. *)
Theorem getMaterialPrices_reads_live_lots env (c : Conn) mid m c' :
  getMaterialPrices mid env c = (Ok m, c') →
  work c' = work c ∧
  ∀ id p, m !! id = Some p ↔
    ∃ row, prices (work c) !! id = Some row ∧
           pr_material_id row = mid ∧ 0 < pr_quantity row ∧
           p = {| priceId := 0; materialId := 0;
                  qty := pr_quantity row; cost := pr_cost row |}.
Proof.
  intros H. apply tx_stmt_Ok in H as (_ & _ & Hf & _). simpl in Hf.
  fold (live_rows mid (work c)) in Hf.
  destruct (scan_prices _ ∅) as [m'|e|] eqn:Hs; simplify_eq.
  split; [done|]. intros id p.
  rewrite (scan_live_rows _ _ _ Hs), lookup_fmap, fmap_Some.
  setoid_rewrite map_lookup_filter_Some. unfold live_lot, lot_entry. simpl.
  split.
  - intros (row & (Hl & Hm & Hq) & ->). by exists row.
  - intros (row & Hl & Hm & Hq & ->). by exists row.
Qed.

(** X13. What [upsertPrice] does when it succeeds: the key it returns
    names a lot of the given material at the given cost, whose quantity
    is the given quantity added to what that key held before (nothing,
    when the lot is new); every other lot is as it was. *)
Theorem upsertPrice_adds_to_one_lot env (c : Conn) (p : Price) id c' :
  upsertPrice p env c = (Ok id, c') →
  (∃ row', prices (work c') !! id = Some row' ∧
     pr_material_id row' = materialId p ∧ pr_cost row' = cost p ∧
     pr_quantity row' =
       default 0 (pr_quantity <$> prices (work c) !! id) + qty p) ∧
  ∀ j, j ≠ id → prices (work c') !! j = prices (work c) !! j.
Proof.
  intros H. apply tx_stmt_Ok in H as (_ & _ & Hf & _). simpl in Hf.
  destruct (map_to_list _) as [|[k r] l] eqn:Hl.
  - unfold scan_int in Hf. case_decide; [|done]. simplify_eq.
    match goal with H : set_prices _ _ = work c' |- _ => rewrite <- H end. simpl.
    split.
    + eexists. rewrite lookup_insert_eq. split; [done|]. simpl.
      rewrite next_id_fresh. simpl. repeat split; lia.
    + intros j Hne. by rewrite lookup_insert_ne.
  - unfold scan_int in Hf. case_decide; [|done]. simplify_eq.
    match goal with H : set_prices _ _ = work c' |- _ => rewrite <- H end. simpl.
    assert ((id, r) ∈ map_to_list
              (filter (same_lot (materialId p) (cost p)) (prices (work c)))) as Hin
      by (rewrite Hl; by left).
    apply elem_of_map_to_list, map_lookup_filter_Some in Hin as [Hr [Hm Hc]].
    simpl in *. split.
    + eexists. rewrite lookup_insert_eq. split; [done|]. simpl.
      rewrite Hr. simpl. repeat split; try done; lia.
    + intros j Hne. by rewrite lookup_insert_ne.
Qed.

(** ** Sums over a table *)

Lemma live_total_sum_where mid (st : Store) :
  live_total mid st = sum_where (live_lot mid) pr_quantity (prices st).
Proof. done. Qed.

Lemma sum_where_insert_new {A} (P : Z * A → Prop) `{!∀ kv, Decision (P kv)}
    (f : A → Z) (t : gmap Z A) k v :
  t !! k = None →
  sum_where P f (<[k := v]> t)
    = sum_where P f t + (if decide (P (k, v)) then f v else 0).
Proof.
  intros Hn. unfold sum_where. rewrite map_filter_insert. case_decide.
  - rewrite (sum_Permutation _ ((λ kv, f kv.2) <$> ((k, v) :: map_to_list (filter P t)))).
    + rewrite fmap_cons. simpl. lia.
    + apply fmap_Permutation, map_to_list_insert.
      apply map_lookup_filter_None. by left.
  - rewrite delete_id by done. lia.
Qed.

Lemma sum_where_delete {A} (P : Z * A → Prop) `{!∀ kv, Decision (P kv)}
    (f : A → Z) (t : gmap Z A) k v :
  t !! k = Some v →
  sum_where P f (delete k t)
    = sum_where P f t - (if decide (P (k, v)) then f v else 0).
Proof.
  intros Hs. unfold sum_where. rewrite map_filter_delete. case_decide.
  - rewrite (sum_Permutation ((λ kv, f kv.2) <$> map_to_list (filter P t))
               ((λ kv, f kv.2) <$> ((k, v) :: map_to_list (delete k (filter P t))))).
    + rewrite fmap_cons. simpl. lia.
    + apply fmap_Permutation. symmetry. apply map_to_list_delete.
      by apply map_lookup_filter_Some.
  - rewrite delete_id; [lia|]. apply map_lookup_filter_None. right.
    intros v' Hv'. by simplify_eq.
Qed.

Lemma sum_where_insert {A} (P : Z * A → Prop) `{!∀ kv, Decision (P kv)}
    (f : A → Z) (t : gmap Z A) k v v' :
  t !! k = Some v →
  sum_where P f (<[k := v']> t)
    = sum_where P f t - (if decide (P (k, v)) then f v else 0)
      + (if decide (P (k, v')) then f v' else 0).
Proof.
  intros Hs. rewrite <- insert_delete_eq.
  rewrite sum_where_insert_new by apply lookup_delete_eq.
  by rewrite (sum_where_delete P f t k v).
Qed.

(** ** FIFO consumption when the lots suffice *)

Lemma consume_by_spec_bounds (entries : list (Z * Price)) q :
  0 < q → (∀ id p, (id, p) ∈ entries → 0 < qty p) →
  ∀ id e, (id, e) ∈ consume_by_spec entries q →
    ∃ p, (id, p) ∈ entries ∧ 0 < qty e ∧ qty e ≤ qty p.
Proof.
  revert q. induction entries as [|[k p] entries IH]; intros q Hq Hpos id e; simpl.
  { intros Hin. by apply elem_of_nil in Hin. }
  assert (0 < qty p) as Hp by (apply (Hpos k); by left).
  intros [Heq|Hin]%elem_of_cons.
  - simplify_eq. exists p. split; [by left|]. simpl. lia.
  - case_decide; [by apply elem_of_nil in Hin|].
    destruct (IH (q - Z.min q (qty p))) with (id := id) (e := e)
      as (p' & Hin' & ?); [lia| |done|].
    + intros id' p'' Hin''. apply (Hpos id'). by right.
    + exists p'. split; [by right|done].
Qed.

Lemma consume_by_spec_NoDup (entries : list (Z * Price)) q :
  NoDup entries.*1 → NoDup (consume_by_spec entries q).*1.
Proof.
  revert q. induction entries as [|[k p] entries IH]; intros q Hnd.
  { constructor. }
  rewrite fmap_cons, NoDup_cons in Hnd. destruct Hnd as [Hni Hnd].
  cbn [consume_by_spec]. rewrite fmap_cons. simpl fst. apply NoDup_cons. split.
  - case_decide; [apply not_elem_of_nil|]. intros Hin. apply Hni.
    by eapply consume_by_spec_keys.
  - case_decide; [constructor|by apply IH].
Qed.

Lemma consume_by_spec_total (entries : list (Z * Price)) q :
  0 < q → q ≤ entries_total entries →
  foldr Z.add 0 (qty <$> (consume_by_spec entries q).*2) = q.
Proof.
  revert q. induction entries as [|[k p] entries IH]; intros q Hq Hle.
  { unfold entries_total in Hle. simpl in Hle. lia. }
  rewrite entries_total_cons in Hle. cbn [consume_by_spec].
  rewrite !fmap_cons. cbn [foldr snd qty].
  case_decide as Hd.
  - simpl. lia.
  - rewrite IH; lia.
Qed.

(** Taking from live lots of a material, one amount from each of some
    lots and never more than the lot holds, lowers the quantity of the
    live lots of the material by the amounts taken. *)
Lemma sum_where_walk mid (walked : list (Z * Price)) :
  ∀ m m' : gmap Z prices_row,
    NoDup walked.*1 →
    (∀ id e, (id, e) ∈ walked →
       ∃ row, m !! id = Some row ∧ live_lot mid (id, row) ∧
              0 ≤ qty e ∧ qty e ≤ pr_quantity row ∧
              m' !! id = Some (add_quantity (- qty e) row)) →
    (∀ id, id ∉ walked.*1 → m' !! id = m !! id) →
    sum_where (live_lot mid) pr_quantity m'
      = sum_where (live_lot mid) pr_quantity m - foldr Z.add 0 (qty <$> walked.*2).
Proof.
  induction walked as [|[k e] walked IH]; intros m m' Hnd Hin Hout.
  { assert (m' = m) as ->; [|simpl; lia].
    apply map_eq. intros id. apply Hout, not_elem_of_nil. }
  rewrite fmap_cons, NoDup_cons in Hnd. simpl in Hnd. destruct Hnd as [Hni Hnd].
  destruct (Hin k e) as (row & Hrow & Hlive & H0 & Hle & Hrow'); [by left|].
  rewrite (IH (<[k := add_quantity (- qty e) row]> m) m' Hnd).
  - rewrite (sum_where_insert _ _ _ _ row) by done.
    rewrite decide_True by done. rewrite !fmap_cons. simpl.
    destruct Hlive as [Hm Hq]. simpl in *. case_decide as Hl.
    + lia.
    + assert (pr_quantity row + - qty e = 0); [|lia].
      destruct (decide (0 < pr_quantity row + - qty e)) as [Hpos|Hnp]; [|lia].
      destruct Hl. by split.
  - intros id e' Hin'. destruct (Hin id e') as (row' & ? & ? & ? & ? & ?); [by right|].
    exists row'. rewrite lookup_insert_ne; [done|].
    intros ->. apply Hni. apply list_elem_of_fmap. by exists (id, e').
  - intros id Hni'. destruct (decide (k = id)) as [<-|Hne].
    + by rewrite lookup_insert_eq.
    + rewrite lookup_insert_ne by done. apply Hout.
      rewrite fmap_cons. simpl. by apply not_elem_of_cons.
Qed.

(** In a run in which the store answers every call, FIFO consumption
    of a quantity above 0 lowers the quantity of the live lots of the
    material by what it returns, which is what was asked for when the
    lots hold as much. *)
Lemma removePricesFIFO_exact env (c : Conn) priceToRemove :
  valid_range env → no_fault env → tx_open c = true → prices_fit (work c) →
  0 < ptr_qty priceToRemove → ptr_qty priceToRemove ≤ int_max →
  ∃ removedPrices c',
    removePricesFIFO priceToRemove env c = (Ok removedPrices, c') ∧
    tx_open c' = true ∧
    live_total (ptr_materialId priceToRemove) (work c')
      = live_total (ptr_materialId priceToRemove) (work c)
        - foldr Z.add 0 (qty <$> removedPrices) ∧
    (ptr_qty priceToRemove ≤ live_total (ptr_materialId priceToRemove) (work c) →
     foldr Z.add 0 (qty <$> removedPrices) = ptr_qty priceToRemove).
Proof.
  intros Hv Hnf Ho Hfit Hpos Hhi.
  destruct (scan_prices_total (live_rows (ptr_materialId priceToRemove) (work c)) ∅)
    as [m Hs].
  { apply Forall_forall. intros [id row] Hin. apply elem_of_live_rows in Hin as [Hl _].
    by apply (Hfit id). }
  pose proof (scan_live_rows _ _ _ Hs) as Hm.
  pose proof (entries_total_fetched _ _ _ _ Hv Hs) as Htot.
  assert (∀ id p, (id, p) ∈ range_order env m →
            ∃ row, prices (work c) !! id = Some row ∧
                   live_lot (ptr_materialId priceToRemove) (id, row) ∧
                   p = lot_entry row) as Hrows.
  { intros id p Hin.
    destruct (fetched_entries _ _ _ _ _ _ Hv Hs Hin) as (row & Hl & Hlive & -> & _).
    by exists row. }
  destruct (removePricesFIFO_refines env c priceToRemove)
    as (c' & Hrun & Ho' & _ & Hin & Hout); try done.
  { unfold int_min. lia. }
  rewrite <- Hm in Hrun, Hin, Hout.
  eexists _, c'. split; [exact Hrun|]. split; [done|]. split.
  - rewrite !live_total_sum_where. apply sum_where_walk.
    + apply consume_by_spec_NoDup. by apply NoDup_range_order.
    + intros id e Hw.
      destruct (consume_by_spec_bounds (range_order env m) _ Hpos)
        with (id := id) (e := e) as (p & Hp & He & Hle); [|done|].
      { intros id' p' Hin'. destruct (Hrows id' p' Hin') as (row & _ & [_ ?] & ->).
        done. }
      destruct (Hrows id p Hp) as (row & Hl & Hlive & ->).
      exists row. rewrite (Hin id e Hw), Hl. simpl in *.
      repeat split; try done; try apply Hlive; lia.
    + apply Hout.
  - intros Hle. apply consume_by_spec_total; [done|]. by rewrite Htot.
Qed.

(** X14. When the live lots of the material hold at least the quantity
    asked for, and the store answers every call, FIFO consumption
    returns pairs that add up to exactly that quantity and lowers the
    quantity of the live lots of the material by exactly that
    quantity. *)
Theorem removePricesFIFO_takes_what_is_asked env (c : Conn) priceToRemove :
  valid_range env → no_fault env → tx_open c = true → prices_fit (work c) →
  0 < ptr_qty priceToRemove → ptr_qty priceToRemove ≤ int_max →
  ptr_qty priceToRemove ≤ live_total (ptr_materialId priceToRemove) (work c) →
  ∃ removedPrices c',
    removePricesFIFO priceToRemove env c = (Ok removedPrices, c') ∧
    foldr Z.add 0 (qty <$> removedPrices) = ptr_qty priceToRemove ∧
    live_total (ptr_materialId priceToRemove) (work c')
      = live_total (ptr_materialId priceToRemove) (work c) - ptr_qty priceToRemove.
Proof.
  intros Hv Hnf Ho Hfit Hpos Hhi Hle.
  destruct (removePricesFIFO_exact env c priceToRemove)
    as (removedPrices & c' & Hrun & _ & Hlive & Hsum); try done.
  exists removedPrices, c'. split; [done|]. split; [by apply Hsum|].
  by rewrite Hlive, Hsum.
Qed.

(** ** What a Move and a Remove leave *)

(** X15. No Move moves anything. Whatever the request and whatever the
    store does, [moveMaterial] returns an error and the store is as it
    was. When the store answers the first two calls of the run, the
    error is that of [getMaterialById]: the error of a Scan when the
    record exists, [sql.ErrNoRows] when it does not. *)
Theorem moveMaterial_never_moves material env (s : Store) :
  ∃ e, exec (Move material) env s = (Err e, s) ∧
       (fails env 0%nat = false → fails env 1%nat = false →
        e = match materials s !! MaterialID material with
            | Some _ => ErrScan
            | None => ErrNoRows
            end).
Proof.
  unfold exec, run, moveMaterial. rewrite bind_run, BeginTx_run. simpl calls.
  destruct (fails env 0%nat); [by eexists|].
  unfold with_defer. rewrite bind_run.
  destruct (fails env 1%nat) eqn:H1.
  - match goal with |- context [getMaterialById ?id env ?c1] =>
      destruct (getMaterialById_fails id env c1) as (e & n & ->)
    end.
    exists e. by rewrite Commit_clean.
  - rewrite getMaterialById_run by done. eexists.
    rewrite Commit_clean by done. done.
Qed.

(** X16. No Remove removes anything. Whatever the request and whatever
    the store does, [removeMaterial] returns an error and the store is
    as it was. When the store answers the first two calls of the run,
    the error is that of [getMaterialById] in the message of
    [removeMaterial]. *)
Theorem removeMaterial_never_removes material env (s : Store) :
  ∃ e, exec (Remove material) env s = (Err e, s) ∧
       (fails env 0%nat = false → fails env 1%nat = false →
        e = ErrNewWrap "Unable to get the current material info: "
              (match materials s !! rm_MaterialID material with
               | Some _ => ErrScan
               | None => ErrNoRows
               end)).
Proof.
  unfold exec, run, removeMaterial. rewrite bind_run, BeginTx_run. simpl calls.
  destruct (fails env 0%nat); [by eexists|].
  unfold with_defer. rewrite bind_run. unfold or_rollback_wrap.
  destruct (fails env 1%nat) eqn:H1.
  - match goal with |- context [getMaterialById ?id env ?c1] =>
      destruct (getMaterialById_fails id env c1) as (e & n & ->)
    end.
    by eexists.
  - rewrite getMaterialById_run by done. by eexists.
Qed.

(** ** What a Receive leaves *)

#[local] Abbreviation does := (@does float64).

Lemma does_ret {A} (a : A) (Q : A → Store → Prop) : does (Q a) (mret a) Q.
Proof. intros env c HP. by apply wp_ret. Qed.

Lemma does_bind {A B} P (m : M A) Q (f : A → M B) R :
  does P m Q → (∀ a, does (Q a) (f a) R) → does P (m ≫= f) R.
Proof.
  intros Hm Hf env c HP. apply wp_bind. eapply wp_mono; [by apply Hm|].
  intros [a|e|] c1; simpl; [|done..]. intros [Ho HQ].
  eapply wp_mono; [by apply Hf|]. intros [b|e|] c2; [|done..].
  intros [Ho2 HR]. split; [congruence|done].
Qed.

Lemma does_or_rollback {A} P (m : M A) Q : does P m Q → does P (or_rollback m) Q.
Proof.
  intros Hm env c HP. apply wp_or_rollback. eapply wp_mono; [by apply Hm|].
  by intros [a|e|] c1.
Qed.

Lemma does_tx_stmt {A} P (f : Store → result A * Store) (Q : A → Store → Prop) :
  (∀ st, P st → match (f st).1 with Ok a => Q a (f st).2 | _ => True end) →
  does P (tx_stmt f) Q.
Proof.
  intros Hf env c HP. apply wp_tx_stmt; [done|done|]. intros _ _.
  specialize (Hf _ HP). by destruct (f (work c)) as [[a|e|] w].
Qed.

Lemma does_pure {A} (φ : Prop) P (m : M A) Q :
  (φ → does P m Q) → does (λ st, φ ∧ P st) m Q.
Proof. intros H env c [Hφ HP]. by apply H. Qed.

Lemma does_pre {A} (P P' : Store → Prop) (m : M A) Q :
  (∀ st, P' st → P st) → does P m Q → does P' m Q.
Proof. intros HPP Hm env c HP. apply Hm, HPP, HP. Qed.

Lemma scan_ids_found ids id : scan_ids ids = Ok id → id ≠ 0 → id ∈ ids.
Proof.
  unfold scan_ids, scan_last. case_decide; [|done]. intros [= <-] Hne.
  destruct (last ids) as [x|] eqn:Hlast; [|done]. simpl.
  apply last_Some in Hlast as [l' ->]. apply elem_of_app. right. by left.
Qed.

Lemma elem_of_keys_where {A} (P : A → Prop) `{!∀ a, Decision (P a)}
    (t : gmap Z A) id :
  id ∈ keys_where P t → ∃ r, t !! id = Some r ∧ P r.
Proof.
  unfold keys_where. intros ([k r] & -> & Hin)%list_elem_of_fmap.
  apply elem_of_map_to_list, map_lookup_filter_Some in Hin. by exists r.
Qed.

Lemma in_transaction_does {A} (body : M A) P Q env (s : Store) a s' :
  no_fault env → does P body Q → P s →
  run (BeginTx;; with_defer Commit body) env s = (Ok a, s') → Q a s'.
Proof.
  intros Hnf Hb HP. unfold run. rewrite bind_run, BeginTx_run, Hnf.
  unfold with_defer.
  match goal with |- context [body env ?c1] =>
    pose proof (Hb env c1 HP) as Hk; unfold wp in Hk;
    destruct (body env c1) as [[a'|e|] c2]
  end; simpl in *; [|done..].
  destruct Hk as [Ho HQ]. intros [= <- <-]. by rewrite Commit_run.
Qed.

(** The upsert and the end of [createMaterial], from a view in which
    the record stands. *)
Lemma does_createMaterial_tail (s : Store) material (im : IncomingMaterialDB) id :
  incoming_materials s !! MaterialID material = Some im →
  does (placed s (im_StockID im) (LocationID material) (im_Owner im) id)
       (priceId ← or_rollback (upsertPrice
          {| priceId := 0; materialId := id; qty := Qty material;
             cost := im_Cost im |});
        createMaterial_end material id priceId)
       (received s material im).
Proof.
  intros Him. eapply does_bind.
  { apply does_or_rollback.
    apply (does_tx_stmt _ _ (λ lot st,
      placed s (im_StockID im) (LocationID material) (im_Owner im) id st ∧
      ∃ row, prices st !! lot = Some row ∧
             pr_material_id row = id ∧ pr_cost row = im_Cost im)).
    intros st Hpl. simpl.
    destruct (map_to_list _) as [|[k r0] l] eqn:Hl; simpl;
      unfold scan_int; case_decide; try done; simpl.
    - split; [done|]. eexists. by rewrite lookup_insert_eq.
    - assert ((k, r0) ∈ map_to_list
                (filter (same_lot id (im_Cost im)) (prices st))) as Hin
        by (rewrite Hl; by left).
      apply elem_of_map_to_list, map_lookup_filter_Some in Hin as [_ [Hm Hc]].
      split; [done|]. eexists. by rewrite lookup_insert_eq. }
  intros lot. unfold createMaterial_end. eapply does_bind.
  { apply does_or_rollback.
    apply (does_tx_stmt _ _ (λ _ st,
      incoming_materials st = delete (MaterialID material) (incoming_materials s) ∧
      (∃ r, materials st !! id = Some r ∧
            at_location (im_StockID im) (LocationID material) (im_Owner im) r) ∧
      (∃ row, prices st !! lot = Some row ∧
              pr_material_id row = id ∧ pr_cost row = im_Cost im))).
    intros st [[Hinc Hr] Hlot]. simpl. by rewrite Hinc. }
  intros ?. eapply does_bind.
  { apply does_or_rollback.
    apply (does_tx_stmt _ _ (λ _, received s material im id)).
    intros st (Hinc & Hr & (row & Hrow & Hm & Hc)). simpl.
    split; [done|]. split; [done|]. split; [done|].
    exists lot, row. simpl. by rewrite last_snoc. }
  intros ?. apply (does_ret id (received s material im)).
Qed.

Lemma createMaterial_received env (s : Store) material id s' :
  no_fault env →
  run (createMaterial material) env s = (Ok id, s') →
  ∃ im, received s material im id s'.
Proof.
  intros Hnf.
  destruct (incoming_materials s !! MaterialID material) as [im|] eqn:Him.
  2: { intros Hrun. exfalso. revert Hrun. unfold createMaterial.
       apply (in_transaction_does _ (λ st, st = s) (λ _ _, False)); [done| |done].
       apply (does_bind _ _ (λ _ _, False)); [|intros a env' c []].
       apply does_or_rollback, does_tx_stmt. intros st ->. by rewrite Him. }
  intros Hrun. exists im. revert Hrun. unfold createMaterial.
  apply (in_transaction_does _ (λ st, st = s) (received s material im)); [done| |done].
  eapply does_bind.
  { apply does_or_rollback.
    apply (does_tx_stmt _ _ (λ incomingMaterial st,
      scan_incoming im = Ok incomingMaterial ∧ st = s)).
    intros st ->. rewrite Him. simpl. by destruct (scan_incoming im). }
  intros incomingMaterial. apply does_pure. intros Hscan.
  revert Hscan. unfold scan_incoming. case_decide; [|done]. intros [= <-].
  cbv zeta. simpl.
  eapply does_bind.
  { apply does_or_rollback.
    apply (does_tx_stmt _ _ (λ materialId st,
      incoming_materials st = incoming_materials s ∧
      (materialId ≠ 0 →
       ∃ r, materials st !! materialId = Some r ∧
            at_location (im_StockID im) (LocationID material) (im_Owner im) r))).
    intros st ->. simpl.
    destruct (scan_ids _) as [materialId| |] eqn:Hids; try done.
    split; [done|]. intros Hne. apply scan_ids_found in Hids; [|done].
    apply elem_of_keys_where in Hids as (r & Hr & Hhere).
    exists (add_qty_notes (Qty material) (Notes material) r).
    unfold update_where. rewrite lookup_fmap, Hr. simpl.
    rewrite decide_True by done. split; [done|]. apply Hhere. }
  intros materialId. case_decide as Hfound.
  - eapply does_pre; [|by apply does_createMaterial_tail].
    intros st [Hinc Hr]. split; [done|]. by apply Hr.
  - eapply does_bind.
    { apply does_or_rollback.
      apply (does_tx_stmt _ _ (λ materialId' st,
        incoming_materials st = incoming_materials s ∧
        (materialId' ≠ 0 →
         ∃ r, materials st !! materialId' = Some r ∧
              unplaced (im_StockID im) (im_Owner im) r))).
      intros st [Hinc _]. simpl.
      destruct (scan_ids _) as [materialId'| |] eqn:Hids; try done.
      split; [done|]. intros Hne. apply scan_ids_found in Hids; [|done].
      by apply elem_of_keys_where in Hids. }
    intros materialId'. eapply does_bind; [|intros id'; by apply does_createMaterial_tail].
    case_decide as Hlimbo.
    + apply (does_bind _ _ (λ _,
        placed s (im_StockID im) (LocationID material) (im_Owner im) materialId')).
      2: { intros ?. apply (does_ret materialId'
             (placed s (im_StockID im) (LocationID material) (im_Owner im))). }
      apply does_or_rollback, does_tx_stmt. intros st [Hinc Hr]. simpl.
      destruct (Hr Hlimbo) as (r & Hl & _ & Hst & Hown).
      split; [done|]. exists (place (Qty material) (Notes material) (LocationID material) r).
      simpl. rewrite lookup_alter_eq, Hl. done.
    + apply does_or_rollback, does_tx_stmt. intros st [Hinc _]. simpl.
      unfold scan_int. case_decide; [|done]. simpl. split; [done|].
      eexists. simpl. rewrite lookup_insert_eq. done.
Qed.

(** X17. A successful Receive consumes exactly its intake: in a run in
    which the store answers every call, the intake named by the request
    was pending and is deleted, and every other pending intake is left
    as it was. *)
Theorem createMaterial_consumes_its_intake env (s : Store) material id s' :
  no_fault env →
  run (createMaterial material) env s = (Ok id, s') →
  is_Some (incoming_materials s !! MaterialID material) ∧
  incoming_materials s' = delete (MaterialID material) (incoming_materials s).
Proof.
  intros Hnf Hrun.
  destruct (createMaterial_received env s material id s' Hnf Hrun)
    as (im & Him & Hinc & _).
  split; [by exists im|done].
Qed.

(** X18. What a successful Receive returns and leaves, in a run in
    which the store answers every call: the identifier it returns names
    a record that stands at the requested location and has the stock id
    and the owner of the intake; that record has a lot at the cost of
    the intake; and the last entry of the log is for that lot, with the
    quantity and the notes of the request and no job ticket. *)
Theorem createMaterial_places_the_shipment env (s : Store) material id s' :
  no_fault env →
  run (createMaterial material) env s = (Ok id, s') →
  ∃ im r lot row,
    incoming_materials s !! MaterialID material = Some im ∧
    materials s' !! id = Some r ∧
    stock_id r = im_StockID im ∧ owner r = im_Owner im ∧
    location_id r = Some (LocationID material) ∧
    prices s' !! lot = Some row ∧
    pr_material_id row = id ∧ pr_cost row = im_Cost im ∧
    last (transactions_log s') =
      Some {| trx_priceId := lot; trx_qty := Qty material;
              trx_notes := Notes material; trx_jobTicket := EmptyString |}.
Proof.
  intros Hnf Hrun.
  destruct (createMaterial_received env s material id s' Hnf Hrun)
    as (im & Him & _ & (r & Hr & Hst & Hloc & Hown) & (lot & row & Hrow & Hm & Hc & Hlog)).
  by exists im, r, lot, row.
Qed.

(** ** The listings *)

Lemma Itoa_inj a b : Itoa a = Itoa b → a = b.
Proof.
  unfold Itoa. intros H. apply to_int_inj.
  assert (∀ z, Z.to_int z ≠ Decimal.Pos Decimal.Nil ∧
               Z.to_int z ≠ Decimal.Neg Decimal.Nil) as Hn.
  { intros [|q|q]; simpl; split; try discriminate;
      intros [= E]; by apply Unsigned.to_uint_nonnil in E. }
  destruct (Hn a), (Hn b).
  apply (f_equal NilZero.int_of_string) in H.
  rewrite !NilZero.isi in H by assumption. congruence.
Qed.

Lemma scan_rows_Ok {A B} (scan : A → result B) rows listed l :
  scan_rows scan rows listed = Ok l →
  ∃ bs, l = listed ++ bs ∧ Forall2 (λ a b, scan a = Ok b) rows bs.
Proof.
  revert listed. induction rows as [|a rows IH]; intros listed; simpl.
  { intros [= <-]. exists []. by rewrite app_nil_r. }
  destruct (scan a) as [b|e|] eqn:Ha; [|done..]. intros Hs.
  destruct (IH _ Hs) as (bs & -> & Hall). exists (b :: bs).
  split; [by rewrite <- (assoc_L (++))|]. by constructor.
Qed.

Lemma scan_rows_Err {A B} (scan : A → result B) rows listed a :
  a ∈ rows → scan a = Err ErrScan →
  (∀ a', scan a' ≠ Blocked) → (∀ a' e, scan a' = Err e → e = ErrScan) →
  scan_rows scan rows listed = Err (ErrNewWrap "Error scanning row: " ErrScan).
Proof.
  intros Hin Ha Hnb Herr. revert listed.
  induction rows as [|a0 rows IH]; intros listed; [by apply elem_of_nil in Hin|].
  simpl. destruct (scan a0) as [b|e|] eqn:Ha0.
  - apply IH. apply elem_of_cons in Hin as [->|Hin]; [congruence|done].
  - by rewrite (Herr _ _ Ha0).
  - by destruct (Hnb a0).
Qed.

Lemma db_query_Ok {A B} (select : Store → list A) (scan : A → result B)
    env (s : Store) l s' :
  run (db_query select scan) env s = (Ok l, s') →
  s' = s ∧ Forall2 (λ a b, scan a = Ok b) (select s) l.
Proof.
  unfold run, db_query, call. simpl. destruct (fails env 0%nat); [done|]. simpl.
  intros [= Hs <-]. split; [done|].
  apply scan_rows_Ok in Hs as (bs & -> & Hall). done.
Qed.

Lemma Forall2_elem_of_l {A B} (P : A → B → Prop) l k a :
  Forall2 P l k → a ∈ l → ∃ b, b ∈ k ∧ P a b.
Proof.
  induction 1 as [|x y l k Hxy _ IH]; [by intros ?%elem_of_nil|].
  intros [->|Hin]%elem_of_cons.
  - exists y. split; [by left|done].
  - destruct (IH Hin) as (b & ? & ?). exists b. split; [by right|done].
Qed.

Lemma Forall2_elem_of_r {A B} (P : A → B → Prop) l k b :
  Forall2 P l k → b ∈ k → ∃ a, a ∈ l ∧ P a b.
Proof.
  induction 1 as [|x y l k Hxy _ IH]; [by intros ?%elem_of_nil|].
  intros [->|Hin]%elem_of_cons.
  - exists x. split; [by left|done].
  - destruct (IH Hin) as (a & ? & ?). exists a. split; [by right|done].
Qed.

Lemma elem_of_rows_of {A} (t : gmap Z A) id a :
  (id, a) ∈ rows_of t ↔ t !! id = Some a.
Proof.
  unfold rows_of. by rewrite merge_sort_Permutation, elem_of_map_to_list.
Qed.

Lemma scan_incoming_listed_Ok (dir : Directory) (kv : Z * IncomingMaterialDB) e :
  scan_incoming_listed dir kv = Ok e →
  customers dir !! im_CustomerID kv.2 = Some (CustomerName e) ∧
  e = {| ShippingID := Itoa kv.1; CustomerName := CustomerName e;
         shipment_data := kv.2 |}.
Proof.
  unfold scan_incoming_listed.
  destruct (customers dir !! _) as [name|]; [|done].
  case_decide; [|done]. by intros [= <-].
Qed.

(** X19. What [getIncomingMaterials] returns when it succeeds: one
    entry for each pending intake, so as many entries as there are
    intakes, each with the key of the intake printed in decimal, the
    name of its customer and the data of the intake; the store is left
    as it was. *)
Theorem getIncomingMaterials_lists_every_intake (dir : Directory) env (s : Store) l s' :
  run (getIncomingMaterials dir) env s = (Ok l, s') →
  s' = s ∧
  length l = size (incoming_materials s) ∧
  ∀ id im, incoming_materials s !! id = Some im →
    ∃ name, customers dir !! im_CustomerID im = Some name ∧
            {| ShippingID := Itoa id; CustomerName := name;
               shipment_data := im |} ∈ l.
Proof.
  intros Hrun. apply db_query_Ok in Hrun as [-> Hall]. split; [done|]. split.
  - rewrite <- (Forall2_length _ _ _ Hall). unfold rows_of.
    by rewrite merge_sort_Permutation, length_map_to_list.
  - intros id im Him.
    destruct (Forall2_elem_of_l _ _ _ (id, im) Hall) as (e & He & Hscan).
    { by apply elem_of_rows_of. }
    apply scan_incoming_listed_Ok in Hscan as [Hname Heq]. simpl in *.
    exists (CustomerName e). split; [done|]. by rewrite <- Heq.
Qed.

(** X20. One intake whose customer is not in [customers] makes the whole
    listing fail: [getIncomingMaterials] returns a scan error, wrapped
    in its message, and no list. *)
Theorem getIncomingMaterials_needs_every_customer (dir : Directory) env (s : Store) id im :
  fails env 0%nat = false →
  incoming_materials s !! id = Some im →
  customers dir !! im_CustomerID im = None →
  run (getIncomingMaterials dir) env s
    = (Err (ErrNewWrap "Error scanning row: " ErrScan), s).
Proof.
  intros H0 Him Hnone. unfold run, getIncomingMaterials, db_query, call. simpl.
  rewrite H0. simpl. f_equal.
  apply (scan_rows_Err _ _ _ (id, im)).
  - by apply elem_of_rows_of.
  - unfold scan_incoming_listed. simpl. by rewrite Hnone.
  - intros kv. unfold scan_incoming_listed.
    destruct (customers dir !! im_CustomerID kv.2); [by case_decide|done].
  - intros kv e. unfold scan_incoming_listed.
    destruct (customers dir !! im_CustomerID kv.2); [case_decide|]; congruence.
Qed.

(** X21. A shipment that was received is no longer listed: after a
    successful [createMaterial], in a run in which the store answers
    every call, no entry of [getIncomingMaterials] carries the key of
    its intake. *)
Theorem received_intake_is_not_listed (dir : Directory) env env' (s : Store)
    material id s1 l s2 :
  no_fault env →
  run (createMaterial material) env s = (Ok id, s1) →
  run (getIncomingMaterials dir) env' s1 = (Ok l, s2) →
  Forall (λ e, ShippingID e ≠ Itoa (MaterialID material)) l.
Proof.
  intros Hnf Hcreate Hlist.
  destruct (createMaterial_received env s material id s1 Hnf Hcreate)
    as (im & _ & Hinc & _).
  apply db_query_Ok in Hlist as [-> Hall].
  apply Forall_forall. intros e He Hid.
  destruct (Forall2_elem_of_r _ _ _ e Hall He) as ([k im'] & Hin & Hscan).
  apply elem_of_rows_of in Hin.
  apply scan_incoming_listed_Ok in Hscan as [_ Heq]. rewrite Heq in Hid.
  simpl in Hid. apply Itoa_inj in Hid as ->.
  by rewrite Hinc, lookup_delete_eq in Hin.
Qed.

(** X22. A shipment that was submitted is listed with what was
    submitted: after a successful [sendMaterial], a successful
    [getIncomingMaterials] has an entry with the customer, stock id,
    cost, quantity, bounds, description, active flag, type and owner of
    the request. *)
Theorem submitted_shipment_is_listed (dir : Directory) env env' (s : Store)
    material s1 l s2 :
  run (sendMaterial material) env s = (Ok (), s1) →
  run (getIncomingMaterials dir) env' s1 = (Ok l, s2) →
  ∃ e, e ∈ l ∧
       customers dir !! in_CustomerID material = Some (CustomerName e) ∧
       shipment_data e =
         {| im_CustomerID := in_CustomerID material;
            im_StockID := in_StockID material;
            im_Cost := in_Cost material;
            im_Quantity := in_Qty material;
            im_MinQty := in_MinQty material;
            im_MaxQty := in_MaxQty material;
            im_Description := in_Description material;
            im_IsActive := in_IsActive material;
            im_MaterialType := in_MaterialType material;
            im_Owner := in_Owner material |}.
Proof.
  intros Hsend Hlist. apply db_query_Ok in Hlist as [-> Hall].
  revert Hsend. unfold run, sendMaterial, call. simpl.
  destruct (fails env 0%nat); [done|]. simpl. intros [= <-].
  match goal with _ : context [<[?k := ?im]> _] |- _ =>
    destruct (Forall2_elem_of_l _ _ _ (k, im) Hall) as (e & He & Hscan)
  end.
  { apply elem_of_rows_of. simpl. apply lookup_insert_eq. }
  apply scan_incoming_listed_Ok in Hscan as [Hname Heq]. simpl in *.
  exists e. split; [exact He|]. split; [done|]. by rewrite Heq.
Qed.

Lemma scan_material_listed_Ok (dir : Directory) (kv : Z * materials_row) e :
  scan_material_listed dir kv = Ok e →
  lm_MaterialID e = kv.1 ∧ lm_StockID e = stock_id kv.2 ∧
  lm_Quantity e = quantity kv.2 ∧ lm_Owner e = owner kv.2 ∧
  lm_Notes e = notes kv.2 ∧ lm_Description e = description kv.2 ∧
  lm_CustomerID e = customer_id kv.2 ∧
  customers dir !! customer_id kv.2 = Some (lm_CustomerName e).
Proof.
  unfold scan_material_listed.
  destruct (customers dir !! _) as [name|]; [|done]. cbv zeta.
  case_decide; [|done]. by intros [= <-].
Qed.

Lemma getMaterials_Ok (ops : TextOps) (dir : Directory) opts env (s : Store) l s' :
  run (getMaterials ops dir opts) env s = (Ok l, s') →
  s' = s ∧
  length l = size (filter (selected ops dir opts) (materials s)) ∧
  (∀ e, e ∈ l → ∃ id r, materials s !! id = Some r ∧ selected ops dir opts (id, r) ∧
                        scan_material_listed dir (id, r) = Ok e) ∧
  (∀ id r, materials s !! id = Some r → selected ops dir opts (id, r) →
           ∃ e, e ∈ l ∧ scan_material_listed dir (id, r) = Ok e).
Proof.
  intros Hrun. apply db_query_Ok in Hrun as [-> Hall]. split; [done|].
  split; [|split].
  - rewrite <- (Forall2_length _ _ _ Hall).
    by rewrite merge_sort_Permutation, length_map_to_list.
  - intros e He. destruct (Forall2_elem_of_r _ _ _ e Hall He) as ([id r] & Hin & Hscan).
    rewrite merge_sort_Permutation in Hin.
    apply elem_of_map_to_list, map_lookup_filter_Some in Hin as [Hl Hsel].
    by exists id, r.
  - intros id r Hl Hsel.
    destruct (Forall2_elem_of_l _ _ _ (id, r) Hall) as (e & He & Hscan); [|by exists e].
    rewrite merge_sort_Permutation.
    by apply elem_of_map_to_list, map_lookup_filter_Some.
Qed.

(** X23. [getMaterials] never lists a record that has no location:
    whatever the filter, an identifier whose record is retired, or that
    names no record, is not among the entries it returns. *)
Theorem getMaterials_skips_retired_records (ops : TextOps) (dir : Directory) opts env
    (s : Store) id l s' :
  (∀ r, materials s !! id = Some r → location_id r = None) →
  run (getMaterials ops dir opts) env s = (Ok l, s') →
  Forall (λ e, lm_MaterialID e ≠ id) l.
Proof.
  intros Hret Hrun. apply getMaterials_Ok in Hrun as (_ & _ & Hsound & _).
  apply Forall_forall. intros e He Hid.
  destruct (Hsound e He) as (k & r & Hl & [Hloc _] & Hscan).
  apply scan_material_listed_Ok in Hscan as (Hk & _). simpl in *.
  rewrite Hk in Hid. subst k. rewrite (Hret r Hl) in Hloc. by destruct Hloc.
Qed.

(** X24. With the empty filter, a successful [getMaterials] lists every
    record that has a location, once: it returns as many entries as
    there are such records, and for each of them an entry with its
    identifier, stock id, quantity, owner, notes, description and
    customer; the store is left as it was. *)
Theorem getMaterials_lists_every_placed_record (ops : TextOps) (dir : Directory) env
    (s : Store) l s' :
  run (getMaterials ops dir no_filter) env s = (Ok l, s') →
  s' = s ∧
  length l = size (filter (λ kv, is_Some (location_id kv.2)) (materials s)) ∧
  ∀ id r, materials s !! id = Some r → is_Some (location_id r) →
    ∃ e, e ∈ l ∧
         lm_MaterialID e = id ∧ lm_StockID e = stock_id r ∧
         lm_Quantity e = quantity r ∧ lm_Owner e = owner r ∧
         lm_Notes e = notes r ∧ lm_Description e = description r ∧
         lm_CustomerID e = customer_id r ∧
         customers dir !! customer_id r = Some (lm_CustomerName e).
Proof.
  intros Hrun. apply getMaterials_Ok in Hrun as (-> & Hlen & _ & Hall).
  assert (∀ kv : Z * materials_row,
            selected ops dir no_filter kv ↔ is_Some (location_id kv.2)) as Hsel.
  { intros kv. unfold selected, passes. simpl. tauto. }
  split; [done|]. split.
  - rewrite Hlen. f_equal. apply map_filter_ext. intros i x _. apply Hsel.
  - intros id r Hl Hloc.
    destruct (Hall id r Hl) as (e & He & Hscan); [by apply Hsel|].
    exists e. split; [done|]. by apply scan_material_listed_Ok in Hscan.
Qed.

(** ** A Commit that fails *)

#[local] Abbreviation keeps_committed := (@keeps_committed float64).
#[local] Abbreviation local := (@local float64).

Lemma keeps_committed_ret {A} (a : A) : keeps_committed (mret a).
Proof. by intros env c. Qed.

Lemma keeps_committed_fail {A} e : keeps_committed (fail e : M A).
Proof. by intros env c. Qed.

Lemma keeps_committed_bind {A B} (m : M A) (f : A → M B) :
  keeps_committed m → (∀ a, keeps_committed (f a)) → keeps_committed (m ≫= f).
Proof.
  intros Hm Hf env c. rewrite bind_run. specialize (Hm env c).
  destruct (m env c) as [[a|e|] c1]; simpl in *; [|done..].
  by rewrite Hf.
Qed.

Lemma keeps_committed_tx_stmt {A} (f : Store → result A * Store) :
  keeps_committed (tx_stmt f).
Proof.
  intros env c. unfold tx_stmt, call. destruct (tx_open c); [|done].
  destruct (fails env (calls c)); [done|]. simpl. by destruct (f (work c)).
Qed.

Lemma keeps_committed_or_rollback {A} (m : M A) :
  keeps_committed m → keeps_committed (or_rollback m).
Proof.
  intros Hm env c. unfold or_rollback. specialize (Hm env c).
  by destruct (m env c) as [[a|e|] c1].
Qed.

Lemma keeps_committed_or_rollback_wrap {A} msg (m : M A) :
  keeps_committed m → keeps_committed (or_rollback_wrap msg m).
Proof.
  intros Hm env c. unfold or_rollback_wrap. specialize (Hm env c).
  by destruct (m env c) as [[a|e|] c1].
Qed.

Lemma keeps_committed_removePricesFIFO p : keeps_committed (removePricesFIFO p).
Proof.
  intros env c. pose proof (tx_only_removePricesFIFO p env c) as H.
  unfold wp in H. apply H.
Qed.

Lemma keeps_committed_upsertPrice p : keeps_committed (upsertPrice p).
Proof. apply keeps_committed_tx_stmt. Qed.

Lemma local_ret {A} (a : A) : local (mret a).
Proof. intros env env' c _ _. split; [done|]. done. Qed.

Lemma local_fail {A} e : local (fail e : M A).
Proof. intros env env' c _ _. split; [done|]. done. Qed.

Lemma local_bind {A B} (m : M A) (f : A → M B) :
  local m → (∀ a, local (f a)) → local (m ≫= f).
Proof.
  intros Hm Hf env env' c Hr Hn. rewrite !bind_run.
  destruct (Hm env env' c Hr Hn) as [Hle Hsame].
  destruct (m env c) as [[a|e|] c1] eqn:E; simpl in *.
  - destruct (Hf a env env' c1 Hr Hn) as [Hle' Hsame']. split; [lia|].
    intros Hag. rewrite Hsame by (intros n ?; apply Hag; lia).
    apply Hsame'. intros n ?. apply Hag. lia.
  - split; [done|]. intros Hag. by rewrite Hsame.
  - split; [done|]. intros Hag. by rewrite Hsame.
Qed.

Lemma local_tx_stmt {A} (f : Store → result A * Store) : local (tx_stmt f).
Proof.
  intros env env' c _ _. unfold tx_stmt, call. destruct (tx_open c); [|done].
  destruct (fails env (calls c)) eqn:Hf; simpl.
  - split; [lia|]. intros Hag. rewrite Hag, Hf; [done|lia].
  - destruct (f (work c)) as [r w] eqn:Efw. simpl. split; [lia|].
    intros Hag. rewrite Hag, Hf; [|lia]. simpl. by rewrite Efw.
Qed.

Lemma local_or_rollback {A} (m : M A) : local m → local (or_rollback m).
Proof.
  intros Hm env env' c Hr Hn. unfold or_rollback.
  destruct (Hm env env' c Hr Hn) as [Hle Hsame].
  destruct (m env c) as [[a|e|] c1] eqn:E; simpl in *;
    (split; [done|]); intros Hag; by rewrite Hsame.
Qed.

Lemma local_or_rollback_wrap {A} msg (m : M A) :
  local m → local (or_rollback_wrap msg m).
Proof.
  intros Hm env env' c Hr Hn. unfold or_rollback_wrap.
  destruct (Hm env env' c Hr Hn) as [Hle Hsame].
  destruct (m env c) as [[a|e|] c1] eqn:E; simpl in *;
    (split; [done|]); intros Hag; by rewrite Hsame.
Qed.

Lemma local_fifo_loop notes jobTicket entries remainingQty removedPrices :
  local (fifo_loop notes jobTicket entries remainingQty removedPrices).
Proof.
  revert remainingQty removedPrices.
  induction entries as [|[id p] entries IH]; intros remainingQty removedPrices; simpl.
  { apply local_ret. }
  case_decide.
  - apply local_bind; [apply local_tx_stmt|]. intros cost'.
    apply local_bind; [apply local_tx_stmt|]. intros ?. apply local_ret.
  - apply local_bind; [apply local_tx_stmt|]. intros cost'.
    apply local_bind; [apply local_tx_stmt|]. intros ?. apply IH.
Qed.

Lemma local_removePricesFIFO p : local (removePricesFIFO p).
Proof.
  apply local_bind; [apply local_tx_stmt|]. intros m env env' c Hr Hn.
  unfold range. rewrite Hr. by apply local_fifo_loop.
Qed.

(** The body of [createMaterial], between its BeginTx and its deferred
    Commit. *)
Lemma createMaterial_body material :
  ∃ body : M Z,
    createMaterial material = (BeginTx ≫= λ _, with_defer Commit body) ∧
    keeps_committed body ∧ local body.
Proof.
  eexists. split; [reflexivity|].
  assert (∀ id lot, keeps_committed (createMaterial_end material id lot) ∧
                    local (createMaterial_end material id lot)) as Hend.
  { intros id lot. unfold createMaterial_end. split.
    - apply keeps_committed_bind;
        [apply keeps_committed_or_rollback, keeps_committed_tx_stmt|]. intros ?.
      apply keeps_committed_bind;
        [apply keeps_committed_or_rollback, keeps_committed_tx_stmt|]. intros ?.
      apply keeps_committed_ret.
    - apply local_bind; [apply local_or_rollback, local_tx_stmt|]. intros ?.
      apply local_bind; [apply local_or_rollback, local_tx_stmt|]. intros ?.
      apply local_ret. }
  split.
  - apply keeps_committed_bind;
      [apply keeps_committed_or_rollback, keeps_committed_tx_stmt|].
    intros incomingMaterial. cbv zeta. apply keeps_committed_bind;
      [apply keeps_committed_or_rollback, keeps_committed_tx_stmt|].
    intros materialId. case_decide.
    + apply keeps_committed_bind;
        [apply keeps_committed_or_rollback, keeps_committed_upsertPrice|].
      intros lot. apply Hend.
    + apply keeps_committed_bind;
        [apply keeps_committed_or_rollback, keeps_committed_tx_stmt|].
      intros materialId'. apply keeps_committed_bind.
      { case_decide.
        - apply keeps_committed_bind; [|intros ?; apply keeps_committed_ret].
          apply keeps_committed_or_rollback, keeps_committed_tx_stmt.
        - apply keeps_committed_or_rollback, keeps_committed_tx_stmt. }
      intros materialId''. apply keeps_committed_bind;
        [apply keeps_committed_or_rollback, keeps_committed_upsertPrice|].
      intros lot. apply Hend.
  - apply local_bind; [apply local_or_rollback, local_tx_stmt|].
    intros incomingMaterial. cbv zeta.
    apply local_bind; [apply local_or_rollback, local_tx_stmt|].
    intros materialId. case_decide.
    + apply local_bind; [apply local_or_rollback, local_tx_stmt|].
      intros lot. apply Hend.
    + apply local_bind; [apply local_or_rollback, local_tx_stmt|].
      intros materialId'. apply local_bind.
      { case_decide.
        - apply local_bind; [|intros ?; apply local_ret].
          apply local_or_rollback, local_tx_stmt.
        - apply local_or_rollback, local_tx_stmt. }
      intros materialId''.
      apply local_bind; [apply local_or_rollback, local_tx_stmt|].
      intros lot. apply Hend.
Qed.

(** The body of [removeMaterial]. *)
Lemma removeMaterial_body material :
  ∃ body : M (),
    removeMaterial material = (BeginTx ≫= λ _, with_defer Commit body) ∧
    keeps_committed body ∧ local body.
Proof.
  eexists. split; [reflexivity|]. cbv zeta. split.
  - apply keeps_committed_bind;
      [apply keeps_committed_or_rollback_wrap, keeps_committed_tx_stmt|].
    intros currMaterial. case_decide; [apply keeps_committed_fail|].
    apply keeps_committed_bind.
    { case_decide; apply keeps_committed_or_rollback, keeps_committed_tx_stmt. }
    intros ?. apply keeps_committed_bind;
      [apply keeps_committed_or_rollback, keeps_committed_removePricesFIFO|].
    intros ?. apply keeps_committed_ret.
  - apply local_bind; [apply local_or_rollback_wrap, local_tx_stmt|].
    intros currMaterial. case_decide; [apply local_fail|].
    apply local_bind.
    { case_decide; apply local_or_rollback, local_tx_stmt. }
    intros ?. apply local_bind; [apply local_or_rollback, local_removePricesFIFO|].
    intros ?. apply local_ret.
Qed.

(** A command that begins a transaction, defers its Commit and runs a
    body on the transaction only: when it succeeds in a run in which
    the store answers every call, it returns the same in the run in
    which the store fails its Commit, and then nothing is stored. *)
Lemma in_transaction_failed_commit {A} (body : M A) env (s : Store) a s1 :
  no_fault env → keeps_committed body → local body →
  run (BeginTx ≫= λ _, with_defer Commit body) env s = (Ok a, s1) →
  ∃ k, run (BeginTx ≫= λ _, with_defer Commit body) (failing_at k env) s = (Ok a, s).
Proof.
  intros Hnf Hkeep Hloc. unfold run. rewrite bind_run, BeginTx_run, Hnf.
  unfold with_defer.
  match goal with |- context [body env ?c1] =>
    pose proof (Hkeep env c1) as Hc;
    destruct (Hloc env (failing_at (calls (body env c1).2) env) c1) as [Hle Hsame];
      [done|done|];
    destruct (body env c1) as [[a'|e|] c2] eqn:Ebody
  end; simpl in Hc, Hle, Hsame; [|done..].
  intros [= <- _]. exists (calls c2).
  rewrite bind_run, BeginTx_run. simpl calls. simpl fails.
  rewrite decide_False by lia. rewrite Hnf. simpl. rewrite Hsame.
  2: { intros n Hn. rewrite decide_False; [done|lia]. }
  unfold Commit, call. destruct (tx_open c2); simpl.
  - rewrite decide_True by done. simpl. by rewrite Hc.
  - by rewrite Hc.
Qed.


(** ** The quantities and the lots *)

Lemma next_id_pos {A} (t : gmap Z A) : 0 < next_id t.
Proof.
  unfold next_id. cut (0 ≤ foldr Z.max 0 (map_to_list t).*1); [lia|].
  induction ((map_to_list t).*1) as [|x l IH]; simpl; lia.
Qed.

Lemma update_where_lookup {A} (P : A → Prop) `{!∀ a, Decision (P a)}
    (f : A → A) (t : gmap Z A) k :
  update_where P f t !! k = (λ a, if decide (P a) then f a else a) <$> t !! k.
Proof. apply lookup_fmap. Qed.

Lemma update_where_none {A} (P : A → Prop) `{!∀ a, Decision (P a)}
    (f : A → A) (t : gmap Z A) :
  (∀ k r, t !! k = Some r → ¬ P r) → update_where P f t = t.
Proof.
  intros Hno. apply map_eq. intros k. rewrite update_where_lookup.
  destruct (t !! k) as [r|] eqn:Hr; [|done]. simpl.
  by rewrite decide_False by by eapply Hno.
Qed.

Lemma keys_where_elem_of {A} (P : A → Prop) `{!∀ a, Decision (P a)}
    (t : gmap Z A) id r :
  t !! id = Some r → P r → id ∈ keys_where P t.
Proof.
  intros Hr HP. unfold keys_where. apply list_elem_of_fmap. exists (id, r).
  split; [done|]. by apply elem_of_map_to_list, map_lookup_filter_Some.
Qed.

Lemma scan_ids_zero ids : scan_ids ids = Ok 0 → ids = [] ∨ 0 ∈ ids.
Proof.
  unfold scan_ids, scan_last. case_decide; [|done]. intros [= H0].
  destruct (last ids) as [x|] eqn:Hlast.
  - right. simpl in H0. subst x. apply last_Some in Hlast as [l' ->].
    apply elem_of_app. right. by left.
  - left. by apply last_None.
Qed.

Lemma well_kept_ext (st st' : Store) :
  materials st' = materials st → prices st' = prices st →
  well_kept st → well_kept st'.
Proof.
  destruct st, st'. simpl. intros -> ->. done.
Qed.

Lemma quantities_match_ext (st st' : Store) :
  materials st' = materials st → prices st' = prices st →
  quantities_match st → quantities_match st'.
Proof.
  destruct st, st'. simpl. intros -> ->. done.
Qed.

Lemma live_total_ext k (st st' : Store) :
  prices st' = prices st → live_total k st' = live_total k st.
Proof. unfold live_total. by intros ->. Qed.

Lemma live_total_add k (st : Store) lot row q :
  prices st !! lot = Some row → 0 ≤ pr_quantity row → 0 ≤ q →
  live_total k (set_prices (<[lot := add_quantity q row]> (prices st)) st)
    = live_total k st + (if decide (pr_material_id row = k) then q else 0).
Proof.
  intros Hl Hrow Hq. rewrite !live_total_sum_where. simpl.
  rewrite (sum_where_insert _ _ _ _ row) by done.
  unfold live_lot. simpl. repeat case_decide; lia.
Qed.

Lemma live_total_new k (st : Store) lot row :
  prices st !! lot = None → 0 ≤ pr_quantity row →
  live_total k (set_prices (<[lot := row]> (prices st)) st)
    = live_total k st
      + (if decide (pr_material_id row = k) then pr_quantity row else 0).
Proof.
  intros Hl Hrow. rewrite !live_total_sum_where. simpl.
  rewrite sum_where_insert_new by done.
  unfold live_lot. simpl. repeat case_decide; lia.
Qed.

Lemma live_total_none k (st : Store) :
  (∀ lot row, prices st !! lot = Some row → pr_material_id row ≠ k) →
  live_total k st = 0.
Proof.
  intros Hno. unfold live_total.
  assert (filter (live_lot k) (prices st) = ∅) as ->; [|by rewrite map_to_list_empty].
  apply map_empty. intros lot. apply map_lookup_filter_None.
  destruct (prices st !! lot) as [row|] eqn:Hl; [right|by left].
  intros row' [= <-] [Hm _]. by eapply Hno.
Qed.

(** The upsert of the lot settles what the record is ahead by. *)
Lemma does_upsertPrice_settles id q c :
  0 ≤ q →
  does (ahead id q)
       (upsertPrice {| priceId := 0; materialId := id; qty := q; cost := c |})
       (λ _ st, well_kept st ∧ quantities_match st).
Proof.
  intros Hq. apply does_tx_stmt. intros st ((H1 & H2 & H3 & H4) & Hid & Hqs). simpl.
  destruct (map_to_list _) as [|[lot row] l] eqn:Hl; simpl;
    unfold scan_int; case_decide; try done; simpl.
  - pose proof (next_id_fresh (prices st)) as Hfresh. split.
    + split; [done|]. split; [done|]. split.
      * apply map_Forall_insert; [done|]. split; [done|]. exact H3.
      * intros lot' row'. simpl. rewrite lookup_insert. case_decide.
        -- by intros [= <-].
        -- apply H4.
    + intros k r Hr. simpl in Hr. rewrite (Hqs k r Hr).
      rewrite live_total_new by done. simpl. repeat case_decide; congruence.
  - assert ((lot, row) ∈ map_to_list (filter (same_lot id c) (prices st))) as Hin
      by (rewrite Hl; by left).
    apply elem_of_map_to_list, map_lookup_filter_Some in Hin as [Hrow [Hm Hc]].
    simpl in Hm, Hc. pose proof (H3 lot row Hrow) as Hpos. simpl in Hpos. split.
    + split; [done|]. split; [done|]. split.
      * apply map_Forall_insert_2; [simpl; lia|exact H3].
      * intros lot' row'. simpl. rewrite lookup_insert. case_decide.
        -- intros [= <-]. simpl. by rewrite Hm.
        -- apply H4.
    + intros k r Hr. simpl in Hr. rewrite (Hqs k r Hr).
      rewrite (live_total_add _ _ _ row) by done. rewrite Hm.
      repeat case_decide; congruence.
Qed.

(** The end of [createMaterial] writes neither records nor lots. *)
Lemma does_createMaterial_end_keeps material materialId priceId :
  does (λ st, well_kept st ∧ quantities_match st)
       (createMaterial_end material materialId priceId)
       (λ _ st, well_kept st ∧ quantities_match st).
Proof.
  unfold createMaterial_end. eapply does_bind.
  { apply does_or_rollback.
    apply (does_tx_stmt _ _ (λ _ st, well_kept st ∧ quantities_match st)).
    intros st [Hwk Hqm]. simpl.
    split; [by eapply well_kept_ext|by eapply quantities_match_ext]. }
  intros ?. eapply does_bind.
  { apply does_or_rollback.
    apply (does_tx_stmt _ _ (λ _ st, well_kept st ∧ quantities_match st)).
    intros st [Hwk Hqm]. simpl.
    split; [by eapply well_kept_ext|by eapply quantities_match_ext]. }
  intros ?. apply (does_ret materialId (λ _ st, well_kept st ∧ quantities_match st)).
Qed.

(** A command that begins a transaction, defers its Commit and runs a
    body that fails clean: what the body keeps of the view of the
    transaction, the command keeps of the store, whatever it returns. *)
Lemma in_transaction_keeps {A} (body : M A) (J : Store → Prop) env (s : Store) :
  fails_clean body → does (λ st, st = s) body (λ _, J) → J s →
  J (run (BeginTx;; with_defer Commit body) env s).2.
Proof.
  intros Hclean Hdoes HJ. unfold run. rewrite bind_run, BeginTx_run. simpl calls.
  destruct (fails env 0%nat); [done|]. unfold with_defer.
  match goal with |- context [body env ?c1] =>
    pose proof (Hclean env c1) as Hc; pose proof (Hdoes env c1 eq_refl) as Hk;
    unfold wp in Hc, Hk; destruct (body env c1) as [[a|e|] c2]
  end; simpl in *; destruct Hc as [Hc Hr]; [| |done].
  - destruct Hk as [Ho HJ2]. unfold Commit, call. rewrite Ho.
    destruct (fails env (calls c2)); simpl; [by rewrite Hc|done].
  - unfold Commit. rewrite Hr. simpl. by rewrite Hc.
Qed.

(** A Receive of a quantity that is not negative keeps a well-kept
    store well kept and its quantities in step with its lots, whatever
    the store does during the call and whatever the Receive returns. *)
Lemma createMaterial_keeps material env (s : Store) :
  0 ≤ Qty material → well_kept s → quantities_match s →
  well_kept (run (createMaterial material) env s).2 ∧
  quantities_match (run (createMaterial material) env s).2.
Proof.
  intros Hq Hwk Hqm. unfold createMaterial.
  apply (in_transaction_keeps _ (λ st, well_kept st ∧ quantities_match st));
    [createMaterial_fails_clean| |done].
  eapply does_bind.
  { apply does_or_rollback.
    apply (does_tx_stmt _ _ (λ _ st, st = s)). intros st ->.
    destruct (incoming_materials s !! MaterialID material) as [im|]; simpl; [|done].
    by destruct (scan_incoming im). }
  intros incomingMaterial. cbv zeta.
  eapply does_bind.
  { apply does_or_rollback.
    apply (does_tx_stmt _ _ (λ materialId st,
      (materialId ≠ 0 ∧ ahead materialId (Qty material) st) ∨
      (materialId = 0 ∧ well_kept st ∧ quantities_match st ∧
       ∀ k r, materials st !! k = Some r →
         ¬ at_location (im_StockID incomingMaterial) (LocationID material)
             (im_Owner incomingMaterial) r))).
    intros st ->. simpl.
    destruct (scan_ids _) as [materialId| |] eqn:Hids; try done.
    destruct Hwk as (H1 & H2 & H3 & H4).
    destruct (decide (materialId = 0)) as [->|Hne].
    - right. split; [done|].
      assert (∀ k r, materials s !! k = Some r →
                ¬ at_location (im_StockID incomingMaterial) (LocationID material)
                    (im_Owner incomingMaterial) r) as Hno.
      { intros k r Hr Hhere.
        pose proof (keys_where_elem_of _ _ _ _ Hr Hhere) as Hin.
        apply scan_ids_zero in Hids as [Hnil|H0].
        - rewrite Hnil in Hin. by apply elem_of_nil in Hin.
        - apply elem_of_keys_where in H0 as (r0 & Hr0 & _).
          destruct (H1 _ _ Hr0) as [? _]. lia. }
      rewrite update_where_none by done. by rewrite set_materials_same.
    - left. split; [done|]. apply scan_ids_found in Hids; [|done].
      apply elem_of_keys_where in Hids as (r0 & Hr0 & Hst0 & Hloc0 & Hown0).
      assert (∀ k r, materials s !! k = Some r →
                at_location (im_StockID incomingMaterial) (LocationID material)
                  (im_Owner incomingMaterial) r → k = materialId) as Hone.
      { intros k r Hr (Hst & Hloc & Hown). apply (H2 k materialId r r0); congruence. }
      split; [split; [|split; [|split]]|split].
      + intros k r'. simpl. rewrite update_where_lookup.
        intros (r & Hr & ->)%fmap_Some. destruct (H1 _ _ Hr). by case_decide.
      + intros i j ri rj. simpl. rewrite !update_where_lookup.
        intros (ri0 & Hi & ->)%fmap_Some (rj0 & Hj & ->)%fmap_Some.
        intros Hs Hl Ho. apply (H2 i j ri0 rj0); [done|done|..];
          repeat case_decide; simpl in *; congruence.
      + exact H3.
      + intros lot row Hrow. simpl. rewrite update_where_lookup.
        apply fmap_is_Some. by eapply H4.
      + simpl. rewrite update_where_lookup. apply fmap_is_Some. by exists r0.
      + intros k r'. simpl. rewrite update_where_lookup.
        intros (r & Hr & ->)%fmap_Some.
        rewrite (live_total_ext k s) by done.
        pose proof (Hqm k r Hr) as Hk. simpl in Hk.
        case_decide as Hhere.
        * rewrite decide_True by by eapply Hone. simpl. lia.
        * rewrite decide_False; [lia|]. intros ->. apply Hhere.
          rewrite Hr in Hr0. injection Hr0 as ->. by repeat split. }
  intros materialId. case_decide as Hfound.
  - eapply does_bind; [|intros priceId; apply does_createMaterial_end_keeps].
    apply does_or_rollback.
    eapply does_pre; [|by apply does_upsertPrice_settles].
    by intros st [[_ Ha]|[-> _]].
  - eapply does_bind.
    { apply does_or_rollback.
      apply (does_tx_stmt _ _ (λ materialId' st,
        materialId' = 0 ∧ well_kept st ∧ quantities_match st ∧
        ∀ k r, materials st !! k = Some r →
          ¬ at_location (im_StockID incomingMaterial) (LocationID material)
              (im_Owner incomingMaterial) r)).
      intros st [[Hne _]|(_ & Hwk' & Hrest)]; [done|]. simpl.
      destruct (scan_ids _) as [materialId'| |] eqn:Hids; try done.
      split; [|done]. destruct (decide (materialId' = 0)) as [|Hne]; [done|].
      exfalso. apply scan_ids_found in Hids; [|done].
      apply elem_of_keys_where in Hids as (r & Hr & Hloc & _).
      destruct Hwk' as (H1 & _). destruct (H1 _ _ Hr) as [_ [l Hl]]. congruence. }
    intros materialId'. eapply does_bind.
    2: { intros id'. eapply does_bind; [|intros priceId; apply does_createMaterial_end_keeps].
         apply does_or_rollback. by apply does_upsertPrice_settles. }
    apply does_pure. intros ->. rewrite decide_False by (intros H; by apply H).
    apply does_or_rollback, does_tx_stmt.
    intros st ((H1 & H2 & H3 & H4) & Hqm' & Hno). simpl.
    unfold scan_int. case_decide; [|done]. simpl.
    pose proof (next_id_fresh (materials st)) as Hfresh.
    pose proof (next_id_pos (materials st)) as Hpos.
    split; [split; [|split; [|split]]|split].
    + intros k r. simpl. rewrite lookup_insert. case_decide.
      * intros [= <-]. subst k. by split.
      * apply H1.
    + intros i j ri rj. simpl. rewrite !lookup_insert.
      repeat case_decide; subst; try done.
      * intros [= <-] Hj Hs Hl Ho. exfalso. apply (Hno j rj Hj).
        simpl in *. by repeat split.
      * intros Hi [= <-] Hs Hl Ho. exfalso. apply (Hno i ri Hi).
        simpl in *. by repeat split.
      * apply H2.
    + exact H3.
    + intros lot row Hrow. simpl. rewrite lookup_insert. case_decide; [done|].
      by eapply H4.
    + simpl. by rewrite lookup_insert_eq.
    + intros k r. simpl. rewrite lookup_insert.
      rewrite (live_total_ext k st) by done. case_decide.
      * intros [= <-]. subst k. simpl. rewrite decide_True by done.
        rewrite live_total_none; [lia|].
        intros lot row Hrow Hm. destruct (H4 _ _ Hrow) as [r' Hr'].
        by rewrite Hm, Hfresh in Hr'.
      * intros Hr. rewrite decide_False by done.
        pose proof (Hqm' k r Hr) as Hk. simpl in Hk. lia.
Qed.

Lemma well_kept_empty : well_kept (empty_store : Store).
Proof.
  split; [|split; [|split]].
  - intros id r. simpl. by rewrite lookup_empty.
  - intros i j ri rj. simpl. by rewrite lookup_empty.
  - apply map_Forall_empty.
  - intros lot row. simpl. by rewrite lookup_empty.
Qed.

Lemma quantities_match_empty : quantities_match (empty_store : Store).
Proof. apply map_Forall_empty. Qed.

Lemma sendMaterial_keeps material env (s : Store) :
  well_kept s → quantities_match s →
  well_kept (run (sendMaterial material) env s).2 ∧
  quantities_match (run (sendMaterial material) env s).2.
Proof.
  intros Hwk Hqm. unfold run, sendMaterial, call. simpl.
  destruct (fails env 0%nat); simpl; [done|].
  split; [by eapply well_kept_ext|by eapply quantities_match_ext].
Qed.

Lemma updateMaterial_keeps material env (s : Store) :
  well_kept s → quantities_match s →
  well_kept (run (updateMaterial material) env s).2 ∧
  quantities_match (run (updateMaterial material) env s).2.
Proof.
  intros (H1 & H2 & H3 & H4) Hqm. unfold run, updateMaterial, call. simpl.
  destruct (fails env 0%nat); simpl; [done|].
  assert (∀ k r', alter (set_primary (IsPrimary material)) (MaterialID material)
                    (materials s) !! k = Some r' →
            ∃ r, materials s !! k = Some r ∧ stock_id r' = stock_id r ∧
                 location_id r' = location_id r ∧ owner r' = owner r ∧
                 quantity r' = quantity r) as Hback.
  { intros k r'. rewrite lookup_alter. case_decide.
    - subst k. intros (r & Hr & ->)%fmap_Some. by exists r.
    - intros Hr. by exists r'. }
  split; [split; [|split; [|split]]|].
  - intros k r' (r & Hr & _ & Hl & _)%Hback. rewrite Hl. by eapply H1.
  - intros i j ri rj (ri0 & Hi & Hsi & Hli & Hoi & _)%Hback
      (rj0 & Hj & Hsj & Hlj & Hoj & _)%Hback Hs Hl Ho.
    apply (H2 i j ri0 rj0); congruence.
  - exact H3.
  - intros lot row Hrow. simpl in *. rewrite lookup_alter. case_decide as Hk.
    + apply fmap_is_Some. rewrite Hk. by eapply H4.
    + by eapply H4.
  - intros k r' (r & Hr & _ & _ & _ & Hq)%Hback. simpl. rewrite Hq.
    apply (Hqm k r Hr).
Qed.

Lemma exec_keeps cmd env (s : Store) :
  asks_nonneg cmd → well_kept s → quantities_match s →
  well_kept (exec cmd env s).2 ∧ quantities_match (exec cmd env s).2.
Proof.
  intros Hq Hwk Hqm. destruct cmd as [material|material|material|material]; simpl.
  - pose proof (createMaterial_keeps material env s Hq Hwk Hqm) as H.
    by destruct (run (createMaterial material) env s) as [[id|e|] s'].
  - by destruct (moveMaterial_run material env s) as (e & ->).
  - by destruct (removeMaterial_run material env s) as (e & ->).
  - by apply updateMaterial_keeps.
Qed.

Lemma stocked_well_kept (s : Store) : stocked s → well_kept s ∧ quantities_match s.
Proof.
  induction 1 as [|s material env r s' _ IH Hrun|s cmd env r s' _ IH Hq Hrun].
  - split; [apply well_kept_empty|apply quantities_match_empty].
  - destruct IH as [Hwk Hqm].
    pose proof (sendMaterial_keeps material env s Hwk Hqm) as H.
    by rewrite Hrun in H.
  - destruct IH as [Hwk Hqm].
    pose proof (exec_keeps cmd env s Hq Hwk Hqm) as H.
    by rewrite Hrun in H.
Qed.


End Proofs.

(** ** The broadcast *)

Lemma failing_clients_cons {Message} (net : Net Message) msg client b entries :
  failing_clients net msg ((client, b) :: entries)
    = if WriteMessage net client msg then failing_clients net msg entries
      else client :: failing_clients net msg entries.
Proof.
  unfold failing_clients. rewrite filter_cons. simpl.
  destruct (WriteMessage net client msg).
  - by rewrite decide_False.
  - by rewrite decide_True.
Qed.

Lemma broadcast_loop_spec {Message} (net : Net Message) msg entries :
  ∀ w, NoDup entries.*1 →
    (∀ k, wsActiveClients (broadcast_loop net msg entries w) !! k =
          if decide (k ∈ failing_clients net msg entries) then None
          else wsActiveClients w !! k) ∧
    attempts (broadcast_loop net msg entries w)
      = attempts w ++ ((λ kv, (kv.1, msg)) <$> entries) ∧
    was_closed (broadcast_loop net msg entries w)
      = was_closed w ++ failing_clients net msg entries.
Proof.
  induction entries as [|[client b] entries IH]; intros w Hnd.
  { cbn [broadcast_loop]. split; [|by rewrite !app_nil_r].
    intros k. destruct (decide _) as [Hin|Hnin]; [|done].
    by apply elem_of_nil in Hin. }
  rewrite fmap_cons, NoDup_cons in Hnd. cbn [fst] in Hnd. destruct Hnd as [Hni Hnd].
  cbn [broadcast_loop]. rewrite failing_clients_cons, fmap_cons. cbn [fst].
  destruct (WriteMessage net client msg) eqn:Hw.
  - match goal with |- context [broadcast_loop net msg entries ?w1] =>
      destruct (IH w1 Hnd) as (Hc & Ha & Hcl)
    end.
    cbn [wsActiveClients attempts was_closed] in *. split; [done|]. split; [|done].
    by rewrite Ha, <- (assoc_L (++)).
  - match goal with |- context [broadcast_loop net msg entries ?w1] =>
      destruct (IH w1 Hnd) as (Hc & Ha & Hcl)
    end.
    cbn [wsActiveClients attempts was_closed] in *. split; [|split].
    + intros k. rewrite Hc.
      destruct (decide (k = client)) as [->|Hne].
      * rewrite (decide_True (P := client ∈ client :: _)) by by left.
        rewrite lookup_delete_eq. by case_decide.
      * rewrite lookup_delete_ne by done.
        destruct (decide (k ∈ failing_clients net msg entries)) as [Hin|Hnin].
        -- rewrite decide_True; [done|]. by right.
        -- rewrite decide_False; [done|]. by apply not_elem_of_cons.
    + by rewrite Ha, <- (assoc_L (++)).
    + by rewrite Hcl, <- (assoc_L (++)).
Qed.

(** X26. A broadcast of a message that encodes tries every active
    client once, in the order of the range over the map, and drops
    exactly the clients whose write fails: those are closed and removed
    from [wsActiveClients], the others stay, and no client is added. *)
Theorem broadcastMessage_drops_failing_clients {Message} (net : Net Message)
    (message : Message) msg (w : Sockets) :
  Marshal net message = Some msg →
  range_clients net (wsActiveClients w) ≡ₚ map_to_list (wsActiveClients w) →
  let w' := broadcastMessage net message w in
  wsActiveClients w'
    = filter (λ kv, WriteMessage net kv.1 msg = true) (wsActiveClients w) ∧
  attempts w'
    = attempts w ++ ((λ kv, (kv.1, msg)) <$> range_clients net (wsActiveClients w)) ∧
  was_closed w'
    = was_closed w ++ failing_clients net msg (range_clients net (wsActiveClients w)).
Proof.
  intros Hm Hperm. unfold broadcastMessage. rewrite Hm.
  destruct (broadcast_loop_spec net msg (range_clients net (wsActiveClients w)) w)
    as (Hc & Ha & Hcl).
  { rewrite Hperm. apply NoDup_fst_map_to_list. }
  split; [|done]. apply map_eq. intros k. rewrite Hc.
  destruct (wsActiveClients w !! k) as [b|] eqn:Hk.
  - assert ((k, b) ∈ range_clients net (wsActiveClients w)) as Hin
      by by rewrite Hperm, elem_of_map_to_list.
    destruct (WriteMessage net k msg) eqn:Hw.
    + rewrite decide_False.
      * symmetry. by apply map_lookup_filter_Some.
      * unfold failing_clients. intros ([k' b'] & -> & Hf)%list_elem_of_fmap.
        apply list_elem_of_filter in Hf as [Hf _]. simpl in Hf, Hw. congruence.
    + rewrite decide_True.
      * symmetry. apply map_lookup_filter_None. right. intros b' _ Ht.
        simpl in Ht. congruence.
      * unfold failing_clients. apply list_elem_of_fmap. exists (k, b).
        split; [done|]. by apply list_elem_of_filter.
  - assert (filter (λ kv : Z * bool, WriteMessage net kv.1 msg = true)
              (wsActiveClients w) !! k = None) as ->
      by (apply map_lookup_filter_None; by left).
    by case_decide.
Qed.
(** * The small warehouse *)

Lemma valid_range_calm : valid_range calm.
Proof. intros m. apply merge_sort_Permutation. Qed.

Lemma valid_range_fickle : valid_range fickle.
Proof. intros m. apply merge_sort_Permutation. Qed.

Lemma no_fault_calm : no_fault calm.
Proof. intros n. reflexivity. Qed.

Lemma one_lot_reachable : reachable one_lot.
Proof.
  unfold one_lot. eapply reachable_exec; [|apply valid_range_calm|apply surjective_pairing].
  eapply reachable_intake; [apply reachable_empty|apply surjective_pairing].
Qed.

Lemma two_lots_reachable : reachable two_lots.
Proof.
  unfold two_lots.
  eapply reachable_exec; [|apply valid_range_calm|apply surjective_pairing].
  eapply reachable_exec; [|apply valid_range_calm|apply surjective_pairing].
  eapply reachable_intake; [|apply surjective_pairing].
  eapply reachable_intake; [apply reachable_empty|apply surjective_pairing].
Qed.

(** The first and the third scenario of the specification: Receive of
    20 at cost 10 on an empty system, then Move of the 20 to location
    2. The Receive leaves what the scenario says; the Move returns the
    error of the Scan of [getMaterialById] and moves nothing. *)
Example receive_then_move :
  summary one_lot = ([], [(1, Some 1, 20)], [(1, 1, 20, 10)], [(1, 20)]) ∧
  exec (move 1 2 20) calm one_lot = (Err ErrScan, one_lot).
Proof. split; vm_compute; reflexivity. Qed.

(** C1, at the failing input. Two lots created in this order, 5 at cost
    10 and 5 at cost 12; the runtime ranges over the map of lots from
    the highest key down, as it may. FIFO consumption of 7 then takes 5
    at cost 12 and 2 at cost 10: the newest lot goes first. Only in a
    run that ranges from the lowest key up does it take 5 at cost 10 and
    2 at cost 12. *)
Theorem fifo_follows_the_range_of_the_map :
  reachable two_lots ∧ valid_range fickle ∧
  summary two_lots
    = ([], [(1, Some 1, 10)], [(1, 1, 5, 10); (2, 1, 5, 12)], [(1, 5); (2, 5)]) ∧
  ((BeginTx;;
    removePricesFIFO
      {| ptr_materialId := 1; ptr_qty := 7;
         ptr_notes := "Removed FROM a Location"; ptr_jobTicket := "JT-1" |})
     fickle (start two_lots)).1
    = Ok [{| priceId := 0; materialId := 0; qty := 5; cost := 12 |};
          {| priceId := 0; materialId := 0; qty := 2; cost := 10 |}] ∧
  summary (work ((BeginTx;;
    removePricesFIFO
      {| ptr_materialId := 1; ptr_qty := 7;
         ptr_notes := "Removed FROM a Location"; ptr_jobTicket := "JT-1" |})
     fickle (start two_lots)).2)
    = ([], [(1, Some 1, 10)], [(1, 1, 3, 10); (2, 1, 0, 12)],
       [(1, 5); (2, 5); (2, -5); (1, -2)]) ∧
  summary (work ((BeginTx;;
    removePricesFIFO
      {| ptr_materialId := 1; ptr_qty := 7;
         ptr_notes := "Removed FROM a Location"; ptr_jobTicket := "JT-1" |})
     calm (start two_lots)).2)
    = ([], [(1, Some 1, 10)], [(1, 1, 0, 10); (2, 1, 3, 12)],
       [(1, 5); (2, 5); (1, -5); (2, -2)]).
Proof.
  split; [apply two_lots_reachable|]. split; [apply valid_range_fickle|].
  repeat split; vm_compute; reflexivity.
Qed.

(** C3, as stated, fails. The live lots of material 1 hold 10; FIFO
    consumption of 12 returns without an error, has emptied both lots
    and leaves the transaction open. *)
Lemma short_lots_are_not_reported :
  live_total 1 two_lots = 10 ∧
  (let r := (BeginTx;;
             removePricesFIFO
               {| ptr_materialId := 1; ptr_qty := 12;
                  ptr_notes := "Removed FROM a Location"; ptr_jobTicket := "JT-1" |})
              calm (start two_lots) in
   r.1 = Ok [{| priceId := 0; materialId := 0; qty := 5; cost := 10 |};
             {| priceId := 0; materialId := 0; qty := 5; cost := 12 |}] ∧
   tx_open r.2 = true ∧
   summary (work r.2)
     = ([], [(1, Some 1, 10)], [(1, 1, 0, 10); (2, 1, 0, 12)],
        [(1, 5); (2, 5); (1, -5); (2, -5)])).
Proof. repeat split; vm_compute; reflexivity. Qed.


(** C6, at the failing input. The record 1 holds 20. A Move and a Remove
    of 25 are refused, and the store is left as it was, but not for the
    quantity: the error is the one of the Scan of [getMaterialById], and
    it names neither quantity. The check of the quantity comes after
    the load and is not reached. *)
Theorem exceeding_quantity_is_not_named :
  (∃ row, materials one_lot !! 1 = Some row ∧ quantity row = 20) ∧
  exec (move 1 2 25) calm one_lot = (Err ErrScan, one_lot) ∧
  exec (remove 1 25) calm one_lot
    = (Err (ErrNewWrap "Unable to get the current material info: " ErrScan),
       one_lot).
Proof.
  split; [exists the_record; split; vm_compute; reflexivity|].
  split; vm_compute; reflexivity.
Qed.

(** C7, at the failing input. The record 1 holds 20 at location 1. A
    Move and a Remove of exactly 20 return the error of the Scan of
    [getMaterialById]; the record is not retired: it stays at location 1
    with its 20. *)
Theorem full_quantity_is_not_retired :
  exec (move 1 2 20) calm one_lot = (Err ErrScan, one_lot) ∧
  exec (remove 1 20) calm one_lot
    = (Err (ErrNewWrap "Unable to get the current material info: " ErrScan),
       one_lot) ∧
  (∃ row, materials one_lot !! 1 = Some row ∧
          location_id row = Some 1 ∧ quantity row = 20) ∧
  ¬ retired 1 one_lot.
Proof.
  split; [vm_compute; reflexivity|]. split; [vm_compute; reflexivity|].
  split; [exists the_record; repeat split; vm_compute; reflexivity|].
  intros (row & Hrow & Hloc & _). vm_compute in Hrow.
  injection Hrow as <-. discriminate Hloc.
Qed.

(** C8, at the failing input. One shipment is pending. In a run in which
    the store fails the Commit, the ninth call, a Receive of the
    shipment returns success and stores nothing; a second Receive of
    the same shipment then succeeds as well, and places the stock. *)
Theorem receive_twice_after_a_lost_commit :
  exec (receive 1 1 20) (failing 8) pending = (Ok (), pending) ∧
  exec (receive 1 1 20) calm pending = (Ok (), one_lot).
Proof. split; vm_compute; reflexivity. Qed.

(** C10, as stated, fails. The negation of the least [int] is the least
    [int]: FIFO consumption of that quantity from the lot of [one_lot],
    which holds 20, adds it to the lot. *)
Lemma least_quantity_overdraws :
  lots_nonneg one_lot ∧
  (let r := (BeginTx;;
             removePricesFIFO
               {| ptr_materialId := 1; ptr_qty := int_min;
                  ptr_notes := "Removed FROM a Location"; ptr_jobTicket := "JT-1" |})
              calm (start one_lot) in
   r.1 = Ok [{| priceId := 0; materialId := 0; qty := int_min; cost := 10 |}] ∧
   (λ kv, (kv.1, pr_quantity kv.2)) <$> rows_of (prices (work r.2))
     = [(1, -9223372036854775788)] ∧
   ¬ lots_nonneg (work r.2)).
Proof.
  split; [compute_done|]. split; [vm_compute; reflexivity|].
  split; [vm_compute; reflexivity|].
  intros H. specialize (H 1 _ eq_refl). vm_compute in H. by apply H.
Qed.

(** C9, as stated, fails. After the Receive of 20 the lot holds 20, it
    was created with 20 and its log adds up to 20: counting the creating
    quantity besides the log gives 40. *)
Lemma creating_quantity_is_logged_too :
  ¬ (∀ s : Store (float64 := Z), reachable s →
       ∀ id row, prices s !! id = Some row →
         pr_quantity row = created_with row + ledger_sum id (transactions_log s)).
Proof.
  intros H.
  specialize (H one_lot one_lot_reachable 1
    {| pr_material_id := 1; pr_quantity := 20; pr_cost := 10; created_with := 20 |}).
  vm_compute in H. specialize (H eq_refl). discriminate.
Qed.

(** * The theorems at work in the small warehouse *)

Lemma short_of_lots_witness :
  live_total 1 (work (BeginTx calm (start two_lots)).2) < 12 ∧
  ∃ removedPrices c',
    removePricesFIFO
      {| ptr_materialId := 1; ptr_qty := 12;
         ptr_notes := "Removed FROM a Location"; ptr_jobTicket := "JT-1" |}
      calm (BeginTx calm (start two_lots)).2 = (Ok removedPrices, c') ∧
    tx_open c' = true ∧
    foldr Z.add 0 (qty <$> removedPrices) = 10.
Proof.
  split; [vm_compute; reflexivity|].
  destruct (removePricesFIFO_short_of_lots calm (BeginTx calm (start two_lots)).2
              {| ptr_materialId := 1; ptr_qty := 12;
                 ptr_notes := "Removed FROM a Location"; ptr_jobTicket := "JT-1" |})
    as (removedPrices & c' & Hrun & Ho & Hsum & _).
  - apply valid_range_calm.
  - apply no_fault_calm.
  - reflexivity.
  - compute_done.
  - vm_compute. reflexivity.
  - vm_compute. discriminate.
  - exists removedPrices, c'. split; [exact Hrun|]. split; [exact Ho|].
    rewrite Hsum. vm_compute. reflexivity.
Defined.

Lemma one_lot_stocked : stocked one_lot.
Proof.
  unfold one_lot.
  eapply (stocked_exec _ (receive 1 1 20)); [|simpl; lia|apply surjective_pairing].
  eapply stocked_intake; [apply stocked_empty|apply surjective_pairing].
Qed.


Lemma ledger_reconciles_witness :
  20 = ledger_sum 1 (transactions_log one_lot).
Proof.
  apply (ledger_reconciles one_lot 1
    {| pr_material_id := 1; pr_quantity := 20; pr_cost := 10; created_with := 20 |}
    one_lot_reachable).
  vm_compute. reflexivity.
Defined.

Lemma never_overdraws_witness :
  lots_kept_or_taken (work (BeginTx fickle (start two_lots)).2)
    (work (removePricesFIFO
             {| ptr_materialId := 1; ptr_qty := 7;
                ptr_notes := "Removed FROM a Location"; ptr_jobTicket := "JT-1" |}
             fickle (BeginTx fickle (start two_lots)).2).2).
Proof.
  apply (removePricesFIFO_never_overdraws fickle (BeginTx fickle (start two_lots)).2
    {| ptr_materialId := 1; ptr_qty := 7;
       ptr_notes := "Removed FROM a Location"; ptr_jobTicket := "JT-1" |}
    (removePricesFIFO
       {| ptr_materialId := 1; ptr_qty := 7;
          ptr_notes := "Removed FROM a Location"; ptr_jobTicket := "JT-1" |}
       fickle (BeginTx fickle (start two_lots)).2).1).
  - apply valid_range_fickle.
  - vm_compute. reflexivity.
  - vm_compute. discriminate.
  - apply surjective_pairing.
Defined.

Lemma log_is_append_only_witness :
  transactions_log first_received `prefix_of` transactions_log two_lots.
Proof.
  apply log_is_append_only.
  eapply (follows_exec _ _ (receive 2 1 5) calm);
    [apply follows_refl|apply surjective_pairing].
Defined.

Lemma lots_are_kept_witness :
  ∃ row', prices two_lots !! 1 = Some row' ∧
          pr_material_id row' = 1 ∧ pr_cost row' = 10.
Proof.
  apply (lots_are_kept first_received two_lots 1
    {| pr_material_id := 1; pr_quantity := 5; pr_cost := 10; created_with := 5 |}).
  - eapply (follows_exec _ _ (receive 2 1 5) calm);
      [apply follows_refl|apply surjective_pairing].
  - vm_compute. reflexivity.
Defined.

Lemma records_are_kept_witness :
  ∃ r', materials two_lots !! 1 = Some r' ∧
        stock_id r' = "S1" ∧ owner r' = "Tag" ∧ customer_id r' = 1 ∧
        material_type r' = "Carrier" ∧ description r' = "envelopes" ∧
        min_required_quantity r' = 0 ∧ max_required_quantity r' = 100 ∧
        is_active r' = true.
Proof.
  apply (records_are_kept first_received two_lots 1
    {| stock_id := "S1"; location_id := Some 1; customer_id := 1;
       material_type := "Carrier"; description := "envelopes";
       notes := "received"; quantity := 5; min_required_quantity := 0;
       max_required_quantity := 100; is_active := true; owner := "Tag";
       is_primary := None |}).
  - eapply (follows_exec _ _ (receive 2 1 5) calm);
      [apply follows_refl|apply surjective_pairing].
  - vm_compute. reflexivity.
Defined.

Lemma one_lot_per_material_and_cost_witness : lots_unique two_lots.
Proof. apply one_lot_per_material_and_cost, two_lots_reachable. Defined.

Lemma log_entries_name_lots_witness : is_Some (prices one_lot !! 1).
Proof.
  apply (log_entries_name_lots one_lot
    {| trx_priceId := 1; trx_qty := 20; trx_notes := "received";
       trx_jobTicket := EmptyString |} one_lot_reachable).
  vm_compute. left.
Defined.

Lemma unplaced_source_witness :
  exec (move 1 2 5) calm emptied = (Err ErrScan, emptied) ∧
  exec (remove 7 5) calm emptied
    = (Err (ErrNewWrap "Unable to get the current material info: " ErrNoRows),
       emptied).
Proof.
  split.
  - destruct (unplaced_source_is_refused calm emptied 1) as [Hmove _].
    { intros row. vm_compute. by intros [= <-]. }
    destruct (Hmove {| MaterialID := 1; LocationID := 2; Qty := 5;
                       Notes := "moved"; IsPrimary := false |} eq_refl)
      as (e & Hrun & He).
    rewrite (He eq_refl eq_refl) in Hrun. exact Hrun.
  - destruct (unplaced_source_is_refused calm emptied 7) as [_ Hremove].
    { intros row. vm_compute. discriminate. }
    destruct (Hremove {| rm_MaterialID := 7; rm_Qty := 5; rm_JobTicket := "JT-1" |}
                eq_refl) as (e & Hrun & He).
    rewrite (He eq_refl eq_refl) in Hrun. exact Hrun.
Defined.

Lemma updateMaterial_of_no_record_witness :
  exec (adjust 9 true) calm one_lot = (Ok (), one_lot).
Proof.
  apply updateMaterial_of_no_record; [reflexivity|vm_compute; reflexivity].
Defined.

Lemma updateMaterial_is_idempotent_witness :
  exec (adjust 1 true) calm (exec (adjust 1 true) calm one_lot).2
    = exec (adjust 1 true) calm one_lot.
Proof. apply updateMaterial_is_idempotent; reflexivity. Defined.

Lemma getMaterialPrices_witness :
  work (getMaterialPrices 1 calm (BeginTx calm (start two_lots)).2).2
    = work (BeginTx calm (start two_lots)).2.
Proof.
  destruct (getMaterialPrices 1 calm (BeginTx calm (start two_lots)).2)
    as [[m|e|] c'] eqn:E.
  - apply (getMaterialPrices_reads_live_lots calm _ 1 m c' E).
  - vm_compute in E. discriminate E.
  - vm_compute in E. discriminate E.
Defined.

Lemma upsertPrice_witness :
  ∃ row', prices (work (upsertPrice
                          {| priceId := 0; materialId := 1; qty := 5; cost := 10 |}
                          calm (BeginTx calm (start one_lot)).2).2) !! 1 = Some row' ∧
          pr_quantity row' = 25.
Proof.
  assert (upsertPrice {| priceId := 0; materialId := 1; qty := 5; cost := 10 |}
            calm (BeginTx calm (start one_lot)).2
          = (Ok 1, (upsertPrice {| priceId := 0; materialId := 1; qty := 5; cost := 10 |}
                      calm (BeginTx calm (start one_lot)).2).2)) as E.
  { vm_compute. reflexivity. }
  destruct (upsertPrice_adds_to_one_lot calm _ _ 1 _ E)
    as [(row' & Hl & _ & _ & Hq) _].
  exists row'. split; [exact Hl|]. rewrite Hq. vm_compute. reflexivity.
Defined.

Lemma takes_what_is_asked_witness :
  ∃ removedPrices c',
    removePricesFIFO
      {| ptr_materialId := 1; ptr_qty := 7;
         ptr_notes := "Removed FROM a Location"; ptr_jobTicket := "JT-1" |}
      fickle (BeginTx fickle (start two_lots)).2 = (Ok removedPrices, c') ∧
    foldr Z.add 0 (qty <$> removedPrices) = 7 ∧
    live_total 1 (work c') = 3.
Proof.
  destruct (removePricesFIFO_takes_what_is_asked fickle
              (BeginTx fickle (start two_lots)).2
              {| ptr_materialId := 1; ptr_qty := 7;
                 ptr_notes := "Removed FROM a Location"; ptr_jobTicket := "JT-1" |})
    as (removedPrices & c' & Hrun & Hsum & Hlive).
  - apply valid_range_fickle.
  - intros n. reflexivity.
  - reflexivity.
  - compute_done.
  - vm_compute. reflexivity.
  - vm_compute. discriminate.
  - vm_compute. discriminate.
  - exists removedPrices, c'. split; [exact Hrun|]. split; [exact Hsum|].
    etrans; [exact Hlive|]. vm_compute. reflexivity.
Defined.

Lemma createMaterial_consumes_witness :
  is_Some (incoming_materials pending !! 1) ∧
  incoming_materials one_lot = delete 1 (incoming_materials pending).
Proof.
  apply (createMaterial_consumes_its_intake calm pending
    {| MaterialID := 1; LocationID := 1; Qty := 20;
       Notes := "received"; IsPrimary := false |} 1 one_lot no_fault_calm).
  vm_compute. reflexivity.
Defined.

Lemma createMaterial_places_witness :
  ∃ im r lot row,
    incoming_materials pending !! 1 = Some im ∧
    materials one_lot !! 1 = Some r ∧
    stock_id r = im_StockID im ∧ owner r = im_Owner im ∧
    location_id r = Some 1 ∧
    prices one_lot !! lot = Some row ∧
    pr_material_id row = 1 ∧ pr_cost row = im_Cost im ∧
    last (transactions_log one_lot) =
      Some {| trx_priceId := lot; trx_qty := 20;
              trx_notes := "received"; trx_jobTicket := EmptyString |}.
Proof.
  apply (createMaterial_places_the_shipment calm pending
    {| MaterialID := 1; LocationID := 1; Qty := 20;
       Notes := "received"; IsPrimary := false |} 1 one_lot no_fault_calm).
  vm_compute. reflexivity.
Defined.

Lemma getIncomingMaterials_lists_witness :
  pending = pending ∧
  length [shipment_listed "1" 10 20] = size (incoming_materials pending) ∧
  ∀ id im, incoming_materials pending !! id = Some im →
    ∃ name, customers office !! im_CustomerID im = Some name ∧
            {| ShippingID := Itoa id; CustomerName := name;
               shipment_data := im |} ∈ [shipment_listed "1" 10 20].
Proof.
  apply (getIncomingMaterials_lists_every_intake office calm pending
           [shipment_listed "1" 10 20] pending).
  vm_compute. reflexivity.
Defined.

Lemma getIncomingMaterials_needs_witness :
  run (getIncomingMaterials no_customers) calm pending
    = (Err (ErrNewWrap "Error scanning row: " ErrScan), pending).
Proof.
  eapply (getIncomingMaterials_needs_every_customer no_customers calm pending 1).
  - reflexivity.
  - vm_compute. reflexivity.
  - vm_compute. reflexivity.
Defined.

Lemma received_intake_witness :
  Forall (λ e : IncomingMaterialListed, ShippingID e ≠ Itoa 1)
    [shipment_listed "2" 12 5].
Proof.
  apply (received_intake_is_not_listed office calm calm two_pending
           {| MaterialID := 1; LocationID := 1; Qty := 5;
              Notes := "received"; IsPrimary := false |} 1 first_received
           [shipment_listed "2" 12 5] first_received no_fault_calm).
  - vm_compute. reflexivity.
  - vm_compute. reflexivity.
Defined.

Lemma submitted_shipment_witness :
  ∃ e, e ∈ [shipment_listed "1" 10 20] ∧
       customers office !! 1 = Some (CustomerName e) ∧
       shipment_data e = shipment_data (shipment_listed "1" 10 20).
Proof.
  apply (submitted_shipment_is_listed office calm calm empty_store
           (shipment 10 20) pending [shipment_listed "1" 10 20] pending).
  - vm_compute. reflexivity.
  - vm_compute. reflexivity.
Defined.

Lemma getMaterials_skips_witness :
  Forall (λ e, lm_MaterialID e ≠ 1) [].
Proof.
  apply (getMaterials_skips_retired_records ascii_text office no_filter calm
           emptied 1 [] emptied).
  - intros r. vm_compute. by intros [= <-].
  - vm_compute. reflexivity.
Defined.

Lemma getMaterials_lists_witness :
  one_lot = one_lot ∧
  length [the_record_listed]
    = size (filter (λ kv, is_Some (location_id kv.2)) (materials one_lot)) ∧
  ∀ id r, materials one_lot !! id = Some r → is_Some (location_id r) →
    ∃ e, e ∈ [the_record_listed] ∧
         lm_MaterialID e = id ∧ lm_StockID e = stock_id r ∧
         lm_Quantity e = quantity r ∧ lm_Owner e = owner r ∧
         lm_Notes e = notes r ∧ lm_Description e = description r ∧
         lm_CustomerID e = customer_id r ∧
         customers office !! customer_id r = Some (lm_CustomerName e).
Proof.
  apply (getMaterials_lists_every_placed_record ascii_text office calm one_lot
           [the_record_listed] one_lot).
  vm_compute. reflexivity.
Defined.


Lemma broadcastMessage_witness :
  wsActiveClients (broadcastMessage wire "ping" three_clients)
    = filter (λ kv, WriteMessage wire kv.1 "ping" = true)
        (wsActiveClients three_clients) ∧
  attempts (broadcastMessage wire "ping" three_clients)
    = attempts three_clients ++
      ((λ kv, (kv.1, "ping")) <$> range_clients wire (wsActiveClients three_clients)) ∧
  was_closed (broadcastMessage wire "ping" three_clients)
    = was_closed three_clients ++
      failing_clients wire "ping" (range_clients wire (wsActiveClients three_clients)).
Proof.
  apply (broadcastMessage_drops_failing_clients wire "ping" "ping" three_clients).
  - reflexivity.
  - reflexivity.
Defined.
